(** * Word-cloud layout engine (obsidian-word-cloud, [src/main.ts])

    A shallow embedding of the plugin's layout code and the proofs of its
    specified properties.

    Modelling conventions.
    - A JavaScript [number] is an exact rational ([Q]); integer-valued
      quantities that the code only ever produces as integers (word counts,
      font sizes, the attempt counter) are [Z].  Rounding of doubles is not
      modelled: statements are kept to what holds of the rounded
      computation as well, integers are kept below 2^53 where their exact
      value matters, and a margin is left where a comparison could be
      decided by the last bit.
    - A JavaScript string is a [string] of 8-bit characters, and the text
      functions ([toUpperCase], [toLowerCase], [trim]) are those of
      JavaScript on ASCII text ([isAscii]): outside of it the full Unicode
      case mapping and white space are not modelled, and the statements on
      casing and trimming are about ASCII text.
    - The host (DOM, canvas, [Math.random], [Math.cos], [Math.sin], the
      engine's [Array.prototype.sort] under a random comparator) is a record
      of functions, [Host]; what the code relies on is stated in [host_ok]. *)

From Stdlib Require Import ZArith QArith Qround Qabs Lia Lqa Bool List.
From Stdlib Require Import Ascii String Permutation.
Import ListNotations.

Local Open Scope Z_scope.

(* ------------------------------------------------------------------ *)
(** * JavaScript strings *)

Module JsString.
Local Open Scope string_scope.
Local Open Scope nat_scope.

(** ASCII text: every character is below 128. *)
Definition isAsciiChar (c : ascii) : bool := nat_of_ascii c <? 128.

Fixpoint isAscii (s : string) : bool :=
  match s with
  | EmptyString => true
  | String c r => isAsciiChar c && isAscii r
  end.

Definition isUpperChar (c : ascii) : bool :=
  let n := nat_of_ascii c in (65 <=? n) && (n <=? 90).

Definition isLowerChar (c : ascii) : bool :=
  let n := nat_of_ascii c in (97 <=? n) && (n <=? 122).

Definition upperChar (c : ascii) : ascii :=
  if isLowerChar c then ascii_of_nat (nat_of_ascii c - 32) else c.

Definition lowerChar (c : ascii) : ascii :=
  if isUpperChar c then ascii_of_nat (nat_of_ascii c + 32) else c.

Fixpoint mapChars (f : ascii -> ascii) (s : string) : string :=
  match s with
  | EmptyString => EmptyString
  | String c r => String (f c) (mapChars f r)
  end.

(** [s.toUpperCase()], [s.toLowerCase()] on ASCII text: the letters a-z
    and A-Z are mapped, every other ASCII character is left alone. *)
Definition toUpperCase : string -> string := mapChars upperChar.
Definition toLowerCase : string -> string := mapChars lowerChar.

(** [s.charAt(0)]: the first character as a string, or the empty string. *)
Definition charAt0 (s : string) : string :=
  match s with
  | EmptyString => EmptyString
  | String c _ => String c EmptyString
  end.

(** [s.slice(1)] *)
Definition slice1 (s : string) : string :=
  match s with
  | EmptyString => EmptyString
  | String _ r => r
  end.

Fixpoint revString (s acc : string) : string :=
  match s with
  | EmptyString => acc
  | String c r => revString r (String c acc)
  end.

(** [s.split(sep)] for a string separator.  [cur] is the piece being read,
    reversed; [skip] counts the characters of a matched separator that are
    still to be passed over. *)
Fixpoint splitFrom (sep s cur : string) (skip : nat) : list string :=
  match s with
  | EmptyString => [revString cur EmptyString]
  | String c r =>
      match skip with
      | S k => splitFrom sep r cur k
      | O =>
          if prefix sep s
          then revString cur EmptyString
                 :: splitFrom sep r EmptyString (String.length sep - 1)
          else splitFrom sep r (String c cur) 0
      end
  end.

Fixpoint chars (s : string) : list string :=
  match s with
  | EmptyString => []
  | String c r => String c EmptyString :: chars r
  end.

Definition split (sep s : string) : list string :=
  match sep with
  | EmptyString => chars s
  | _ => splitFrom sep s EmptyString 0
  end.

(** [a.join(sep)] *)
Definition join (sep : string) (l : list string) : string :=
  String.concat sep l.

Definition isSpaceChar (c : ascii) : bool :=
  let n := nat_of_ascii c in ((9 <=? n) && (n <=? 13)) || (n =? 32).

Fixpoint trimStart (s : string) : string :=
  match s with
  | EmptyString => EmptyString
  | String c r => if isSpaceChar c then trimStart r else s
  end.

(** [s.trim()] on ASCII text, whose white space is the characters 9 to 13
    and 32. *)
Definition trim (s : string) : string :=
  revString (trimStart (revString (trimStart s) EmptyString)) EmptyString.

(** [a.includes(x)] on an array of strings *)
Definition includes (l : list string) (x : string) : bool :=
  existsb (String.eqb x) l.

(** [a.map((x, index) => f x index)] *)
Fixpoint mapIndexFrom {A B} (f : A -> nat -> B) (i : nat) (l : list A)
  : list B :=
  match l with
  | [] => []
  | x :: r => f x i :: mapIndexFrom f (S i) r
  end.

Definition mapIndex {A B} (f : A -> nat -> B) (l : list A) : list B :=
  mapIndexFrom f 0 l.
End JsString.
Import JsString.

(* ------------------------------------------------------------------ *)
(** * Settings and the sizing policy *)

Inductive Spacing := compact | normal | comfortable | loose.

Inductive Casing := as_is | uppercase | lowercase | title_case.

Record SpacingConfig := mkSpacing {
  padding : Q;
  margin : Q;
  startRadius : Q;
  spiralStep : Q
}.

Definition SPACING_CONFIG (s : Spacing) : SpacingConfig :=
  match s with
  | compact => mkSpacing 3 5 1 1.5
  | normal => mkSpacing 12 12 5 4
  | comfortable => mkSpacing 22 18 12 7
  | loose => mkSpacing 35 25 20 10
  end.

Definition getAutoSpacingName (wordCount : Z) (isMobile : bool) : Spacing :=
  if isMobile then
    if wordCount <=? 10 then comfortable
    else if wordCount <=? 20 then normal
    else compact
  else
    if wordCount <=? 10 then loose
    else if wordCount <=? 20 then comfortable
    else if wordCount <=? 40 then normal
    else compact.

Definition getAutoSpacing (wordCount : Z) (isMobile : bool) : SpacingConfig :=
  SPACING_CONFIG (getAutoSpacingName wordCount isMobile).

Record FontRange := mkRange { min : Z; max : Z }.

Definition getAutoFontSizes (wordCount : Z) (isMobile : bool) : FontRange :=
  if isMobile then
    if wordCount <=? 10 then mkRange 14 32
    else if wordCount <=? 20 then mkRange 12 26
    else if wordCount <=? 40 then mkRange 10 20
    else if wordCount <=? 70 then mkRange 9 16
    else mkRange 8 14
  else
    if wordCount <=? 10 then mkRange 20 56
    else if wordCount <=? 20 then mkRange 16 40
    else if wordCount <=? 40 then mkRange 14 32
    else if wordCount <=? 70 then mkRange 12 28
    else mkRange 10 22.

(* ------------------------------------------------------------------ *)
(** * Casing *)

Definition smallWords : list string :=
  ["a"; "an"; "and"; "as"; "at"; "but"; "by"; "for"; "in"; "of"; "on"; "or";
   "the"; "to"; "with"]%string.

Definition capitalizeFirst (word : string) : string :=
  (toUpperCase (charAt0 word) ++ slice1 word)%string.

Definition titleWord (n : nat) (word : string) (index : nat) : string :=
  if (index =? 0)%nat || (index =? n - 1)%nat || negb (includes smallWords word)
  then capitalizeFirst word
  else word.

Definition applyCasing (text : string) (casing : Casing) : string :=
  match casing with
  | uppercase => toUpperCase text
  | lowercase => toLowerCase text
  | title_case =>
      let words := split " " (toLowerCase text) in
      if (List.length words =? 1)%nat
      then (toUpperCase (charAt0 text) ++ toLowerCase (slice1 text))%string
      else join " " (mapIndex (titleWord (List.length words)) words)
  | as_is => text
  end.

(* ------------------------------------------------------------------ *)
(** * Numbers *)

Local Open Scope Q_scope.

Definition Qltb (x y : Q) : bool := negb (Qle_bool y x).
Definition Qgtb (x y : Q) : bool := Qltb y x.
Definition Qgeb (x y : Q) : bool := Qle_bool y x.

(** [Math.max(a, b)] *)
Definition Math_max (a b : Q) : Q := if Qle_bool a b then b else a.

(** [Math.min(a, b)] *)
Definition Math_min (a b : Q) : Q := if Qle_bool a b then a else b.

(** [Math.PI], the double nearest to pi. *)
Definition Math_PI : Q := 884279719003555 # 281474976710656.

(** [Math.abs(rotation) === 90] *)
Definition isQuarterTurn (rotation : Q) : bool := Qeq_bool (Qabs rotation) 90.

(* ------------------------------------------------------------------ *)
(** * Rectangles and the overlap test *)

Record PlacedRect := mkRect {
  centerX : Q;
  centerY : Q;
  width : Q;
  height : Q;
  rotation : Q
}.

Record WordData := mkWord {
  wd_width : Q;
  wd_height : Q;
  wd_fontSize : Z;
  wd_color : string;
  wd_rotation : Q;
  wd_word : string;
  wd_isCentered : bool
}.

(** The [[w, h] = [h, w]] swap of a footprint turned by a quarter turn. *)
Definition swapIfTurned (rot w h : Q) : Q * Q :=
  if isQuarterTurn rot then (h, w) else (w, h).

Definition checkOverlap (padding : Q) (rect1 rect2 : PlacedRect) : bool :=
  let '(w1, h1) := swapIfTurned (rotation rect1) (width rect1) (height rect1) in
  let '(w2, h2) := swapIfTurned (rotation rect2) (width rect2) (height rect2) in
  let left1 := centerX rect1 - w1 / 2 - padding in
  let right1 := centerX rect1 + w1 / 2 + padding in
  let top1 := centerY rect1 - h1 / 2 - padding in
  let bottom1 := centerY rect1 + h1 / 2 + padding in
  let left2 := centerX rect2 - w2 / 2 - padding in
  let right2 := centerX rect2 + w2 / 2 + padding in
  let top2 := centerY rect2 - h2 / 2 - padding in
  let bottom2 := centerY rect2 + h2 / 2 + padding in
  negb (Qltb right1 left2 || Qgtb left1 right2
        || Qltb bottom1 top2 || Qgtb top1 bottom2).

(* ------------------------------------------------------------------ *)
(** * The host *)

Record Host := mkHost {
  (** value returned by the [k]-th call of [Math.random()] *)
  Math_random : nat -> Q;
  Math_cos : Q -> Q;
  Math_sin : Q -> Q;
  (** [a.sort(() => Math.random() - 0.5)]: the engine's sort under a random
      comparator, started at a given position in the stream of random draws;
      the result and the position it leaves the stream at. *)
  sortRandomly : list string -> nat -> list string * nat;
  (** [canvas.getContext("2d")], as the width [measureText(word)] reports
      under the font [bold <size>px <family>]; [None] when there is no
      context. *)
  getContext : option (Z -> string -> string -> Q);
  offsetWidth : Q;
  (** [window.innerWidth], [None] when [window] is undefined *)
  innerWidth : option Q;
  isConnected : bool;
  computedFontFamily : string
}.

(** What the code takes for granted of its host: [Math.random()] is in
    [0, 1), and sorting an array rearranges it. *)
Definition host_ok (h : Host) : Prop :=
  (forall k, 0 <= Math_random h k /\ Math_random h k < 1) /\
  (forall l n, Permutation (fst (sortRandomly h l n)) l).

Record WordCloudSettings := mkSettings {
  minFontSize : Z;
  maxFontSize : Z;
  colorPalette : list string;
  separator : string;
  spacing : Spacing;
  autoFontSize : bool;
  autoSpacing : bool;
  casing : Casing
}.

Definition DEFAULT_SETTINGS : WordCloudSettings :=
  mkSettings 12 48
    ["#0066cc"; "#cc6600"; "#cc0066"; "#6600cc"; "#00cc66"]%string
    "," normal true true as_is.

(** [a || b] on strings: the empty string is falsy. *)
Definition orElse (a b : string) : string :=
  match a with EmptyString => b | _ => a end.

(* ------------------------------------------------------------------ *)
(** * Random draws: a state monad over the position in the stream *)

Definition Rand (A : Type) : Type := nat -> A * nat.

Definition ret {A} (a : A) : Rand A := fun n => (a, n).

Definition bind {A B} (m : Rand A) (f : A -> Rand B) : Rand B :=
  fun n => let (a, n') := m n in f a n'.

Notation "x <- m ;; k" := (bind m (fun x => k))
  (at level 61, m at next level, right associativity).

Definition random (h : Host) : Rand Q := fun n => (Math_random h n, S n).

Fixpoint forEach {A B} (f : A -> Rand B) (l : list A) : Rand (list B) :=
  match l with
  | [] => ret []
  | x :: r => y <- f x ;; ys <- forEach f r ;; ret (y :: ys)
  end.

(** [a[Math.floor(Math.random() * a.length)]] *)
Definition randomIndex (h : Host) (len : nat) : Rand nat :=
  r <- random h ;;
  ret (Z.to_nat (Qfloor (r * inject_Z (Z.of_nat len)))).

(* ------------------------------------------------------------------ *)
(** * renderWordCloud: tokens and the parameters of a cloud *)

Definition tokenize (settings : WordCloudSettings) (source : string)
  : list string :=
  let sep := orElse (separator settings) "," in
  let rawWords :=
    filter (fun w => (0 <? String.length w)%nat)
      (map trim (split sep source)) in
  map (fun word => applyCasing word (casing settings)) rawWords.

(** The variables of [renderWordCloud] that [renderWords] closes over. *)
Record Cloud := mkCloud {
  words : list string;
  colors : list string;
  containerWidth : Q;
  containerHeight : Q;
  cloudMin : Z;
  cloudMax : Z;
  spacingConfig : SpacingConfig
}.

Definition getContainerWidth (h : Host) : Q :=
  if Qgtb (offsetWidth h) 0 then offsetWidth h
  else match innerWidth h with
       | Some iw => Math_min (iw - 40) 700
       | None => 700
       end.

Inductive Rendering :=
| Placeholder (text : string)
| Scheduled (c : Cloud).

Definition renderWordCloud (h : Host) (settings : WordCloudSettings)
  (source : string) : Rendering :=
  let sep := orElse (separator settings) "," in
  let ws := tokenize settings source in
  if (List.length ws =? 0)%nat then
    Placeholder ("No words provided. Add " ++ sep ++ "-separated words.")%string
  else
    let cols :=
      if (0 <? List.length (colorPalette settings))%nat
      then colorPalette settings
      else colorPalette DEFAULT_SETTINGS in
    let cw := getContainerWidth h in
    let isMobile := Qltb cw 500 in
    let wordCount := Z.of_nat (List.length ws) in
    let range :=
      if autoFontSize settings then getAutoFontSizes wordCount isMobile
      else mkRange (minFontSize settings) (maxFontSize settings) in
    let sp :=
      if autoSpacing settings then getAutoSpacing wordCount isMobile
      else SPACING_CONFIG (spacing settings) in
    let ch := if isMobile then 400 else 500 in
    Scheduled (mkCloud ws cols cw ch (min range) (max range) sp).

(* ------------------------------------------------------------------ *)
(** * renderWords: one layout pass *)

(** A string used as a condition: [null] and the empty string are falsy. *)
Definition focusOf (centeredWord : option string) : option string :=
  match centeredWord with
  | Some EmptyString => None
  | other => other
  end.

(** [centeredWord === word] *)
Definition strictEq (centeredWord : option string) (word : string) : bool :=
  match centeredWord with
  | Some cword => String.eqb cword word
  | None => false
  end.

(** [Math.floor((maxFontSize + minFontSize) / 2 + 10)] *)
Definition centeredFontSize (minF maxF : Z) : Z :=
  Qfloor ((inject_Z maxF + inject_Z minF) / 2 + 10).

(** [Math.floor(r * (maxFontSize - minFontSize + 1)) + minFontSize] *)
Definition randomFontSize (minF maxF : Z) (r : Q) : Z :=
  (Qfloor (r * inject_Z (maxF - minF + 1)) + minF)%Z.

Definition maxAttempts : Z := 20000.
Definition angleStep : Q := 0.08.

(** The state of the spiral search of one label.  [placed] holds the
    position given to the tag: [None] is the source's [placed = false]. *)
Record Spiral := mkSpiral {
  placed : option PlacedRect;
  placedElements : list PlacedRect;
  spiralRadius : Q;
  angle : Q;
  attempts : Z
}.

Definition LayoutResult : Type := list (WordData * option PlacedRect).

Record Pass := mkPass {
  tempElements : list WordData;
  layout : LayoutResult;
  finalPlaced : list PlacedRect;
  draws : nat
}.

Section RenderWords.
Variable h : Host.
Variable c : Cloud.

Definition shuffleWords (centeredWord : option string)
  : Rand (list string) :=
  match focusOf centeredWord with
  | Some cword =>
      let otherWords :=
        filter (fun w => negb (String.eqb w cword)) (words c) in
      fun n => let (s, n') := sortRandomly h otherWords n in (cword :: s, n')
  | None => sortRandomly h (words c)
  end.

Definition fontFamily : string :=
  if isConnected h then orElse (computedFontFamily h) "Arial, sans-serif"
  else "Arial, sans-serif"%string.

(** The measured width: [Math.ceil(metrics.width) + 8] with a canvas
    context, [Math.ceil(word.length * fontSize * 0.6) + 8] without. *)
Definition measureWidth (fontSize : Z) (word : string) : Q :=
  match getContext h with
  | Some measureText =>
      inject_Z (Qceiling (measureText fontSize fontFamily word)) + 8
  | None =>
      inject_Z (Qceiling (inject_Z (Z.of_nat (String.length word))
                          * inject_Z fontSize * 0.6)) + 8
  end.

(** The body of [shuffledWords.forEach]; both copies of the loop in the
    source differ in the measurement only.  The two array reads are within
    range for a draw in [0, 1) (see [host_ok]); the default of [nth] stands
    for the [undefined] the source would read otherwise. *)
Definition makeLabel (centeredWord : option string) (word : string)
  : Rand WordData :=
  let isCentered := strictEq centeredWord word in
  fontSize <- (if isCentered
               then ret (centeredFontSize (cloudMin c) (cloudMax c))
               else r <- random h ;;
                    ret (randomFontSize (cloudMin c) (cloudMax c) r)) ;;
  ci <- randomIndex h (List.length (colors c)) ;;
  let color := nth ci (colors c) EmptyString in
  let rotations := if isCentered then [0] else [0; 0; 0; 0; 90; -90] in
  ri <- randomIndex h (List.length rotations) ;;
  let rotation := nth ri rotations 0 in
  let width := measureWidth fontSize word in
  let height := inject_Z fontSize + 8 in
  ret (mkWord width height fontSize color rotation word isCentered).

(** [tempElements.sort((a, b) => b.width * b.height - a.width * a.height)],
    a stable sort by descending area. *)
Definition area (a : WordData) : Q := wd_width a * wd_height a.

Fixpoint insertByArea (a : WordData) (l : list WordData) : list WordData :=
  match l with
  | [] => [a]
  | b :: r =>
      if Qgtb (area b - area a) 0 then b :: insertByArea a r
      else a :: b :: r
  end.

Definition sortByArea (l : list WordData) : list WordData :=
  fold_right insertByArea [] l.

Definition centerOfX : Q := containerWidth c / 2.
Definition centerOfY : Q := containerHeight c / 2.
Definition maxRadius : Q :=
  Math_max (containerWidth c) (containerHeight c) * 2.

(** The rectangle pushed for the centred word. *)
Definition centeredRect (temp : WordData) : PlacedRect :=
  mkRect centerOfX centerOfY (wd_width temp * 1.5) (wd_height temp * 1.5)
    (wd_rotation temp).

(** The guard of the [while] loop. *)
Definition searching (st : Spiral) : bool :=
  match placed st with
  | Some _ => false
  | None => Qltb (spiralRadius st) maxRadius
            && (attempts st <? maxAttempts)%Z
  end.

Definition inBounds (left right top bottom : Q) : bool :=
  let margin := margin (spacingConfig c) in
  Qgeb left margin && Qle_bool right (containerWidth c - margin)
  && Qgeb top margin && Qle_bool bottom (containerHeight c - margin).

(** The body of the [while] loop. *)
Definition spiralBody (temp : WordData) (st : Spiral) : Spiral :=
  let tagWidth := wd_width temp in
  let tagHeight := wd_height temp in
  let rotation := wd_rotation temp in
  let testCenterX := centerOfX + spiralRadius st * Math_cos h (angle st) in
  let testCenterY := centerOfY + spiralRadius st * Math_sin h (angle st) in
  let '(neededWidth, neededHeight) :=
    swapIfTurned rotation tagWidth tagHeight in
  let left := testCenterX - neededWidth / 2 in
  let right := testCenterX + neededWidth / 2 in
  let top := testCenterY - neededHeight / 2 in
  let bottom := testCenterY + neededHeight / 2 in
  let testRect := mkRect testCenterX testCenterY tagWidth tagHeight rotation in
  let accept :=
    inBounds left right top bottom
    && negb (existsb (checkOverlap (padding (spacingConfig c)) testRect)
               (placedElements st)) in
  mkSpiral
    (if accept then Some testRect else placed st)
    (if accept then placedElements st ++ [testRect] else placedElements st)
    (spiralRadius st + spiralStep (spacingConfig c)
                       * (angleStep / (2 * Math_PI)))
    (angle st + angleStep)
    (attempts st + 1)%Z.

(** The [while] loop, run for at most [fuel] iterations; [None] when the
    guard still holds after them. *)
Fixpoint spiralLoop (fuel : nat) (temp : WordData) (st : Spiral)
  : option Spiral :=
  if searching st then
    match fuel with
    | O => None
    | S f => spiralLoop f temp (spiralBody temp st)
    end
  else Some st.

Definition spiralStart (placedSoFar : list PlacedRect) (r : Q) : Spiral :=
  mkSpiral None placedSoFar 120 (r * Math_PI * 2) 0.

(** The body of [tempElements.forEach] in [positionWords]: the rectangle of
    the tag when it stays in the container, the grown [placedElements], and
    the position in the random stream. *)
Definition positionOne (fuel : nat) (temp : WordData)
  (placedSoFar : list PlacedRect) (n : nat)
  : option (option PlacedRect * list PlacedRect * nat) :=
  if wd_isCentered temp then
    let r := centeredRect temp in
    Some (Some r, placedSoFar ++ [r], n)
  else
    let (r, n') := random h n in
    match spiralLoop fuel temp (spiralStart placedSoFar r) with
    | Some st => Some (placed st, placedElements st, n')
    | None => None
    end.

Fixpoint positionAll (fuel : nat) (temps : list WordData)
  (placedSoFar : list PlacedRect) (n : nat)
  : option (LayoutResult * list PlacedRect * nat) :=
  match temps with
  | [] => Some ([], placedSoFar, n)
  | temp :: rest =>
      match positionOne fuel temp placedSoFar n with
      | None => None
      | Some (tag, placed1, n1) =>
          match positionAll fuel rest placed1 n1 with
          | None => None
          | Some (res, placed2, n2) => Some ((temp, tag) :: res, placed2, n2)
          end
      end
  end.

(** The labels in the order [positionWords] takes them: sorted by area
    unless there is a centred word. *)
Definition processingOrder (centeredWord : option string)
  (temps : list WordData) : list WordData :=
  match focusOf centeredWord with
  | Some _ => temps
  | None => sortByArea temps
  end.

Definition positionWords (fuel : nat) (centeredWord : option string)
  (temps : list WordData) (n : nat)
  : option (LayoutResult * list PlacedRect * nat) :=
  positionAll fuel (processingOrder centeredWord temps) [] n.

(** Labels of a pass, in the order of [shuffledWords]. *)
Definition makeLabels (centeredWord : option string)
  : Rand (list WordData) :=
  shuffled <- shuffleWords centeredWord ;;
  forEach (makeLabel centeredWord) shuffled.

(** [renderWords], with [fuel] iterations for the loop of each label.
    Without a canvas context the source makes the labels and returns
    (lines 294-327) before [const positionWords] (line 370) is initialised,
    so that the call of [positionWords()] from the timer throws and no label
    is positioned: there is no pass, [None].  With a context, [None] is the
    loop of a label cut short by [fuel]. *)
Definition renderWordsWith (fuel : nat) (centeredWord : option string)
  (n : nat) : option Pass :=
  let (temps, n1) := makeLabels centeredWord n in
  match getContext h with
  | None => None
  | Some _ =>
      match positionWords fuel centeredWord temps n1 with
      | Some (res, placedAll, n2) => Some (mkPass temps res placedAll n2)
      | None => None
      end
  end.

(** A pass; the loop of each label is given [maxAttempts] iterations, which
    [spiralLoop_run] shows is all it can use. *)
Definition renderWords (centeredWord : option string) (n : nat)
  : option Pass :=
  renderWordsWith (Z.to_nat maxAttempts) centeredWord n.

(** The timer callback of [renderWordCloud]: focus a random word. *)
Definition initialPass (n : nat) : option Pass :=
  let (i, n1) := randomIndex h (List.length (words c)) n in
  renderWords (nth_error (words c) i) n1.
End RenderWords.

(** The container's children after a pass. *)
Inductive Element :=
| ParagraphEl (text : string)
| SpanEl (label : WordData) (rect : PlacedRect).

Definition spansOf (res : LayoutResult) : list Element :=
  flat_map (fun e => match snd e with
                     | Some r => [SpanEl (fst e) r]
                     | None => []
                     end) res.

(** [renderWordCloud] followed by its timer callback.  Without a canvas
    context [renderWords] empties the container (line 235) and nothing is
    added to it, since the call of [positionWords] throws. *)
Definition renderCloud (h : Host) (settings : WordCloudSettings)
  (source : string) (n : nat) : option (list Element) :=
  match renderWordCloud h settings source with
  | Placeholder text => Some [ParagraphEl text]
  | Scheduled c =>
      match getContext h with
      | None => Some []
      | Some _ =>
          match initialPass h c n with
          | Some p => Some (spansOf (layout p))
          | None => None
          end
      end
  end.

(* ------------------------------------------------------------------ *)
(** * Phrases, for the statements about title case *)

(** A token of a phrase: a string without a space. *)
Fixpoint noSpace (s : string) : bool :=
  match s with
  | EmptyString => true
  | String ch r => negb (Ascii.eqb ch " ") && noSpace r
  end.

Fixpoint noUpper (s : string) : bool :=
  match s with
  | EmptyString => true
  | String ch r => negb (isUpperChar ch) && noUpper r
  end.

(** A title-cased token: no lower-case letter in front, no upper-case letter
    after it. *)
Definition isTitleCased (s : string) : bool :=
  match s with
  | EmptyString => true
  | String ch r => negb (isLowerChar ch) && noUpper r
  end.

Definition isSmallWord (s : string) : bool :=
  includes smallWords (toLowerCase s).

(** A token with its letters in lower case, but for the first, in upper
    case. *)
Definition capitalized (s : string) : string :=
  match toLowerCase s with
  | EmptyString => EmptyString
  | String ch r => String (upperChar ch) r
  end.

(** What title case makes of the token at [index] of a phrase of [n]
    tokens. *)
Definition titleToken (n : nat) (token : string) (index : nat) : string :=
  if (index =? 0)%nat || (index =? n - 1)%nat || negb (isSmallWord token)
  then capitalized token
  else toLowerCase token.

(* ------------------------------------------------------------------ *)
(** * Vocabulary for the statements about a pass *)

(** The state of a search after [k] turns of the loop body. *)
Fixpoint spiralRun (h : Host) (c : Cloud) (k : nat) (temp : WordData)
  (st : Spiral) : Spiral :=
  match k with
  | O => st
  | S k' => spiralRun h c k' temp (spiralBody h c temp st)
  end.

(** The footprint of a rectangle, turned when its rotation is a quarter
    turn, lies between the margins of the surface. *)
Definition withinMargins (c : Cloud) (r : PlacedRect) : Prop :=
  let '(w, hh) := swapIfTurned (rotation r) (width r) (height r) in
  margin (spacingConfig c) <= centerX r - w / 2 /\
  centerX r + w / 2 <= containerWidth c - margin (spacingConfig c) /\
  margin (spacingConfig c) <= centerY r - hh / 2 /\
  centerY r + hh / 2 <= containerHeight c - margin (spacingConfig c).

(** The point (x, y) lies in the footprint of [r] grown by [e] on each
    side. *)
Definition inFootprint (e : Q) (r : PlacedRect) (x y : Q) : Prop :=
  let '(w, hh) := swapIfTurned (rotation r) (width r) (height r) in
  centerX r - w / 2 - e <= x /\ x <= centerX r + w / 2 + e /\
  centerY r - hh / 2 - e <= y /\ y <= centerY r + hh / 2 + e.

(** What the search of [temp] accepted, against the rectangles placed
    before it. *)
Definition accepted (c : Cloud) (temp : WordData) (base : list PlacedRect)
  (r : PlacedRect) : Prop :=
  width r = wd_width temp /\ height r = wd_height temp /\
  rotation r = wd_rotation temp /\
  withinMargins c r /\
  Forall (fun q => checkOverlap (padding (spacingConfig c)) r q = false) base.

Definition tagList (tag : option PlacedRect) : list PlacedRect :=
  match tag with
  | Some r => [r]
  | None => []
  end.

(** The rectangles of a layout, in the order they were placed. *)
Definition placedOf (res : LayoutResult) : list PlacedRect :=
  flat_map (fun e => tagList (snd e)) res.

Definition stepOk (c : Cloud) (temp : WordData) (base : list PlacedRect)
  (tag : option PlacedRect) : Prop :=
  match tag with
  | None => wd_isCentered temp = false
  | Some r =>
      if wd_isCentered temp then r = centeredRect c temp
      else accepted c temp base r
  end.

(** Every entry of a layout is the outcome of its label against the
    rectangles placed before it. *)
Fixpoint layoutOk (c : Cloud) (base : list PlacedRect) (res : LayoutResult)
  : Prop :=
  match res with
  | [] => True
  | e :: rest =>
      stepOk c (fst e) base (snd e) /\
      layoutOk c (base ++ tagList (snd e)) rest
  end.

(** Each rectangle of the list passed the overlap test against those
    before it. *)
Definition separated (pad : Q) (l : list PlacedRect) : Prop :=
  ForallOrdPairs (fun a b => checkOverlap pad b a = false) l.

(* ------------------------------------------------------------------ *)
(** * A host and inputs to run the model on *)

(** Quarter of the circle an angle falls in. *)
Definition quadrant (a : Q) : Z := (Qfloor (a * 2 / Math_PI) mod 4)%Z.

(** A host without canvas, 700 units wide, whose random draws cycle through
    0, 1/4, 1/2, 3/4, whose sort reverses, and whose cosine and sine are
    those of the nearest axis below the angle. *)
Definition demoHost : Host :=
  mkHost
    (fun k => match (k mod 4)%nat with
              | 0%nat => 0
              | 1%nat => 1 # 4
              | 2%nat => 1 # 2
              | _ => 3 # 4
              end)
    (fun a => match quadrant a with
              | 0%Z => 1
              | 2%Z => -1
              | _ => 0
              end)
    (fun a => match quadrant a with
              | 1%Z => 1
              | 3%Z => -1
              | _ => 0
              end)
    (fun l n => (rev l, (n + List.length l)%nat))
    None 700 None true EmptyString.

(** Eighth of the circle an angle falls in. *)
Definition octant (a : Q) : Z := (Qfloor (a * 4 / Math_PI) mod 8)%Z.

(** A host with a canvas, 700 units wide: [measureText] reports 11/20 of
    the font size for each character, the random draws cycle through 0, 1/8,
    ..., 7/8, the sort reverses, and cosine and sine are those of the eighth
    of a turn below the angle, to four decimals. *)
Definition canvasHost : Host :=
  mkHost
    (fun k => Z.of_nat (k mod 8) # 8)
    (fun a => match octant a with
              | 0%Z => 1
              | 1%Z | 7%Z => 0.7071
              | 3%Z | 5%Z => - 0.7071
              | 4%Z => -1
              | _ => 0
              end)
    (fun a => match octant a with
              | 1%Z | 3%Z => 0.7071
              | 2%Z => 1
              | 5%Z | 7%Z => - 0.7071
              | 6%Z => -1
              | _ => 0
              end)
    (fun l n => (rev l, (n + List.length l)%nat))
    (Some (fun fontSize _ word =>
             inject_Z (Z.of_nat (String.length word) * fontSize) * (11 # 20)))
    700 None true EmptyString.

(** Manual sizes 10..12 and compact spacing. *)
Definition demoSettings : WordCloudSettings :=
  mkSettings 10 12 ["#0066cc"]%string "," compact false false as_is.

Definition demoSource : string := "hi, a, b, c, hi".

Definition demoCloud : Cloud :=
  mkCloud ["hi"; "a"; "b"; "c"; "hi"]%string ["#0066cc"]%string
    700 500 10 12 (SPACING_CONFIG compact).



Definition twiceCloud : Cloud :=
  mkCloud ["a"; "a"; "b"]%string (colorPalette DEFAULT_SETTINGS)
    700 500 20 56 (SPACING_CONFIG loose).

(* ------------------------------------------------------------------ *)
(** * Buckets of the sizing policy *)

(** The five word-count buckets of the specification: up to 10, up to 20,
    up to 40, up to 70, and above. *)
Definition sizeBucket (wordCount : Z) : nat :=
  if (wordCount <=? 10)%Z then 0
  else if (wordCount <=? 20)%Z then 1
  else if (wordCount <=? 40)%Z then 2
  else if (wordCount <=? 70)%Z then 3
  else 4.

(** The buckets the spacing function has: four on a wide viewport (41 and
    above share one), three on a compact one (21 and above share one). *)
Definition spacingBucket (wordCount : Z) (isMobile : bool) : nat :=
  if isMobile then Nat.min (sizeBucket wordCount) 2
  else Nat.min (sizeBucket wordCount) 3.

Definition fitsWithin (a b : SpacingConfig) : Prop :=
  padding a <= padding b /\ margin a <= margin b /\
  startRadius a <= startRadius b /\ spiralStep a <= spiralStep b.

(* ------------------------------------------------------------------ *)
(** * More vocabulary on strings *)

(** The string holds no occurrence of the character. *)
Fixpoint noChar (ch : ascii) (s : string) : bool :=
  match s with
  | EmptyString => true
  | String x r => negb (Ascii.eqb x ch) && noChar ch r
  end.

(** The pieces [tokenize] keeps: trimmed, and not empty. *)
Definition keptPieces (pieces : list string) : list string :=
  filter (fun w => (0 <? String.length w)%nat) (map trim pieces).

(* ------------------------------------------------------------------ *)
(** * More vocabulary on the geometry of a pass *)

(** The host's cosine and sine are, within a thousandth on the sum of
    their squares, those of a point of the unit circle. *)
Definition trig_close (h : Host) : Prop :=
  forall a,
    999 # 1000
      <= Math_cos h a * Math_cos h a + Math_sin h a * Math_sin h a /\
    Math_cos h a * Math_cos h a + Math_sin h a * Math_sin h a
      <= 1001 # 1000.

(** Square of the distance from the centre of a rectangle to the centre of
    the surface. *)
Definition sqDistanceToCenter (c : Cloud) (r : PlacedRect) : Q :=
  (centerX r - containerWidth c / 2) * (centerX r - containerWidth c / 2)
  + (centerY r - containerHeight c / 2) * (centerY r - containerHeight c / 2).

(** The radius gained at each turn of the loop. *)
Definition radiusStep (c : Cloud) : Q :=
  spiralStep (spacingConfig c) * (angleStep / (2 * Math_PI)).


(** The passes a user can reach: the first one, and the one started by a
    click on a label that a reached pass has placed. *)
Inductive reachable (h : Host) (c : Cloud) : Pass -> Prop :=
| reach_initial (n : nat) (p : Pass) :
    initialPass h c n = Some p -> reachable h c p
| reach_click (p : Pass) (lbl : WordData) (r : PlacedRect) (n : nat)
    (p' : Pass) :
    reachable h c p ->
    In (lbl, Some r) (layout p) ->
    renderWords h c (Some (wd_word lbl)) n = Some p' ->
    reachable h c p'.

(* ------------------------------------------------------------------ *)
(** * WordCloudModal.onOpen: the name of the separator *)

Definition quoteMark : string := String "034"%char EmptyString.

Definition separatorName (separator : string) : string :=
  if String.eqb separator "," then "comma"%string
  else if String.eqb separator "." then "period"%string
  else if String.eqb separator " " then "space"%string
  else (quoteMark ++ separator ++ quoteMark)%string.

Definition modalHelperText (settings : WordCloudSettings) : string :=
  ("Enter words separated by "
   ++ separatorName (orElse (separator settings) ","))%string.

Definition modalPlaceholder (settings : WordCloudSettings) : string :=
  ("Enter " ++ separatorName (orElse (separator settings) ",")
   ++ "-separated words...")%string.

(* ------------------------------------------------------------------ *)
(** * Numbers as text: [parseInt], [String(n)], [n.toString(16)] *)

(** The value of a character as a digit, letters counting from ten. *)
Definition digitValue (ch : ascii) : option Z :=
  let n := Z.of_nat (nat_of_ascii ch) in
  if (48 <=? n)%Z && (n <=? 57)%Z then Some (n - 48)%Z
  else if (97 <=? n)%Z && (n <=? 122)%Z then Some (n - 87)%Z
  else if (65 <=? n)%Z && (n <=? 90)%Z then Some (n - 55)%Z
  else None.

(** The digit of a value below 36, letters in lower case. *)
Definition digitChar (d : Z) : ascii :=
  if (d <? 10)%Z then ascii_of_nat (Z.to_nat (48 + d))
  else ascii_of_nat (Z.to_nat (87 + d)).

(** The value of the longest prefix of [s] made of digits of the radix,
    read after the digits already in [acc]; [None] is no digit at all. *)
Fixpoint parseDigits (radix : Z) (s : string) (acc : option Z) : option Z :=
  match s with
  | EmptyString => acc
  | String ch r =>
      match digitValue ch with
      | Some d =>
          if (d <? radix)%Z
          then parseDigits radix r
                 (Some (match acc with
                        | Some a => a * radix + d
                        | None => d
                        end)%Z)
          else acc
      | None => acc
      end
  end.

(** What the digits read so far amount to. *)
Definition accValue (acc : option Z) : Z :=
  match acc with
  | Some a => a
  | None => 0%Z
  end.

(** [parseInt(s)], without a radix argument; [None] is [NaN].  The result
    is the exact value of the digits, which is the number the source gets
    when that value is below 2^53 (beyond, the source's number is the
    nearest double); a text of at most 15 characters is within that
    bound. *)
Definition parseInt (s : string) : option Z :=
  let s1 := trimStart s in
  let '(sign, s2) :=
    match s1 with
    | String "-" r => ((-1)%Z, r)
    | String "+" r => (1%Z, r)
    | _ => (1%Z, s1)
    end in
  let '(radix, s3) :=
    match s2 with
    | String "0" (String "x" r) => (16%Z, r)
    | String "0" (String "X" r) => (16%Z, r)
    | _ => (10%Z, s2)
    end in
  option_map (Z.mul sign) (parseDigits radix s3 None).

(** The digits of [n] in the radix, put before [acc]; [fuel] bounds the
    digits after the first. *)
Fixpoint digitsFrom (fuel : nat) (radix n : Z) (acc : string) : string :=
  let acc' := String (digitChar (n mod radix)) acc in
  match fuel with
  | O => acc'
  | S f => if (n <? radix)%Z then acc'
           else digitsFrom f radix (n / radix) acc'
  end.

(** [n.toString(radix)] for an integer [n >= 0]. *)
Definition toStringRadix (radix n : Z) : string :=
  digitsFrom (Z.to_nat (Z.log2 n)) radix n EmptyString.

(** [String(n)] for an integer [n] with [|n| < 10^21]. *)
Definition numberToString (n : Z) : string :=
  if (n <? 0)%Z then String "-" (toStringRadix 10 (- n))
  else toStringRadix 10 n.

(** [tag.dataset.rotation = String(rotation)], and what the hover handlers
    read back from it: [parseInt(tag.dataset.rotation || "0")]. *)
Definition datasetRotation (rotation : Z) : string :=
  numberToString rotation.

Definition hoverRotation (dataset : string) : option Z :=
  parseInt (orElse dataset "0").

Fixpoint repeatChar (ch : ascii) (k : nat) : string :=
  match k with
  | O => EmptyString
  | S k' => String ch (repeatChar ch k')
  end.

(** [s.padStart(len, ch)] for a one-character filler. *)
Definition padStart (len : nat) (ch : ascii) (s : string) : string :=
  (repeatChar ch (len - String.length s) ++ s)%string.

(* ------------------------------------------------------------------ *)
(** * WordCloudSettingTab: what the controls do to the settings *)

(** The colour of the [Add color] button, from the whole number
    [value = Math.floor(Math.random() * 16777215)]; the product is the
    host's, rounded, and for a draw in [0, 1) its floor is one of 0 ..
    16777214. *)
Definition randomColor (value : Z) : string :=
  ("#" ++ padStart 6 "0" (toStringRadix 16 value))%string.

Inductive SeparatorOption := Comma | Period | Space | Semicolon | Pipe.

Definition separatorOf (o : SeparatorOption) : string :=
  match o with
  | Comma => ","
  | Period => "."
  | Space => " "
  | Semicolon => ";"
  | Pipe => "|"
  end.

Definition withSeparator (s : WordCloudSettings) (v : string)
  : WordCloudSettings :=
  mkSettings (minFontSize s) (maxFontSize s) (colorPalette s) v (spacing s)
    (autoFontSize s) (autoSpacing s) (casing s).

Definition withCasing (s : WordCloudSettings) (v : Casing)
  : WordCloudSettings :=
  mkSettings (minFontSize s) (maxFontSize s) (colorPalette s) (separator s)
    (spacing s) (autoFontSize s) (autoSpacing s) v.

Definition withAutoFontSize (s : WordCloudSettings) (v : bool)
  : WordCloudSettings :=
  mkSettings (minFontSize s) (maxFontSize s) (colorPalette s) (separator s)
    (spacing s) v (autoSpacing s) (casing s).

Definition withAutoSpacing (s : WordCloudSettings) (v : bool)
  : WordCloudSettings :=
  mkSettings (minFontSize s) (maxFontSize s) (colorPalette s) (separator s)
    (spacing s) (autoFontSize s) v (casing s).

Definition withSpacing (s : WordCloudSettings) (v : Spacing)
  : WordCloudSettings :=
  mkSettings (minFontSize s) (maxFontSize s) (colorPalette s) (separator s)
    v (autoFontSize s) (autoSpacing s) (casing s).

Definition withMinFontSize (s : WordCloudSettings) (v : Z)
  : WordCloudSettings :=
  mkSettings v (maxFontSize s) (colorPalette s) (separator s) (spacing s)
    (autoFontSize s) (autoSpacing s) (casing s).

Definition withMaxFontSize (s : WordCloudSettings) (v : Z)
  : WordCloudSettings :=
  mkSettings (minFontSize s) v (colorPalette s) (separator s) (spacing s)
    (autoFontSize s) (autoSpacing s) (casing s).

Definition withColorPalette (s : WordCloudSettings) (v : list string)
  : WordCloudSettings :=
  mkSettings (minFontSize s) (maxFontSize s) v (separator s) (spacing s)
    (autoFontSize s) (autoSpacing s) (casing s).

(** The [onChange] of a font size field: the text is kept when [parseInt]
    gives a number above zero. *)
Definition acceptedSize (value : string) : option Z :=
  match parseInt value with
  | Some num => if (0 <? num)%Z then Some num else None
  | None => None
  end.

(** [a[index] = v] on an index of the array. *)
Fixpoint replaceAt {A} (index : nat) (v : A) (l : list A) : list A :=
  match l, index with
  | [], _ => []
  | _ :: r, O => v :: r
  | x :: r, S i => x :: replaceAt i v r
  end.

(** [a.splice(index, 1)] *)
Fixpoint removeAt {A} (index : nat) (l : list A) : list A :=
  match l, index with
  | [], _ => []
  | _ :: r, O => r
  | x :: r, S i => x :: removeAt i r
  end.

(** What [loadData()] resolves to: the fields that were saved; [None] for
    a field is a field that is absent. *)
Record SavedData := mkSaved {
  saved_minFontSize : option Z;
  saved_maxFontSize : option Z;
  saved_colorPalette : option (list string);
  saved_separator : option string;
  saved_spacing : option Spacing;
  saved_autoFontSize : option bool;
  saved_autoSpacing : option bool;
  saved_casing : option Casing
}.

(** The settings of the plugin, with the [colorPalette] array of the
    constant [DEFAULT_SETTINGS] as it stands.  [aliased] says that the
    palette of the settings is that very array, so that what is written to
    the one is written to the other. *)
Record Store := mkStore {
  current : WordCloudSettings;
  defaultPalette : list string;
  aliased : bool
}.

Definition fromSaved {A} (saved : option A) (default : A) : A :=
  match saved with
  | Some v => v
  | None => default
  end.

(** [Object.assign({}, DEFAULT_SETTINGS, await this.loadData())]: the
    fields are copied, the arrays they hold are not; [data = None] is a
    fresh install. *)
Definition loadSettings (data : option SavedData) : Store :=
  match data with
  | None => mkStore DEFAULT_SETTINGS (colorPalette DEFAULT_SETTINGS) true
  | Some d =>
      mkStore
        (mkSettings
           (fromSaved (saved_minFontSize d) (minFontSize DEFAULT_SETTINGS))
           (fromSaved (saved_maxFontSize d) (maxFontSize DEFAULT_SETTINGS))
           (fromSaved (saved_colorPalette d) (colorPalette DEFAULT_SETTINGS))
           (fromSaved (saved_separator d) (separator DEFAULT_SETTINGS))
           (fromSaved (saved_spacing d) (spacing DEFAULT_SETTINGS))
           (fromSaved (saved_autoFontSize d) (autoFontSize DEFAULT_SETTINGS))
           (fromSaved (saved_autoSpacing d) (autoSpacing DEFAULT_SETTINGS))
           (fromSaved (saved_casing d) (casing DEFAULT_SETTINGS)))
        (colorPalette DEFAULT_SETTINGS)
        (match saved_colorPalette d with
         | Some _ => false
         | None => true
         end)
  end.

(** A control that writes a field of the settings other than the
    palette. *)
Definition writeField (st : Store)
  (f : WordCloudSettings -> WordCloudSettings) : Store :=
  mkStore (f (current st)) (defaultPalette st) (aliased st).

(** A control that changes the palette array in place ([a[index] = v],
    [splice], [push]): an aliased array of defaults changes with it. *)
Definition editPalette (st : Store) (f : list string -> list string)
  : Store :=
  let palette := f (colorPalette (current st)) in
  mkStore (withColorPalette (current st) palette)
    (if aliased st then palette else defaultPalette st)
    (aliased st).

(** [settings.colorPalette = [...DEFAULT_SETTINGS.colorPalette]]: a copy of
    the defaults as they stand, no longer aliased. *)
Definition resetPalette (st : Store) : Store :=
  mkStore (withColorPalette (current st) (defaultPalette st))
    (defaultPalette st) false.

(** What a user can do in the tab.  The font size fields exist while auto
    font size is off, the spacing list while auto spacing is off, and a
    swatch and its remove button for each index of the palette.  [AddColor]
    carries the whole number the button draws. *)
Inductive TabAction :=
| ChooseSeparator (o : SeparatorOption)
| ChooseCasing (cs : Casing)
| ToggleAutoFontSize (v : bool)
| TypeMinFontSize (value : string)
| TypeMaxFontSize (value : string)
| ToggleAutoSpacing (v : bool)
| ChooseSpacing (sp : Spacing)
| PickColor (index : nat) (value : string)
| RemoveColor (index : nat)
| AddColor (value : Z)
| ResetPalette.

Definition applyTab (st : Store) (a : TabAction) : Store :=
  let s := current st in
  match a with
  | ChooseSeparator o =>
      writeField st (fun s => withSeparator s (separatorOf o))
  | ChooseCasing cs => writeField st (fun s => withCasing s cs)
  | ToggleAutoFontSize v => writeField st (fun s => withAutoFontSize s v)
  | TypeMinFontSize value =>
      if autoFontSize s then st
      else match acceptedSize value with
           | Some num => writeField st (fun s => withMinFontSize s num)
           | None => st
           end
  | TypeMaxFontSize value =>
      if autoFontSize s then st
      else match acceptedSize value with
           | Some num => writeField st (fun s => withMaxFontSize s num)
           | None => st
           end
  | ToggleAutoSpacing v => writeField st (fun s => withAutoSpacing s v)
  | ChooseSpacing sp =>
      if autoSpacing s then st else writeField st (fun s => withSpacing s sp)
  | PickColor index value =>
      if (index <? List.length (colorPalette s))%nat
      then editPalette st (replaceAt index value)
      else st
  | RemoveColor index =>
      if (index <? List.length (colorPalette s))%nat
      then if (1 <? List.length (colorPalette s))%nat
           then editPalette st (removeAt index)
           else st
      else st
  | AddColor value =>
      editPalette st (fun palette => palette ++ [randomColor value])
  | ResetPalette => resetPalette st
  end.

(** The actions the model follows the source on: a text typed in a font
    size field has at most 15 characters, and the number drawn by
    [Add color] is one of 0 .. 16777214. *)
Definition plausible (a : TabAction) : Prop :=
  match a with
  | TypeMinFontSize value | TypeMaxFontSize value =>
      (String.length value <= 15)%nat
  | AddColor value => (0 <= value < 16777215)%Z
  | _ => True
  end.

(** Saved data a cloud can be drawn from without any fallback. *)
Definition usableData (data : option SavedData) : Prop :=
  match data with
  | None => True
  | Some d =>
      (forall v, saved_minFontSize d = Some v -> (0 < v)%Z) /\
      (forall v, saved_maxFontSize d = Some v -> (0 < v)%Z) /\
      (forall v, saved_colorPalette d = Some v -> v <> []) /\
      (forall v, saved_separator d = Some v -> exists o, v = separatorOf o)
  end.

(** Settings a cloud can be drawn from without any fallback. *)
Definition usable (s : WordCloudSettings) : Prop :=
  (0 < minFontSize s)%Z /\ (0 < maxFontSize s)%Z /\
  colorPalette s <> [] /\
  exists o, separator s = separatorOf o.

(** What the tab maintains: usable settings, defaults that are not empty,
    and an aliased palette equal to the defaults. *)
Definition storeOk (st : Store) : Prop :=
  usable (current st) /\
  defaultPalette st <> [] /\
  (aliased st = true -> colorPalette (current st) = defaultPalette st).

Fixpoint isHexString (s : string) : bool :=
  match s with
  | EmptyString => true
  | String ch r =>
      let n := nat_of_ascii ch in
      (((48 <=? n) && (n <=? 57)) || ((97 <=? n) && (n <=? 102)))%nat
      && isHexString r
  end.

(** A source of 41 words, for a cloud in the compact bucket. *)
Definition crowdedSource : string :=
  join "," (repeat "a"%string 41).

(* ------------------------------------------------------------------ *)
(** * Tactics *)

(** Case analysis on every comparison of a word count with a threshold. *)
Ltac bucket_cases :=
  repeat match goal with
         | |- context [(?n <=? ?k)%Z] =>
             let E := fresh "E" in
             destruct (Z.leb_spec n k) as [E|E]
         | H : context [(?n <=? ?k)%Z] |- _ =>
             let E := fresh "E" in
             destruct (Z.leb_spec n k) as [E|E]
         end.

(** Linear arithmetic with halves written as divisions by two. *)
Ltac halves :=
  unfold Qdiv in *; change (/ 2) with (1 # 2) in *; lra.

(* ------------------------------------------------------------------ *)
(** * Comparisons on numbers *)

Lemma Qltb_lt (x y : Q) : Qltb x y = true <-> x < y.
Proof.
  unfold Qltb. rewrite negb_true_iff. split.
  - intro H. apply Qnot_le_lt. intro Hle.
    apply Qle_bool_iff in Hle. congruence.
  - intro H. destruct (Qle_bool y x) eqn:E; [|reflexivity].
    apply Qle_bool_iff in E. exfalso. apply (Qlt_not_le _ _ H E).
Qed.

Lemma Qltb_ge (x y : Q) : Qltb x y = false <-> y <= x.
Proof.
  unfold Qltb. rewrite negb_false_iff. apply Qle_bool_iff.
Qed.

Lemma Qgeb_ge (x y : Q) : Qgeb x y = true <-> y <= x.
Proof. apply Qle_bool_iff. Qed.

(* ------------------------------------------------------------------ *)
(** * The overlap test *)

Lemma checkOverlap_comm (pad : Q) (r1 r2 : PlacedRect) :
  checkOverlap pad r1 r2 = checkOverlap pad r2 r1.
Proof.
  unfold checkOverlap, Qgtb.
  destruct (swapIfTurned (rotation r1) (width r1) (height r1)) as [w1 h1].
  destruct (swapIfTurned (rotation r2) (width r2) (height r2)) as [w2 h2].
  repeat match goal with
         | |- context [Qltb ?a ?b] => destruct (Qltb a b)
         end; reflexivity.
Qed.

(** C10. The padded overlap test gives the same answer whichever of the two
    rectangles comes first, for all widths, heights, centres and rotations. *)
Theorem checkOverlap_symmetric :
  forall (pad : Q) (r1 r2 : PlacedRect),
    checkOverlap pad r1 r2 = checkOverlap pad r2 r1.
Proof. exact checkOverlap_comm. Qed.

(* ------------------------------------------------------------------ *)
(** * Sizing policy *)

(** C6, negated as stated: the spacing function does not tell the bucket
    41..70 from the bucket above 70. *)
Lemma spacing_buckets_not_five :
  ~ (forall n m isMobile,
        sizeBucket n <> sizeBucket m ->
        getAutoSpacing n isMobile <> getAutoSpacing m isMobile).
Proof.
  intro H. apply (H 50%Z 100%Z false).
  - discriminate.
  - reflexivity.
Qed.

(** C6, amended.  The font-size range is bucketed by the word-count
    thresholds 10, 20, 40, 70 with a distinct range per bucket, in both
    tables; the spacing profile is bucketed by 10, 20, 40 on a wide viewport
    and by 10, 20 on a compact one, again with a distinct profile per bucket;
    the compact tables are tighter; and 41..70 words on a wide viewport get
    the range 12..28. *)
Theorem sizing_policy_buckets :
  (forall n m isMobile,
      sizeBucket n = sizeBucket m <->
      getAutoFontSizes n isMobile = getAutoFontSizes m isMobile) /\
  (forall n m isMobile,
      spacingBucket n isMobile = spacingBucket m isMobile <->
      getAutoSpacing n isMobile = getAutoSpacing m isMobile) /\
  (forall n,
      (min (getAutoFontSizes n true) < min (getAutoFontSizes n false))%Z /\
      (max (getAutoFontSizes n true) < max (getAutoFontSizes n false))%Z /\
      fitsWithin (getAutoSpacing n true) (getAutoSpacing n false)) /\
  (forall n, (41 <= n <= 70)%Z -> getAutoFontSizes n false = mkRange 12 28).
Proof.
  split; [|split; [|split]].
  - intros n m isMobile. unfold sizeBucket, getAutoFontSizes.
    split; intro H;
      destruct isMobile; bucket_cases;
      try reflexivity; try discriminate; lia.
  - intros n m isMobile.
    unfold spacingBucket, sizeBucket, getAutoSpacing, getAutoSpacingName.
    split; intro H;
      destruct isMobile; bucket_cases;
      try reflexivity; try discriminate; lia.
  - intro n. unfold fitsWithin.
    unfold getAutoFontSizes, getAutoSpacing, getAutoSpacingName.
    bucket_cases; simpl; repeat split; try discriminate; lia.
  - intros n [H1 H2]. unfold getAutoFontSizes. bucket_cases; try lia.
    reflexivity.
Qed.

(* ------------------------------------------------------------------ *)
(** * Font sizes *)

Lemma Qfloor_unique (x : Q) (k : Z) :
  Qfloor x = k <-> inject_Z k <= x /\ x < inject_Z (k + 1).
Proof.
  split.
  - intros <-. split; [apply Qfloor_le | apply Qlt_floor].
  - intros [Hlo Hhi].
    assert (H1 : (k <= Qfloor x)%Z).
    { rewrite <- (Qfloor_Z k). apply Qfloor_resp_le. exact Hlo. }
    assert (H2 : (Qfloor x < k + 1)%Z).
    { rewrite Zlt_Qlt. eapply Qle_lt_trans; [apply Qfloor_le | exact Hhi]. }
    lia.
Qed.

Lemma centeredFontSize_eq (minF maxF : Z) :
  centeredFontSize minF maxF = ((minF + maxF) / 2 + 10)%Z.
Proof.
  unfold centeredFontSize. apply Qfloor_unique.
  rewrite (Zdiv_Qdiv (minF + maxF) 2).
  pose proof (Qfloor_le (inject_Z (minF + maxF) / inject_Z 2)) as Hlo.
  pose proof (Qlt_floor (inject_Z (minF + maxF) / inject_Z 2)) as Hhi.
  rewrite !inject_Z_plus in *.
  change (inject_Z 2) with 2 in *. change (inject_Z 10) with 10.
  change (inject_Z 1) with 1 in *.
  split; halves.
Qed.

Lemma centeredFontSize_above_midpoint (minF maxF : Z) :
  (inject_Z minF + inject_Z maxF) / 2 < inject_Z (centeredFontSize minF maxF).
Proof.
  unfold centeredFontSize.
  pose proof (Qlt_floor ((inject_Z maxF + inject_Z minF) / 2 + 10)) as H.
  rewrite inject_Z_plus in H. change (inject_Z 1) with 1 in H.
  halves.
Qed.

Lemma randomFontSize_hits (minF maxF : Z) (r : Q) (k : Z) :
  (minF <= maxF)%Z ->
  randomFontSize minF maxF r = k <->
  inject_Z (k - minF) / inject_Z (maxF - minF + 1) <= r /\
  r < inject_Z (k - minF + 1) / inject_Z (maxF - minF + 1).
Proof.
  intro Hle. unfold randomFontSize.
  assert (Hpos : 0 < inject_Z (maxF - minF + 1)).
  { change 0 with (inject_Z 0). rewrite <- Zlt_Qlt. lia. }
  set (N := inject_Z (maxF - minF + 1)) in *.
  transitivity (Qfloor (r * N) = (k - minF)%Z); [lia|].
  rewrite Qfloor_unique. split; intros [H1 H2]; split.
  - apply Qle_shift_div_r; assumption.
  - apply Qlt_shift_div_l; assumption.
  - apply (Qmult_le_r _ _ N Hpos) in H1.
    assert (E : inject_Z (k - minF) / N * N == inject_Z (k - minF))
      by (field; lra).
    rewrite E in H1. exact H1.
  - apply (Qmult_lt_r _ _ N Hpos) in H2.
    assert (E : inject_Z (k - minF + 1) / N * N == inject_Z (k - minF + 1))
      by (field; lra).
    rewrite E in H2. exact H2.
Qed.

Lemma randomFontSize_range (minF maxF : Z) (r : Q) :
  (minF <= maxF)%Z -> 0 <= r -> r < 1 ->
  (minF <= randomFontSize minF maxF r <= maxF)%Z.
Proof.
  intros Hle H0 H1.
  destruct (randomFontSize_hits minF maxF r (randomFontSize minF maxF r) Hle)
    as [Hhit _].
  specialize (Hhit eq_refl). destruct Hhit as [Hlo Hhi].
  assert (Hpos : 0 < inject_Z (maxF - minF + 1)).
  { change 0 with (inject_Z 0). rewrite <- Zlt_Qlt. lia. }
  set (N := inject_Z (maxF - minF + 1)) in *.
  set (k := randomFontSize minF maxF r) in *.
  assert (Hk1 : inject_Z (k - minF) < N).
  { apply (Qmult_lt_r _ _ N Hpos) in H1.
    apply (Qmult_le_r _ _ N Hpos) in Hlo.
    assert (E : inject_Z (k - minF) / N * N == inject_Z (k - minF))
      by (field; lra).
    rewrite E in Hlo. lra. }
  assert (Hk0 : 0 < inject_Z (k - minF + 1)).
  { apply (Qmult_lt_r _ _ N Hpos) in Hhi.
    apply (Qmult_le_r _ _ N Hpos) in H0.
    assert (E : inject_Z (k - minF + 1) / N * N == inject_Z (k - minF + 1))
      by (field; lra).
    rewrite E in Hhi. lra. }
  unfold N in Hk1. rewrite <- Zlt_Qlt in Hk1.
  change 0 with (inject_Z 0) in Hk0. rewrite <- Zlt_Qlt in Hk0.
  lia.
Qed.

Lemma makeLabel_fields (h : Host) (c : Cloud) (cw : option string)
  (word : string) (n : nat) :
  let lbl := fst (makeLabel h c cw word n) in
  wd_word lbl = word /\
  wd_isCentered lbl = strictEq cw word /\
  wd_fontSize lbl =
    (if strictEq cw word then centeredFontSize (cloudMin c) (cloudMax c)
     else randomFontSize (cloudMin c) (cloudMax c) (Math_random h n)) /\
  wd_width lbl = measureWidth h (wd_fontSize lbl) word /\
  wd_height lbl = inject_Z (wd_fontSize lbl) + 8 /\
  (strictEq cw word = true -> wd_rotation lbl = 0).
Proof.
  unfold makeLabel, bind, ret, randomIndex, random, bind, ret.
  destruct (strictEq cw word); simpl; repeat split; try discriminate.
  intros _. destruct (Z.to_nat _) as [|[|?]]; reflexivity.
Qed.

Lemma strictEq_true (cw : option string) (word : string) :
  strictEq cw word = true <-> cw = Some word.
Proof.
  destruct cw as [f|]; cbn [strictEq]; [|split; discriminate].
  destruct (String.eqb_spec f word) as [->|Hne]; split; try reflexivity;
    try discriminate.
  intro E. injection E as E. contradiction.
Qed.

(** C7. In a pass whose size range has 0 <= min <= max < 2^20, the label of
    the focused word (the word that is [centeredWord]) is centred and its
    font size is floor((min+max)/2) + 10, which is strictly above the
    midpoint (min+max)/2; the label of any other word is not centred, its
    font size is an integer of [min, max], and the max-min+1 sizes share the
    draws of [0, 1) evenly: the size is k for every draw from
    (k-min)/(max-min+1) up to 2^-32 below (k-min+1)/(max-min+1), and only
    for draws from 2^-32 below the former up to the latter.  The margin of
    2^-32 is where the rounding of the product can decide. *)
Theorem font_size_rule :
  forall (h : Host) (c : Cloud) (cw : option string) (word : string) (n : nat),
    host_ok h ->
    (0 <= cloudMin c <= cloudMax c)%Z ->
    (cloudMax c < 2 ^ 20)%Z ->
    let lbl := fst (makeLabel h c cw word n) in
    let r := Math_random h n in
    let parts := inject_Z (cloudMax c - cloudMin c + 1) in
    (cw = Some word ->
       wd_isCentered lbl = true /\
       wd_fontSize lbl = ((cloudMin c + cloudMax c) / 2 + 10)%Z /\
       (inject_Z (cloudMin c) + inject_Z (cloudMax c)) / 2
         < inject_Z (wd_fontSize lbl)) /\
    (cw <> Some word ->
       wd_isCentered lbl = false /\
       (cloudMin c <= wd_fontSize lbl <= cloudMax c)%Z /\
       forall k : Z,
         (cloudMin c <= k <= cloudMax c)%Z ->
         (inject_Z (k - cloudMin c) / parts <= r /\
          r <= inject_Z (k - cloudMin c + 1) / parts - (1 # 4294967296) ->
          wd_fontSize lbl = k) /\
         (wd_fontSize lbl = k ->
          inject_Z (k - cloudMin c) / parts - (1 # 4294967296) <= r /\
          r < inject_Z (k - cloudMin c + 1) / parts)).
Proof.
  intros h c cw word n [Hrand _] [_ Hle] _ lbl r parts.
  destruct (makeLabel_fields h c cw word n) as (_ & Hc & Hf & _).
  fold lbl in Hc, Hf. rewrite Hc, Hf.
  split; intro E.
  - apply strictEq_true in E. rewrite E.
    split; [reflexivity|].
    split; [apply centeredFontSize_eq | apply centeredFontSize_above_midpoint].
  - assert (E' : strictEq cw word = false).
    { destruct (strictEq cw word) eqn:Es; [|reflexivity].
      apply strictEq_true in Es. contradiction. }
    rewrite E'. split; [reflexivity|]. split.
    + apply randomFontSize_range; [exact Hle | apply Hrand | apply Hrand].
    + intros k _.
      pose proof (randomFontSize_hits (cloudMin c) (cloudMax c)
                    (Math_random h n) k Hle) as Hhit.
      fold r parts in Hhit.
      set (lo := inject_Z (k - cloudMin c) / parts) in *.
      set (hi := inject_Z (k - cloudMin c + 1) / parts) in *.
      split.
      * intros [H1 H2]. apply Hhit. split; [exact H1 | lra].
      * intro Hk. apply Hhit in Hk. destruct Hk as [H1 H2].
        split; [lra | exact H2].
Qed.

(* ------------------------------------------------------------------ *)
(** * Title case *)

Lemma revString_revString (s cur acc : string) :
  revString (revString s cur) acc = revString cur (s ++ acc)%string.
Proof.
  revert cur. induction s as [|ch r IH]; intro cur; simpl.
  - reflexivity.
  - rewrite IH. reflexivity.
Qed.

Lemma append_empty_r (s : string) : (s ++ "")%string = s.
Proof. induction s; simpl; congruence. Qed.

Lemma prefix_space (ch : ascii) (s : string) :
  prefix " " (String ch s) = Ascii.eqb ch " ".
Proof.
  cbn [prefix]. destruct (ascii_dec " " ch) as [E|E].
  - subst ch. destruct s; reflexivity.
  - symmetry. apply Ascii.eqb_neq. congruence.
Qed.

Lemma splitFrom_step (ch : ascii) (s cur : string) :
  splitFrom " " (String ch s) cur 0
  = if Ascii.eqb ch " "
    then revString cur "" :: splitFrom " " s "" 0
    else splitFrom " " s (String ch cur) 0.
Proof.
  cbn [splitFrom]. rewrite prefix_space. reflexivity.
Qed.

Lemma splitFrom_token (w rest cur : string) :
  noSpace w = true ->
  splitFrom " " (w ++ rest) cur 0 = splitFrom " " rest (revString w cur) 0.
Proof.
  revert cur. induction w as [|ch r IH]; intros cur Hw.
  - reflexivity.
  - cbn [noSpace] in Hw. apply andb_true_iff in Hw. destruct Hw as [Hc Hr].
    apply negb_true_iff in Hc.
    cbn [append revString]. rewrite splitFrom_step, Hc.
    apply IH. exact Hr.
Qed.

Lemma split_join_tokens (w : string) (ws : list string) (cur : string) :
  Forall (fun t => noSpace t = true) (w :: ws) ->
  splitFrom " " (join " " (w :: ws)) cur 0
  = revString cur w :: ws.
Proof.
  revert w cur. induction ws as [|v ws IH]; intros w cur Hall.
  - inversion Hall as [|? ? Hw _]; subst.
    change (join " " [w]) with w.
    rewrite <- (append_empty_r w) at 1.
    rewrite splitFrom_token by exact Hw. cbn [splitFrom].
    rewrite revString_revString, append_empty_r. reflexivity.
  - inversion Hall as [|? ? Hw Hrest]; subst.
    change (join " " (w :: v :: ws))
      with (w ++ String " " (join " " (v :: ws)))%string.
    rewrite splitFrom_token by exact Hw.
    rewrite splitFrom_step. change (Ascii.eqb " " " ") with true. cbv iota.
    rewrite revString_revString, append_empty_r.
    f_equal.
    rewrite (IH v EmptyString Hrest). reflexivity.
Qed.

Lemma mapChars_append (f : ascii -> ascii) (a b : string) :
  mapChars f (a ++ b) = (mapChars f a ++ mapChars f b)%string.
Proof. induction a; simpl; congruence. Qed.

Lemma toLowerCase_join (ws : list string) :
  toLowerCase (join " " ws) = join " " (map toLowerCase ws).
Proof.
  induction ws as [|w ws IH]; [reflexivity|].
  destruct ws as [|v ws]; [reflexivity|].
  change (join " " (w :: v :: ws))
    with (w ++ String " " (join " " (v :: ws)))%string.
  change (join " " (map toLowerCase (w :: v :: ws)))
    with (toLowerCase w
          ++ String " " (join " " (map toLowerCase (v :: ws))))%string.
  rewrite <- IH. unfold toLowerCase. rewrite mapChars_append. reflexivity.
Qed.

Lemma noSpace_mapChars (f : ascii -> ascii) (s : string) :
  (forall ch, Ascii.eqb (f ch) " " = Ascii.eqb ch " ") ->
  noSpace (mapChars f s) = noSpace s.
Proof.
  intro Hf. induction s as [|ch r IH]; simpl; [reflexivity|].
  rewrite Hf, IH. reflexivity.
Qed.

Lemma lowerChar_space (ch : ascii) :
  Ascii.eqb (lowerChar ch) " " = Ascii.eqb ch " ".
Proof.
  destruct ch as [[] [] [] [] [] [] [] []]; reflexivity.
Qed.

Lemma lowerChar_noUpper (ch : ascii) :
  isUpperChar ch = false -> lowerChar ch = ch.
Proof. unfold lowerChar. intros ->. reflexivity. Qed.

Lemma upper_lower_front (ch : ascii) :
  isLowerChar ch = false -> upperChar (lowerChar ch) = ch.
Proof.
  destruct ch as [[] [] [] [] [] [] [] []];
    try reflexivity; intro H; discriminate H.
Qed.

Lemma toLowerCase_noUpper (s : string) :
  noUpper s = true -> toLowerCase s = s.
Proof.
  induction s as [|ch r IH]; simpl; [reflexivity|].
  intro H. apply andb_true_iff in H. destruct H as [Hc Hr].
  apply negb_true_iff in Hc.
  unfold toLowerCase in *. simpl.
  rewrite (lowerChar_noUpper ch Hc), (IH Hr). reflexivity.
Qed.

Lemma capitalizeFirst_lower (w : string) :
  capitalizeFirst (toLowerCase w) = capitalized w.
Proof.
  unfold capitalizeFirst, capitalized.
  destruct (toLowerCase w) as [|ch r]; reflexivity.
Qed.

Lemma capitalized_titleCased (w : string) :
  isTitleCased w = true -> capitalized w = w.
Proof.
  destruct w as [|ch r]; [reflexivity|].
  unfold isTitleCased, capitalized. intro H.
  apply andb_true_iff in H. destruct H as [Hc Hr].
  apply negb_true_iff in Hc.
  change (toLowerCase (String ch r))
    with (String (lowerChar ch) (toLowerCase r)).
  cbv iota beta.
  rewrite (upper_lower_front ch Hc), (toLowerCase_noUpper r Hr).
  reflexivity.
Qed.

Lemma titleWord_lower (n : nat) (w : string) (i : nat) :
  titleWord n (toLowerCase w) i = titleToken n w i.
Proof.
  unfold titleWord, titleToken, isSmallWord.
  rewrite capitalizeFirst_lower. reflexivity.
Qed.

Lemma mapIndexFrom_map {A B C} (f : B -> nat -> C) (g : A -> B) (i : nat)
  (l : list A) :
  mapIndexFrom f i (map g l) = mapIndexFrom (fun x k => f (g x) k) i l.
Proof.
  revert i. induction l as [|x r IH]; intro i; simpl; [reflexivity|].
  rewrite IH. reflexivity.
Qed.

Lemma mapIndexFrom_ext {A B} (f g : A -> nat -> B) (i : nat) (l : list A) :
  (forall x k, In x l -> f x k = g x k) ->
  mapIndexFrom f i l = mapIndexFrom g i l.
Proof.
  revert i. induction l as [|x r IH]; intros i H; simpl; [reflexivity|].
  rewrite (H x i (or_introl eq_refl)).
  rewrite IH; [reflexivity|].
  intros y k Hy. apply H. right. exact Hy.
Qed.

Lemma mapIndexFrom_id {A} (f : A -> nat -> A) (i : nat) (l : list A) :
  (forall x k, In x l -> f x k = x) -> mapIndexFrom f i l = l.
Proof.
  revert i. induction l as [|x r IH]; intros i H; simpl; [reflexivity|].
  rewrite (H x i (or_introl eq_refl)).
  rewrite IH; [reflexivity|].
  intros y k Hy. apply H. right. exact Hy.
Qed.

(** Title case on a phrase of two tokens or more. *)
Lemma applyCasing_phrase (ws : list string) :
  (2 <= List.length ws)%nat ->
  Forall (fun t => noSpace t = true) ws ->
  applyCasing (join " " ws) title_case
  = join " " (mapIndex (titleToken (List.length ws)) ws).
Proof.
  intros Hlen Htok.
  unfold applyCasing.
  rewrite toLowerCase_join.
  assert (Hsplit : split " " (join " " (map toLowerCase ws))
                   = map toLowerCase ws).
  { destruct ws as [|w ws]; [simpl in Hlen; lia|].
    unfold split. simpl map.
    rewrite split_join_tokens; [reflexivity|].
    change (Forall (fun t => noSpace t = true) (map toLowerCase (w :: ws))).
    apply Forall_map. eapply Forall_impl; [|exact Htok].
    intros t Ht. unfold toLowerCase.
    rewrite noSpace_mapChars; [exact Ht | exact lowerChar_space]. }
  rewrite Hsplit, length_map.
  destruct (Nat.eqb_spec (List.length ws) 1) as [E|_]; [lia|].
  f_equal. unfold mapIndex. rewrite mapIndexFrom_map.
  apply mapIndexFrom_ext. intros x k _. apply titleWord_lower.
Qed.

(** C8. On a phrase of two or more tokens of ASCII text, title case
    capitalizes every token except a small word that is neither first nor
    last (which it leaves in lower case); hence a phrase of title-cased
    tokens none of which is a small word comes back unchanged. *)
Theorem title_case_phrases :
  forall ws : list string,
    (2 <= List.length ws)%nat ->
    Forall (fun t => isAscii t = true) ws ->
    Forall (fun t => noSpace t = true) ws ->
    applyCasing (join " " ws) title_case
      = join " " (mapIndex (titleToken (List.length ws)) ws) /\
    (Forall (fun t => isTitleCased t = true) ws ->
     Forall (fun t => isSmallWord t = false) ws ->
     applyCasing (join " " ws) title_case = join " " ws).
Proof.
  intros ws Hlen _ Htok. split.
  - apply applyCasing_phrase; assumption.
  - intros Htitle Hsmall.
    rewrite applyCasing_phrase by assumption.
    f_equal. unfold mapIndex. apply mapIndexFrom_id.
    intros x k Hx. unfold titleToken.
    rewrite Forall_forall in Htitle, Hsmall.
    rewrite (Hsmall x Hx). rewrite !orb_true_r.
    apply capitalized_titleCased. apply Htitle. exact Hx.
Qed.

Lemma title_case_phrases_witness :
  (2 <= List.length ["Design"; "Thinking"]%string)%nat /\
  Forall (fun t => isAscii t = true) ["Design"; "Thinking"]%string /\
  Forall (fun t => noSpace t = true) ["Design"; "Thinking"]%string /\
  (applyCasing "Design Thinking" title_case
   = join " " (mapIndex (titleToken 2) ["Design"; "Thinking"]%string) /\
   (Forall (fun t => isTitleCased t = true) ["Design"; "Thinking"]%string ->
    Forall (fun t => isSmallWord t = false) ["Design"; "Thinking"]%string ->
    applyCasing "Design Thinking" title_case = "Design Thinking"%string)) /\
  applyCasing "a tale OF two cities" title_case
  = "A Tale of Two Cities"%string.
Proof.
  split; [repeat constructor|].
  split; [repeat constructor|].
  split; [repeat constructor|].
  split.
  - exact (title_case_phrases ["Design"; "Thinking"]%string
             ltac:(repeat constructor) ltac:(repeat constructor)
             ltac:(repeat constructor)).
  - exact (proj1 (title_case_phrases
                    ["a"; "tale"; "OF"; "two"; "cities"]%string
                    ltac:(repeat constructor) ltac:(repeat constructor)
                    ltac:(repeat constructor))).
Defined.

(* ------------------------------------------------------------------ *)
(** * Tokens and the empty input *)

Lemma splitFrom_not_nil (sep s cur : string) (skip : nat) :
  splitFrom sep s cur skip <> [].
Proof.
  revert cur skip. induction s as [|ch r IH]; intros cur skip.
  - discriminate.
  - cbn [splitFrom]. destruct skip as [|k]; [|apply IH].
    destruct (prefix sep (String ch r)); [discriminate | apply IH].
Qed.

Lemma mapIndexFrom_length {A B} (f : A -> nat -> B) (i : nat) (l : list A) :
  List.length (mapIndexFrom f i l) = List.length l.
Proof.
  revert i. induction l as [|x r IH]; intro i; simpl; [reflexivity|].
  rewrite IH. reflexivity.
Qed.

Lemma join_two_not_empty (sep x y : string) (l : list string) :
  sep <> EmptyString -> join sep (x :: y :: l) <> EmptyString.
Proof.
  intros Hsep E.
  change (join sep (x :: y :: l))
    with (x ++ sep ++ join sep (y :: l))%string in E.
  destruct x; [|discriminate E].
  destruct sep; [congruence | discriminate E].
Qed.

Lemma applyCasing_not_empty (text : string) (cs : Casing) :
  text <> EmptyString -> applyCasing text cs <> EmptyString.
Proof.
  intro Htext. destruct text as [|ch r]; [congruence|].
  destruct cs; cbn [applyCasing]; try discriminate.
  set (ws := split " " (toLowerCase (String ch r))).
  destruct (Nat.eqb_spec (List.length ws) 1) as [_|Hlen]; [discriminate|].
  assert (Hne : ws <> []) by apply splitFrom_not_nil.
  unfold mapIndex.
  destruct ws as [|x [|y l]]; [congruence | simpl in Hlen; congruence |].
  cbn [mapIndexFrom]. apply join_two_not_empty. discriminate.
Qed.

Lemma tokenize_not_empty (settings : WordCloudSettings) (source : string) :
  Forall (fun w => w <> EmptyString) (tokenize settings source).
Proof.
  unfold tokenize. apply Forall_map. apply Forall_forall.
  intros w Hw. apply filter_In in Hw. destruct Hw as [_ Hlen].
  apply applyCasing_not_empty. intro E. subst w. discriminate Hlen.
Qed.

Lemma orElse_not_empty (a : string) : orElse a "," <> EmptyString.
Proof. destruct a; discriminate. Qed.

(** The empty source has no token, whatever the settings. *)
Lemma tokenize_empty_source (settings : WordCloudSettings) :
  tokenize settings "" = [].
Proof.
  unfold tokenize, split.
  destruct (orElse (separator settings) ",") eqn:E.
  - exfalso. exact (orElse_not_empty _ E).
  - reflexivity.
Qed.

(** C9. When parsing the source leaves no token, the entry point draws one
    paragraph, whose text names the separator in use, and nothing else: no
    label is placed, no pass is scheduled, and the call returns. *)
Theorem empty_input_placeholder :
  forall (h : Host) (settings : WordCloudSettings) (source : string) (n : nat),
    tokenize settings source = [] ->
    renderWordCloud h settings source
      = Placeholder ("No words provided. Add "
                     ++ orElse (separator settings) ","
                     ++ "-separated words.")%string /\
    renderCloud h settings source n
      = Some [ParagraphEl ("No words provided. Add "
                           ++ orElse (separator settings) ","
                           ++ "-separated words.")%string].
Proof.
  intros h settings source n Htok.
  assert (H : renderWordCloud h settings source
              = Placeholder ("No words provided. Add "
                             ++ orElse (separator settings) ","
                             ++ "-separated words.")%string).
  { unfold renderWordCloud. rewrite Htok. reflexivity. }
  split; [exact H|].
  unfold renderCloud. rewrite H. reflexivity.
Qed.

(* ------------------------------------------------------------------ *)
(** * The spiral search of one label *)

Section Search.
Variable h : Host.
Variable c : Cloud.
Variable temp : WordData.

Lemma spiralBody_attempts (st : Spiral) :
  attempts (spiralBody h c temp st) = (attempts st + 1)%Z.
Proof.
  unfold spiralBody.
  destruct (swapIfTurned _ _ _) as [nw nh]. reflexivity.
Qed.

Lemma spiralRun_attempts (k : nat) (st : Spiral) :
  attempts (spiralRun h c k temp st) = (attempts st + Z.of_nat k)%Z.
Proof.
  revert st. induction k as [|k IH]; intro st.
  - simpl. lia.
  - cbn [spiralRun]. rewrite IH, spiralBody_attempts. lia.
Qed.

Lemma searching_attempts (st : Spiral) :
  searching c st = true -> (attempts st < maxAttempts)%Z.
Proof.
  unfold searching. destruct (placed st); [discriminate|].
  intro H. apply andb_true_iff in H. destruct H as [_ H].
  apply Z.ltb_lt. exact H.
Qed.

Lemma searching_stopped (st : Spiral) :
  searching c st = false ->
  placed st <> None \/ maxRadius c <= spiralRadius st
  \/ (maxAttempts <= attempts st)%Z.
Proof.
  unfold searching. destruct (placed st); [left; discriminate|].
  intro H. apply andb_false_iff in H. destruct H as [H|H].
  - right. left. apply Qltb_ge. exact H.
  - right. right. apply Z.ltb_ge. exact H.
Qed.

(** The loop runs the body as long as the guard holds, and with fuel for
    the attempts that are left it comes to the state where it fails. *)
Lemma spiralLoop_run (fuel : nat) (st : Spiral) :
  (Z.to_nat (maxAttempts - attempts st) <= fuel)%nat ->
  exists k,
    (Z.of_nat k <= Z.max 0 (maxAttempts - attempts st))%Z /\
    spiralLoop h c fuel temp st = Some (spiralRun h c k temp st) /\
    (forall j, (j < k)%nat -> searching c (spiralRun h c j temp st) = true) /\
    searching c (spiralRun h c k temp st) = false.
Proof.
  revert st. induction fuel as [|f IH]; intros st Hfuel.
  - destruct (searching c st) eqn:E.
    + apply searching_attempts in E. lia.
    + exists O. cbn [spiralLoop spiralRun]. rewrite E.
      repeat split; [lia | intros j Hj; lia].
  - destruct (searching c st) eqn:E.
    + pose proof (searching_attempts st E) as Hlt.
      destruct (IH (spiralBody h c temp st)) as (k & Hk & Hloop & Hon & Hoff).
      { rewrite spiralBody_attempts. lia. }
      rewrite spiralBody_attempts in Hk.
      exists (S k). cbn [spiralLoop spiralRun]. rewrite E.
      repeat split; [lia | exact Hloop | | exact Hoff].
      intros [|j] Hj; [exact E|]. cbn [spiralRun]. apply Hon. lia.
    + exists O. cbn [spiralLoop spiralRun]. rewrite E.
      repeat split; [lia | intros j Hj; lia].
Qed.

Lemma spiralBody_outcome (st : Spiral) :
  placed st = None ->
  let st' := spiralBody h c temp st in
  (placed st' = None /\ placedElements st' = placedElements st) \/
  (exists r, placed st' = Some r /\
             placedElements st' = placedElements st ++ [r] /\
             accepted c temp (placedElements st) r).
Proof.
  intros Hnone st'. subst st'. unfold spiralBody.
  destruct (swapIfTurned (wd_rotation temp) (wd_width temp) (wd_height temp))
    as [nw nh] eqn:Eswap.
  match goal with
  | |- context [if ?b then Some ?r else _] =>
      destruct b eqn:Eacc; [right; exists r | left]
  end; cbn [placed placedElements]; [|split; [exact Hnone | reflexivity]].
  split; [reflexivity|]. split; [reflexivity|].
  apply andb_true_iff in Eacc. destruct Eacc as [Hin Hno].
  unfold accepted. cbn [width height rotation centerX centerY].
  repeat split.
  - unfold withinMargins. cbn [width height rotation centerX centerY].
    rewrite Eswap. unfold inBounds in Hin.
    repeat (apply andb_true_iff in Hin; destruct Hin as [Hin ?]).
    repeat split;
      first [apply Qgeb_ge; assumption | apply Qle_bool_iff; assumption].
  - apply negb_true_iff in Hno. apply Forall_forall. intros q Hq.
    destruct (checkOverlap _ _ q) eqn:Eo; [|reflexivity].
    assert (Hex : existsb
              (checkOverlap (padding (spacingConfig c))
                 (mkRect
                    (centerOfX c + spiralRadius st * Math_cos h (angle st))
                    (centerOfY c + spiralRadius st * Math_sin h (angle st))
                    (wd_width temp) (wd_height temp) (wd_rotation temp)))
              (placedElements st) = true).
    { apply existsb_exists. exists q. split; assumption. }
    congruence.
Qed.

Lemma spiralRun_outcome (k : nat) (st : Spiral) :
  placed st = None ->
  (forall j, (j < k)%nat -> searching c (spiralRun h c j temp st) = true) ->
  let st' := spiralRun h c k temp st in
  (placed st' = None /\ placedElements st' = placedElements st) \/
  (exists r, placed st' = Some r /\
             placedElements st' = placedElements st ++ [r] /\
             accepted c temp (placedElements st) r).
Proof.
  revert st. induction k as [|k IH]; intros st Hnone Hon; cbn [spiralRun].
  - left. split; [exact Hnone | reflexivity].
  - destruct (spiralBody_outcome st Hnone) as [[Hp He]|(r & Hp & He & Hacc)].
    + rewrite <- He. apply IH; [exact Hp|].
      intros j Hj. apply (Hon (S j)). lia.
    + destruct k as [|k].
      * right. exists r. cbn [spiralRun]. auto.
      * exfalso. specialize (Hon 1%nat ltac:(lia)). cbn [spiralRun] in Hon.
        unfold searching in Hon. rewrite Hp in Hon. discriminate.
Qed.
End Search.

(* ------------------------------------------------------------------ *)
(** * Positioning the labels of a pass *)

Section Positioning.
Variable h : Host.
Variable c : Cloud.
Variable fuel : nat.
Hypothesis fuel_enough : (Z.to_nat maxAttempts <= fuel)%nat.

Lemma positionOne_ok (temp : WordData) (base : list PlacedRect) (n : nat) :
  exists tag n',
    positionOne h c fuel temp base n = Some (tag, base ++ tagList tag, n') /\
    stepOk c temp base tag.
Proof.
  unfold positionOne, stepOk.
  destruct (wd_isCentered temp) eqn:Ec.
  - exists (Some (centeredRect c temp)), n. split; reflexivity.
  - unfold random.
    set (start := spiralStart base (Math_random h n)).
    destruct (spiralLoop_run h c temp fuel start fuel_enough)
      as (k & _ & Hloop & Hon & _).
    rewrite Hloop.
    destruct (spiralRun_outcome h c temp k start eq_refl Hon)
      as [[Hp He]|(r & Hp & He & Hacc)].
    + exists None, (S n). rewrite Hp, He. cbn [tagList].
      rewrite app_nil_r. split; reflexivity.
    + exists (Some r), (S n). rewrite Hp, He. split; [reflexivity|].
      exact Hacc.
Qed.

Lemma positionAll_ok (temps : list WordData) :
  forall (base : list PlacedRect) (n : nat),
  exists res n',
    positionAll h c fuel temps base n = Some (res, base ++ placedOf res, n') /\
    map fst res = temps /\
    layoutOk c base res.
Proof.
  induction temps as [|temp rest IH]; intros base n.
  - exists [], n. cbn [positionAll placedOf flat_map].
    rewrite app_nil_r. repeat split.
  - cbn [positionAll].
    destruct (positionOne_ok temp base n) as (tag & n1 & Hone & Hstep).
    rewrite Hone.
    destruct (IH (base ++ tagList tag) n1) as (res & n2 & Hall & Hmap & Hok).
    rewrite Hall.
    exists ((temp, tag) :: res), n2.
    cbn [placedOf flat_map snd fst map layoutOk].
    rewrite <- app_assoc. fold (placedOf res).
    repeat split; [congruence | exact Hstep | exact Hok].
Qed.
End Positioning.

Lemma separated_snoc (pad : Q) (l : list PlacedRect) (r : PlacedRect) :
  separated pad l ->
  Forall (fun q => checkOverlap pad r q = false) l ->
  separated pad (l ++ [r]).
Proof.
  unfold separated. induction l as [|a l IH]; intros Hsep Hall.
  - repeat constructor.
  - inversion Hsep as [|? ? Ha Hl]; subst.
    inversion Hall as [|? ? Hra Hrl]; subst.
    cbn [app]. constructor.
    + apply Forall_app. split; [exact Ha | repeat constructor; exact Hra].
    + apply IH; assumption.
Qed.

Lemma layoutOk_separated (c : Cloud) (res : LayoutResult) :
  forall base,
    layoutOk c base res ->
    Forall (fun e => wd_isCentered (fst e) = false) res ->
    separated (padding (spacingConfig c)) base ->
    separated (padding (spacingConfig c)) (base ++ placedOf res).
Proof.
  induction res as [|[temp tag] rest IH]; intros base Hok Hnc Hsep.
  - cbn [placedOf flat_map]. rewrite app_nil_r. exact Hsep.
  - cbn [layoutOk fst snd] in Hok. destruct Hok as [Hstep Hrest].
    inversion Hnc as [|? ? Hc Hncr]; subst. cbn [fst] in Hc.
    cbn [placedOf flat_map snd]. fold (placedOf rest).
    rewrite app_assoc. apply IH; [exact Hrest | exact Hncr |].
    destruct tag as [r|]; cbn [tagList].
    + unfold stepOk in Hstep. rewrite Hc in Hstep.
      apply separated_snoc; [exact Hsep|]. apply Hstep.
    + rewrite app_nil_r. exact Hsep.
Qed.

Lemma ForallOrdPairs_nth {A} (R : A -> A -> Prop) (l : list A) :
  ForallOrdPairs R l ->
  forall i j a b,
    (i < j)%nat -> nth_error l i = Some a -> nth_error l j = Some b -> R a b.
Proof.
  induction 1 as [|x l Hx Hl IH]; intros i j a b Hij Hi Hj.
  - destruct i; discriminate.
  - destruct j as [|j]; [lia|]. cbn [nth_error] in Hj.
    destruct i as [|i].
    + cbn [nth_error] in Hi. injection Hi as <-.
      rewrite Forall_forall in Hx. apply Hx.
      eapply nth_error_In. exact Hj.
    + cbn [nth_error] in Hi. apply (IH i j); [lia | exact Hi | exact Hj].
Qed.

(** Ordered pairs of the placed rectangles of a layout are ordered pairs of
    its entries. *)
Lemma placedOf_pairs (R : PlacedRect -> PlacedRect -> Prop)
  (res : LayoutResult) :
  ForallOrdPairs R (placedOf res) ->
  ForallOrdPairs
    (fun e1 e2 => forall a b, snd e1 = Some a -> snd e2 = Some b -> R a b) res.
Proof.
  induction res as [|[temp tag] rest IH]; intro H.
  - constructor.
  - cbn [placedOf flat_map snd] in H. fold (placedOf rest) in H.
    destruct tag as [r|]; cbn [tagList app] in H.
    + inversion H as [|? ? Hr Hrest]; subst. constructor.
      * apply Forall_forall. intros [t2 tag2] Hin a b Ha Hb.
        cbn [snd] in Ha, Hb. injection Ha as <-. subst tag2.
        rewrite Forall_forall in Hr. apply Hr.
        unfold placedOf. apply in_flat_map.
        exists (t2, Some b). split; [exact Hin | left; reflexivity].
      * apply IH. exact Hrest.
    + constructor.
      * apply Forall_forall. intros e2 _ a b Ha. discriminate Ha.
      * apply IH. exact H.
Qed.

Lemma checkOverlap_false_apart (pad : Q) (a b : PlacedRect) :
  0 <= pad ->
  checkOverlap pad a b = false ->
  forall x y, ~ (inFootprint (pad / 2) a x y /\ inFootprint (pad / 2) b x y).
Proof.
  intros Hpad Hno x y [Ha Hb].
  unfold checkOverlap, Qgtb in Hno. unfold inFootprint in Ha, Hb.
  destruct (swapIfTurned (rotation a) (width a) (height a)) as [w1 h1].
  destruct (swapIfTurned (rotation b) (width b) (height b)) as [w2 h2].
  apply negb_false_iff in Hno.
  destruct Ha as (Ha1 & Ha2 & Ha3 & Ha4).
  destruct Hb as (Hb1 & Hb2 & Hb3 & Hb4).
  repeat (apply orb_true_iff in Hno; destruct Hno as [Hno|Hno]);
    apply Qltb_lt in Hno; halves.
Qed.

Lemma spacing_padding_nonneg (s : Spacing) : 0 <= padding (SPACING_CONFIG s).
Proof. destruct s; discriminate. Qed.

(** What [renderWordCloud] hands to the passes. *)
Lemma scheduled_cloud (h : Host) (settings : WordCloudSettings)
  (source : string) (c : Cloud) :
  renderWordCloud h settings source = Scheduled c ->
  words c = tokenize settings source /\
  words c <> [] /\
  Forall (fun w => w <> EmptyString) (words c) /\
  0 <= padding (spacingConfig c).
Proof.
  unfold renderWordCloud.
  destruct (Nat.eqb_spec (List.length (tokenize settings source)) 0)
    as [E|E]; [discriminate|].
  intro H. injection H as <-. cbn [words spacingConfig].
  split; [reflexivity|]. split.
  - intro E0. rewrite E0 in E. apply E. reflexivity.
  - split; [apply tokenize_not_empty|].
    unfold getAutoSpacing.
    destruct (autoSpacing settings); apply spacing_padding_nonneg.
Qed.

(* ------------------------------------------------------------------ *)
(** * The labels of a pass *)

Lemma forEach_Forall2 {A B} (f : A -> Rand B) (P : A -> B -> Prop)
  (l : list A) :
  (forall x m, In x l -> P x (fst (f x m))) ->
  forall n, Forall2 P l (fst (forEach f l n)).
Proof.
  induction l as [|x r IH]; intros HP n.
  - constructor.
  - cbn [forEach]. unfold bind, ret.
    destruct (f x n) as [y n1] eqn:Ey.
    destruct (forEach f r n1) as [ys n2] eqn:Eys.
    cbn [fst]. constructor.
    + specialize (HP x n (or_introl eq_refl)). rewrite Ey in HP. exact HP.
    + specialize (IH (fun z m Hz => HP z m (or_intror Hz)) n1).
      rewrite Eys in IH. exact IH.
Qed.

Lemma Forall2_cons_l {A B} (P : A -> B -> Prop) (x : A) (l : list A)
  (l' : list B) :
  Forall2 P (x :: l) l' ->
  exists y r, l' = y :: r /\ P x y /\ Forall2 P l r.
Proof.
  intro H. inversion H as [|x0 y l0 r Hxy Hlr]; subst.
  exists y, r. auto.
Qed.

Lemma Forall2_transfer {A B} (P : A -> B -> Prop) (Q : A -> Prop)
  (R : B -> Prop) (l : list A) (l' : list B) :
  Forall2 P l l' -> Forall Q l ->
  (forall x y, P x y -> Q x -> R y) ->
  Forall R l'.
Proof.
  intros H HQ HPQ. induction H as [|x y l l' Hxy _ IH]; constructor.
  - inversion HQ; subst. eauto.
  - apply IH. inversion HQ; assumption.
Qed.

Lemma focusOf_some (cw : option string) (f : string) :
  focusOf cw = Some f -> cw = Some f /\ f <> EmptyString.
Proof.
  destruct cw as [[|ch r]|]; cbn [focusOf]; try discriminate.
  intro H. injection H as <-. split; [reflexivity | discriminate].
Qed.

Lemma focusOf_none (cw : option string) :
  focusOf cw = None -> cw = None \/ cw = Some EmptyString.
Proof.
  destruct cw as [[|ch r]|]; cbn [focusOf]; try discriminate; auto.
Qed.

Section Labels.
Variable h : Host.
Variable c : Cloud.
Hypothesis host_fine : host_ok h.

(** The order in which a pass takes the words. *)
Lemma shuffleWords_order (cw : option string) (n : nat) :
  match focusOf cw with
  | Some f =>
      exists rest,
        fst (shuffleWords h c cw n) = f :: rest /\
        Permutation rest
          (filter (fun w => negb (String.eqb w f)) (words c))
  | None => Permutation (fst (shuffleWords h c cw n)) (words c)
  end.
Proof.
  destruct host_fine as [_ Hsort].
  unfold shuffleWords. destruct (focusOf cw) as [f|].
  - specialize
      (Hsort (filter (fun w => negb (String.eqb w f)) (words c)) n).
    destruct (sortRandomly h _ n) as [s n'].
    exists s. split; [reflexivity | exact Hsort].
  - apply Hsort.
Qed.

Lemma makeLabels_words (cw : option string) (n : nat) :
  Forall2 (fun w lbl => wd_word lbl = w /\
                        wd_isCentered lbl = strictEq cw w /\
                        (strictEq cw w = true -> wd_rotation lbl = 0) /\
                        wd_width lbl = measureWidth h (wd_fontSize lbl) w /\
                        wd_height lbl = inject_Z (wd_fontSize lbl) + 8)
    (fst (shuffleWords h c cw n)) (fst (makeLabels h c cw n)).
Proof.
  unfold makeLabels, bind.
  destruct (shuffleWords h c cw n) as [shuffled n1]. cbn [fst].
  apply forEach_Forall2. intros w m _.
  destruct (makeLabel_fields h c cw w m) as (Hw & Hc & _ & Hwd & Hht & Hr).
  auto.
Qed.

Lemma makeLabels_map_word (cw : option string) (n : nat) :
  map wd_word (fst (makeLabels h c cw n)) = fst (shuffleWords h c cw n).
Proof.
  pose proof (makeLabels_words cw n) as H.
  induction H as [|w lbl ws lbls (Hw & _) _ IH]; [reflexivity|].
  cbn [map]. rewrite Hw, IH. reflexivity.
Qed.

(** Which labels of a pass are centred: the first one of a pass with a
    focus, and no other. *)
Lemma makeLabels_centered (cw : option string) (n : nat) :
  Forall (fun w => w <> EmptyString) (words c) ->
  match focusOf cw with
  | Some f =>
      exists lbl rest,
        fst (makeLabels h c cw n) = lbl :: rest /\
        wd_word lbl = f /\ wd_isCentered lbl = true /\
        wd_rotation lbl = 0 /\
        wd_width lbl = measureWidth h (wd_fontSize lbl) f /\
        wd_height lbl = inject_Z (wd_fontSize lbl) + 8 /\
        Forall (fun l => wd_isCentered l = false) rest
  | None => Forall (fun l => wd_isCentered l = false)
              (fst (makeLabels h c cw n))
  end.
Proof.
  intro Hne.
  pose proof (shuffleWords_order cw n) as Hord.
  pose proof (makeLabels_words cw n) as Hlab.
  destruct (focusOf cw) as [f|] eqn:Ef.
  - apply focusOf_some in Ef. destruct Ef as [-> Hf].
    destruct Hord as (ws & Hs & Hperm). rewrite Hs in Hlab.
    destruct (Forall2_cons_l _ _ _ _ Hlab)
      as (lbl & rest & El & (Hw & Hc & Hr & Hwd & Hht) & Hrest).
    exists lbl, rest. cbn [strictEq] in Hc, Hr.
    rewrite String.eqb_refl in Hc, Hr.
    repeat split; auto.
    clear - Hrest Hperm.
    assert (Hall : Forall (fun w => String.eqb f w = false) ws).
    { apply Forall_forall. intros w Hw.
      apply (Permutation_in _ Hperm) in Hw.
      apply filter_In in Hw. destruct Hw as [_ Hw].
      apply negb_true_iff in Hw. rewrite String.eqb_sym. exact Hw. }
    apply (Forall2_transfer _ _ _ _ _ Hrest Hall).
    intros w l (_ & Hc & _) Hw. cbn [strictEq] in Hc. congruence.
  - assert (Hall : Forall (fun w => strictEq cw w = false)
                     (fst (shuffleWords h c cw n))).
    { apply Forall_forall. intros w Hw.
      apply (Permutation_in _ Hord) in Hw.
      rewrite Forall_forall in Hne. specialize (Hne w Hw).
      destruct (focusOf_none cw Ef) as [-> | ->]; cbn [strictEq].
      - reflexivity.
      - destruct w; [congruence | reflexivity]. }
    apply (Forall2_transfer _ _ _ _ _ Hlab Hall).
    intros w l (_ & Hc & _) Hw. congruence.
Qed.
End Labels.

Lemma insertByArea_perm (a : WordData) (l : list WordData) :
  Permutation (insertByArea a l) (a :: l).
Proof.
  induction l as [|b r IH]; cbn [insertByArea]; [reflexivity|].
  destruct (Qgtb (area b - area a) 0); [|reflexivity].
  rewrite IH. apply perm_swap.
Qed.

Lemma sortByArea_perm (l : list WordData) : Permutation (sortByArea l) l.
Proof.
  induction l as [|a r IH]; cbn [sortByArea fold_right]; [reflexivity|].
  fold (sortByArea r). rewrite insertByArea_perm. constructor. exact IH.
Qed.

Section Passes.
Variable h : Host.
Variable c : Cloud.
Variable fuel : nat.
Hypothesis fuel_enough : (Z.to_nat maxAttempts <= fuel)%nat.
Hypothesis canvas : getContext h <> None.

(** With a canvas context a pass returns: every label gets an entry of the
    layout, each entry is the outcome of its label, and the placed set is
    the rectangles of the layout. *)
Lemma renderWordsWith_ok (cw : option string) (n : nat) :
  exists p,
    renderWordsWith h c fuel cw n = Some p /\
    tempElements p = fst (makeLabels h c cw n) /\
    map fst (layout p) = processingOrder cw (tempElements p) /\
    layoutOk c [] (layout p) /\
    finalPlaced p = placedOf (layout p).
Proof.
  unfold renderWordsWith, positionWords.
  destruct (makeLabels h c cw n) as [temps n1]. cbn [fst].
  destruct (getContext h) as [measureText|]; [|congruence].
  fold (processingOrder cw temps).
  destruct (positionAll_ok h c fuel fuel_enough
              (processingOrder cw temps) [] n1)
    as (res & n2 & Hall & Hmap & Hok).
  rewrite Hall. eexists. split; [reflexivity|].
  cbn [tempElements layout finalPlaced app]. auto.
Qed.
End Passes.

Lemma renderWords_ok (h : Host) (c : Cloud) (cw : option string) (n : nat) :
  getContext h <> None ->
  exists p,
    renderWords h c cw n = Some p /\
    tempElements p = fst (makeLabels h c cw n) /\
    map fst (layout p) = processingOrder cw (tempElements p) /\
    layoutOk c [] (layout p) /\
    finalPlaced p = placedOf (layout p).
Proof.
  intro Hcanvas. unfold renderWords.
  apply renderWordsWith_ok; [apply Nat.le_refl | exact Hcanvas].
Qed.

(** Without a canvas context there is no pass: the labels are made and
    nothing is positioned. *)
Lemma renderWords_no_canvas (h : Host) (c : Cloud) (cw : option string)
  (n : nat) :
  getContext h = None -> renderWords h c cw n = None.
Proof.
  intro Hnone. unfold renderWords, renderWordsWith.
  destruct (makeLabels h c cw n) as [temps n1]. rewrite Hnone. reflexivity.
Qed.

Lemma renderWords_canvas (h : Host) (c : Cloud) (cw : option string)
  (n : nat) (p : Pass) :
  renderWords h c cw n = Some p -> getContext h <> None.
Proof.
  intros Hp Hnone. rewrite (renderWords_no_canvas h c cw n Hnone) in Hp.
  discriminate Hp.
Qed.

(* ------------------------------------------------------------------ *)
(** * The demonstration host *)

Lemma demoHost_ok : host_ok demoHost.
Proof.
  split.
  - intro k. cbn [Math_random demoHost].
    destruct (k mod 4)%nat as [|[|[|?]]]; split; discriminate || reflexivity.
  - intros l n. cbn [sortRandomly demoHost fst].
    symmetry. apply Permutation_rev.
Qed.

Lemma demoCloud_scheduled :
  renderWordCloud demoHost demoSettings demoSource = Scheduled demoCloud.
Proof. vm_compute. reflexivity. Qed.

Lemma canvasHost_ok : host_ok canvasHost.
Proof.
  split.
  - intro k. cbn [Math_random canvasHost].
    pose proof (Nat.mod_upper_bound k 8 ltac:(discriminate)) as Hk.
    unfold Qle, Qlt. cbn [Qnum Qden]. lia.
  - intros l n. cbn [sortRandomly canvasHost fst].
    symmetry. apply Permutation_rev.
Qed.

Lemma canvasHost_canvas : getContext canvasHost <> None.
Proof. discriminate. Qed.

Lemma canvasCloud_scheduled :
  renderWordCloud canvasHost demoSettings demoSource = Scheduled demoCloud.
Proof. vm_compute. reflexivity. Qed.

(** The first pass of a cloud focuses one of its words. *)
Lemma initialPass_focus (h : Host) (c : Cloud) (n : nat) :
  host_ok h -> words c <> [] ->
  exists w, In w (words c) /\
            initialPass h c n = renderWords h c (Some w) (S n).
Proof.
  intros [Hrand _] Hne. unfold initialPass, randomIndex, random, bind, ret.
  set (len := List.length (words c)).
  set (r := Math_random h n).
  assert (Hlen : (0 < len)%nat).
  { unfold len. destruct (words c); [congruence | simpl; lia]. }
  destruct (Hrand n) as [H0 H1]. fold r in H0, H1.
  assert (Hi : (Z.to_nat (Qfloor (r * inject_Z (Z.of_nat len))) < len)%nat).
  { assert (Hpos : 0 < inject_Z (Z.of_nat len)).
    { change 0 with (inject_Z 0). rewrite <- Zlt_Qlt. lia. }
    assert (Hlo : (0 <= Qfloor (r * inject_Z (Z.of_nat len)))%Z).
    { rewrite <- (Qfloor_Z 0). apply Qfloor_resp_le.
      apply Qmult_le_0_compat; [exact H0 | apply Qlt_le_weak; exact Hpos]. }
    assert (Hhi : (Qfloor (r * inject_Z (Z.of_nat len)) < Z.of_nat len)%Z).
    { rewrite Zlt_Qlt. eapply Qle_lt_trans; [apply Qfloor_le|].
      rewrite <- (Qmult_1_l (inject_Z (Z.of_nat len))) at 2.
      apply Qmult_lt_r; assumption. }
    lia. }
  destruct (nth_error (words c) _) as [w|] eqn:E.
  - exists w. split; [eapply nth_error_In; exact E | reflexivity].
  - apply nth_error_None in E. fold len in E. lia.
Qed.

(* ------------------------------------------------------------------ *)
(** * Properties of a pass *)

Lemma layoutOk_first_centered (c : Cloud) (lbl : WordData)
  (tag : option PlacedRect) (rest : LayoutResult) (base : list PlacedRect) :
  layoutOk c base ((lbl, tag) :: rest) ->
  wd_isCentered lbl = true ->
  tag = Some (centeredRect c lbl) /\
  layoutOk c (base ++ [centeredRect c lbl]) rest.
Proof.
  cbn [layoutOk fst snd]. intros [Hstep Hrest] Hc.
  unfold stepOk in Hstep. rewrite Hc in Hstep.
  destruct tag as [r|]; [|discriminate].
  subst r. split; [reflexivity | exact Hrest].
Qed.


Section PassFacts.
Variable h : Host.
Variable c : Cloud.
Hypothesis host_fine : host_ok h.
Hypothesis words_fine : Forall (fun w => w <> EmptyString) (words c).

Lemma layout_separated (cw : option string) (n : nat) (p : Pass) :
  tempElements p = fst (makeLabels h c cw n) ->
  map fst (layout p) = processingOrder cw (tempElements p) ->
  layoutOk c [] (layout p) ->
  separated (padding (spacingConfig c)) (placedOf (layout p)).
Proof.
  intros Htemps Hmap Hok.
  pose proof (makeLabels_centered h c host_fine cw n words_fine) as Hcen.
  unfold processingOrder in Hmap. rewrite Htemps in Hmap.
  destruct (focusOf cw) as [f|].
  - destruct Hcen as (lbl & rest & El & _ & Hc & _ & _ & _ & Hrest).
    rewrite El in Hmap.
    destruct (layout p) as [|[lbl0 tag] res]; [discriminate|].
    cbn [map fst] in Hmap. injection Hmap as -> Hres.
    destruct (layoutOk_first_centered _ _ _ _ _ Hok Hc) as [-> Hok'].
    cbn [placedOf flat_map snd tagList]. fold (placedOf res).
    apply (layoutOk_separated c res _ Hok').
    + apply (proj1 (Forall_map fst
                       (fun l => wd_isCentered l = false) res)).
      rewrite Hres. exact Hrest.
    + repeat constructor.
  - apply (layoutOk_separated c (layout p) [] Hok).
    + apply (proj1 (Forall_map fst
                       (fun l => wd_isCentered l = false) (layout p))).
      rewrite Hmap.
      eapply Permutation_Forall; [|exact Hcen].
      symmetry. apply sortByArea_perm.
    + constructor.
Qed.
End PassFacts.

(** C1. On a host with a canvas context, every pass of a cloud returns; in
    it every rectangle the spiral search placed had passed the overlap test
    against all the rectangles placed before it ([layoutOk]), and any two
    distinct placed rectangles of the layout, each turned when its rotation
    is a quarter turn and grown by half the padding on each side, have no
    point in common. *)
Theorem placed_rectangles_disjoint :
  forall (h : Host) (settings : WordCloudSettings) (source : string)
         (c : Cloud) (cw : option string) (n : nat),
    host_ok h ->
    getContext h <> None ->
    renderWordCloud h settings source = Scheduled c ->
    exists p,
      renderWords h c cw n = Some p /\
      layoutOk c [] (layout p) /\
      forall i j l1 l2 r1 r2,
        i <> j ->
        nth_error (layout p) i = Some (l1, Some r1) ->
        nth_error (layout p) j = Some (l2, Some r2) ->
        forall x y,
          ~ (inFootprint (padding (spacingConfig c) / 2) r1 x y /\
             inFootprint (padding (spacingConfig c) / 2) r2 x y).
Proof.
  intros h settings source c cw n Hhost Hcanvas Hsched.
  destruct (scheduled_cloud h settings source c Hsched)
    as (_ & _ & Hwords & Hpad).
  destruct (renderWords_ok h c cw n Hcanvas)
    as (p & Hp & Htemps & Hmap & Hok & _).
  exists p. split; [exact Hp|]. split; [exact Hok|].
  pose proof (layout_separated h c Hhost Hwords cw n p Htemps Hmap Hok) as Hsep.
  apply placedOf_pairs in Hsep.
  intros i j l1 l2 r1 r2 Hij Hi Hj x y [H1 H2].
  destruct (Nat.lt_total i j) as [Hlt|[Heq|Hgt]]; [|congruence|].
  - pose proof (ForallOrdPairs_nth _ _ Hsep i j _ _ Hlt Hi Hj r1 r2
                  eq_refl eq_refl) as Hno.
    apply (checkOverlap_false_apart _ r2 r1 Hpad Hno x y). auto.
  - pose proof (ForallOrdPairs_nth _ _ Hsep j i _ _ Hgt Hj Hi r2 r1
                  eq_refl eq_refl) as Hno.
    apply (checkOverlap_false_apart _ r1 r2 Hpad Hno x y). auto.
Qed.

Lemma placed_rectangles_disjoint_witness :
  host_ok canvasHost /\
  getContext canvasHost <> None /\
  renderWordCloud canvasHost demoSettings demoSource = Scheduled demoCloud /\
  exists p,
    renderWords canvasHost demoCloud (Some "hi"%string) 0 = Some p /\
    layoutOk demoCloud [] (layout p) /\
    forall i j l1 l2 r1 r2,
      i <> j ->
      nth_error (layout p) i = Some (l1, Some r1) ->
      nth_error (layout p) j = Some (l2, Some r2) ->
      forall x y,
        ~ (inFootprint (padding (spacingConfig demoCloud) / 2) r1 x y /\
           inFootprint (padding (spacingConfig demoCloud) / 2) r2 x y).
Proof.
  split; [exact canvasHost_ok|]. split; [exact canvasHost_canvas|].
  split; [exact canvasCloud_scheduled|].
  exact (placed_rectangles_disjoint canvasHost demoSettings demoSource
           demoCloud (Some "hi"%string) 0%nat
           canvasHost_ok canvasHost_canvas canvasCloud_scheduled).
Defined.






(** C5, refuted as stated: with the word list a, a, b and the focus on a,
    the pass makes two labels for the three words. *)
Lemma focus_duplicates_dropped :
  renderWordCloud demoHost DEFAULT_SETTINGS "a, a, b" = Scheduled twiceCloud
  /\ map wd_word
       (fst (makeLabels demoHost twiceCloud (Some "a"%string) 0%nat))
     = ["a"; "b"]%string
  /\ ~ Permutation
         (map wd_word
            (fst (makeLabels demoHost twiceCloud (Some "a"%string) 0%nat)))
         (words twiceCloud).
Proof.
  split; [vm_compute; reflexivity|].
  split; [vm_compute; reflexivity|].
  intro H. apply Permutation_length in H. vm_compute in H. discriminate H.
Qed.

(** C5, amended.  The labels of a pass are, with a focus word, one for the
    focus word, first, followed by one for each word of the list that
    differs from it, duplicates included, in shuffled order; without a focus
    word they are one for each word of the list, duplicates included.  On a
    host with a canvas context the pass returns and gives every label one
    entry of the layout, in the order of the labels when there is a focus
    word. *)
Theorem one_label_per_word :
  forall (h : Host) (c : Cloud) (cw : option string) (n : nat),
    host_ok h ->
    getContext h <> None ->
    exists p,
      renderWords h c cw n = Some p /\
      tempElements p = fst (makeLabels h c cw n) /\
      Permutation (map fst (layout p)) (tempElements p) /\
      match focusOf cw with
      | Some f =>
          exists rest,
            map wd_word (tempElements p) = f :: rest /\
            Permutation rest
              (filter (fun w => negb (String.eqb w f)) (words c)) /\
            map fst (layout p) = tempElements p
      | None => Permutation (map wd_word (tempElements p)) (words c)
      end.
Proof.
  intros h c cw n Hhost Hcanvas.
  destruct (renderWords_ok h c cw n Hcanvas)
    as (p & Hp & Htemps & Hmap & _ & _).
  exists p. split; [exact Hp|]. split; [exact Htemps|].
  pose proof (shuffleWords_order h c Hhost cw n) as Hord.
  pose proof (makeLabels_map_word h c cw n) as Hwords.
  rewrite <- Htemps in Hwords.
  unfold processingOrder in Hmap. split.
  - rewrite Hmap. destruct (focusOf cw); [reflexivity | apply sortByArea_perm].
  - destruct (focusOf cw) as [f|].
    + destruct Hord as (rest & Hs & Hperm). exists rest.
      rewrite Hwords. auto.
    + rewrite Hwords. exact Hord.
Qed.

Lemma one_label_per_word_witness :
  host_ok canvasHost /\
  getContext canvasHost <> None /\
  exists p,
    renderWords canvasHost demoCloud (Some "hi"%string) 0 = Some p /\
    tempElements p
    = fst (makeLabels canvasHost demoCloud (Some "hi"%string) 0%nat) /\
    Permutation (map fst (layout p)) (tempElements p) /\
    exists rest,
      map wd_word (tempElements p) = "hi"%string :: rest /\
      Permutation rest
        (filter (fun w => negb (String.eqb w "hi")) (words demoCloud)) /\
      map fst (layout p) = tempElements p.
Proof.
  split; [exact canvasHost_ok|]. split; [exact canvasHost_canvas|].
  exact (one_label_per_word canvasHost demoCloud (Some "hi"%string) 0%nat
           canvasHost_ok canvasHost_canvas).
Defined.

(** C4. The search of a label always ends.  With fuel for 20000 turns, the
    loop returns after k <= 20000 turns of its body, and k is the first
    count at which the label is placed, the radius has reached twice the
    larger side of the surface, or 20000 attempts are spent: before it the
    label is unplaced, the radius below that bound and the attempts below
    20000.  A label left unplaced adds nothing to the placed set and gets
    no element in the container, its outcome is returned as any other, and
    on a host with a canvas context every pass returns, with an outcome for
    each of its labels. *)
Theorem spiral_search_terminates :
  forall (h : Host) (c : Cloud) (temp : WordData)
         (placedSoFar : list PlacedRect) (r : Q) (fuel : nat),
    (Z.to_nat maxAttempts <= fuel)%nat ->
    let start := spiralStart placedSoFar r in
    let bound := Math_max (containerWidth c) (containerHeight c) * 2 in
    exists (k : nat) (st : Spiral),
      spiralLoop h c fuel temp start = Some st /\
      st = spiralRun h c k temp start /\
      attempts st = Z.of_nat k /\
      (Z.of_nat k <= 20000)%Z /\
      (forall j, (j < k)%nat ->
                 placed (spiralRun h c j temp start) = None /\
                 spiralRadius (spiralRun h c j temp start) < bound /\
                 (attempts (spiralRun h c j temp start) < 20000)%Z) /\
      (placed st <> None \/ bound <= spiralRadius st
       \/ attempts st = 20000%Z) /\
      (placed st = None ->
       placedElements st = placedSoFar /\ spansOf [(temp, placed st)] = []) /\
      (forall n, wd_isCentered temp = false -> Math_random h n = r ->
                 positionOne h c fuel temp placedSoFar n
                 = Some (placed st, placedElements st, S n)) /\
      (getContext h <> None ->
       forall cw n, exists p,
         renderWordsWith h c fuel cw n = Some p /\
         List.length (layout p) = List.length (tempElements p)).
Proof.
  intros h c temp placedSoFar r fuel Hfuel start bound.
  destruct (spiralLoop_run h c temp fuel start)
    as (k & Hk & Hloop & Hon & Hoff).
  { exact Hfuel. }
  change (attempts start) with 0%Z in Hk.
  assert (Hk' : (Z.of_nat k <= 20000)%Z) by (unfold maxAttempts in Hk; lia).
  assert (Hatt : forall j, attempts (spiralRun h c j temp start) = Z.of_nat j).
  { intro j. rewrite spiralRun_attempts. reflexivity. }
  exists k, (spiralRun h c k temp start).
  split; [exact Hloop|]. split; [reflexivity|]. split; [apply Hatt|].
  split; [exact Hk'|]. split; [|split; [|split; [|split]]].
  - intros j Hj. specialize (Hon j Hj). unfold searching in Hon.
    destruct (placed (spiralRun h c j temp start)); [discriminate|].
    apply andb_true_iff in Hon. destruct Hon as [Hrad Hcount].
    split; [reflexivity|]. split.
    + apply Qltb_lt. exact Hrad.
    + apply Z.ltb_lt. exact Hcount.
  - destruct (searching_stopped c _ Hoff) as [H|[H|H]]; auto.
    right. right. rewrite Hatt in *. unfold maxAttempts in H. lia.
  - intro Hnone. split; [|rewrite Hnone; reflexivity].
    destruct (spiralRun_outcome h c temp k start eq_refl Hon)
      as [[_ He]|(q & Hp & _)].
    + exact He.
    + congruence.
  - intros n Hc Hr. unfold positionOne, random. rewrite Hc, Hr.
    fold start. rewrite Hloop. reflexivity.
  - intros Hcanvas cw n.
    destruct (renderWordsWith_ok h c fuel Hfuel Hcanvas cw n)
      as (p & Hp & _ & Hmap & _ & _).
    exists p. split; [exact Hp|].
    rewrite <- (length_map fst (layout p)), Hmap.
    unfold processingOrder.
    destruct (focusOf cw); [reflexivity|].
    apply Permutation_length, sortByArea_perm.
Qed.

Lemma spiral_search_terminates_witness :
  (Z.to_nat maxAttempts <= Z.to_nat maxAttempts)%nat /\
  let temp := mkWord 15 19 11 "#0066cc" 0 "a" false in
  let start := spiralStart [] 0 in
  let bound :=
    Math_max (containerWidth demoCloud) (containerHeight demoCloud) * 2 in
  exists (k : nat) (st : Spiral),
    spiralLoop canvasHost demoCloud (Z.to_nat maxAttempts) temp start
    = Some st /\
    st = spiralRun canvasHost demoCloud k temp start /\
    attempts st = Z.of_nat k /\
    (Z.of_nat k <= 20000)%Z /\
    (forall j, (j < k)%nat ->
               placed (spiralRun canvasHost demoCloud j temp start) = None /\
               spiralRadius (spiralRun canvasHost demoCloud j temp start)
                 < bound /\
               (attempts (spiralRun canvasHost demoCloud j temp start)
                < 20000)%Z) /\
    (placed st <> None \/ bound <= spiralRadius st
     \/ attempts st = 20000%Z) /\
    (placed st = None ->
     placedElements st = [] /\ spansOf [(temp, placed st)] = []) /\
    (forall n, wd_isCentered temp = false -> Math_random canvasHost n = 0 ->
               positionOne canvasHost demoCloud (Z.to_nat maxAttempts) temp
                 [] n
               = Some (placed st, placedElements st, S n)) /\
    (getContext canvasHost <> None ->
     forall cw n, exists p,
       renderWordsWith canvasHost demoCloud (Z.to_nat maxAttempts) cw n
       = Some p /\
       List.length (layout p) = List.length (tempElements p)).
Proof.
  split; [apply Nat.le_refl|].
  exact (spiral_search_terminates canvasHost demoCloud
           (mkWord 15 19 11 "#0066cc" 0 "a" false) [] 0
           (Z.to_nat maxAttempts) (Nat.le_refl _)).
Defined.

Lemma font_size_rule_witness :
  host_ok canvasHost /\
  (0 <= cloudMin demoCloud <= cloudMax demoCloud)%Z /\
  (cloudMax demoCloud < 2 ^ 20)%Z /\
  (let lbl :=
     fst (makeLabel canvasHost demoCloud (Some "hi"%string) "hi"%string
            0%nat) in
   wd_isCentered lbl = true /\
   wd_fontSize lbl = 21%Z /\
   (inject_Z (cloudMin demoCloud) + inject_Z (cloudMax demoCloud)) / 2
     < inject_Z (wd_fontSize lbl)) /\
  (let lbl :=
     fst (makeLabel canvasHost demoCloud (Some "hi"%string) "a"%string
            5%nat) in
   let r := Math_random canvasHost 5%nat in
   let parts := inject_Z (cloudMax demoCloud - cloudMin demoCloud + 1) in
   wd_isCentered lbl = false /\
   (cloudMin demoCloud <= wd_fontSize lbl <= cloudMax demoCloud)%Z /\
   forall k : Z,
     (cloudMin demoCloud <= k <= cloudMax demoCloud)%Z ->
     (inject_Z (k - cloudMin demoCloud) / parts <= r /\
      r <= inject_Z (k - cloudMin demoCloud + 1) / parts - (1 # 4294967296) ->
      wd_fontSize lbl = k) /\
     (wd_fontSize lbl = k ->
      inject_Z (k - cloudMin demoCloud) / parts - (1 # 4294967296) <= r /\
      r < inject_Z (k - cloudMin demoCloud + 1) / parts)).
Proof.
  split; [exact canvasHost_ok|].
  split; [split; discriminate|].
  split; [reflexivity|].
  split.
  - exact (proj1 (font_size_rule canvasHost demoCloud (Some "hi"%string)
                    "hi"%string 0%nat canvasHost_ok
                    ltac:(split; discriminate) ltac:(reflexivity))
             eq_refl).
  - exact (proj2 (font_size_rule canvasHost demoCloud (Some "hi"%string)
                    "a"%string 5%nat canvasHost_ok
                    ltac:(split; discriminate) ltac:(reflexivity))
             ltac:(discriminate)).
Defined.

Lemma empty_input_placeholder_witness :
  tokenize DEFAULT_SETTINGS " , ,, " = [] /\
  renderWordCloud demoHost DEFAULT_SETTINGS " , ,, "
    = Placeholder "No words provided. Add ,-separated words." /\
  renderCloud demoHost DEFAULT_SETTINGS " , ,, " 0%nat
    = Some [ParagraphEl "No words provided. Add ,-separated words."].
Proof.
  split; [reflexivity|].
  exact (empty_input_placeholder demoHost DEFAULT_SETTINGS " , ,, "%string
           0%nat eq_refl).
Defined.

(* ------------------------------------------------------------------ *)
(** * Splitting at a one-character separator *)

Lemma prefix_single (ch x : ascii) (s : string) :
  prefix (String ch EmptyString) (String x s) = Ascii.eqb x ch.
Proof.
  cbn [prefix]. destruct (ascii_dec ch x) as [E|E].
  - subst x. rewrite Ascii.eqb_refl. destruct s; reflexivity.
  - symmetry. apply Ascii.eqb_neq. congruence.
Qed.

Lemma splitFrom_single_step (ch x : ascii) (s cur : string) :
  splitFrom (String ch EmptyString) (String x s) cur 0
  = if Ascii.eqb x ch
    then revString cur EmptyString
           :: splitFrom (String ch EmptyString) s EmptyString 0
    else splitFrom (String ch EmptyString) s (String x cur) 0.
Proof.
  cbn [splitFrom]. rewrite prefix_single. reflexivity.
Qed.

Lemma splitFrom_single_piece (ch : ascii) (w rest cur : string) :
  noChar ch w = true ->
  splitFrom (String ch EmptyString) (w ++ rest) cur 0
  = splitFrom (String ch EmptyString) rest (revString w cur) 0.
Proof.
  revert cur. induction w as [|x r IH]; intros cur Hw.
  - reflexivity.
  - cbn [noChar] in Hw. apply andb_true_iff in Hw. destruct Hw as [Hx Hr].
    apply negb_true_iff in Hx.
    cbn [append revString]. rewrite splitFrom_single_step, Hx.
    apply IH. exact Hr.
Qed.

Lemma split_join_single (ch : ascii) (w : string) (ws : list string)
  (cur : string) :
  Forall (fun t => noChar ch t = true) (w :: ws) ->
  splitFrom (String ch EmptyString) (join (String ch EmptyString) (w :: ws))
    cur 0
  = revString cur w :: ws.
Proof.
  revert w cur. induction ws as [|v ws IH]; intros w cur Hall.
  - inversion Hall as [|? ? Hw _]; subst.
    change (join (String ch EmptyString) [w]) with w.
    rewrite <- (append_empty_r w) at 1.
    rewrite splitFrom_single_piece by exact Hw. cbn [splitFrom].
    rewrite revString_revString, append_empty_r. reflexivity.
  - inversion Hall as [|? ? Hw Hrest]; subst.
    change (join (String ch EmptyString) (w :: v :: ws))
      with (w ++ String ch (join (String ch EmptyString) (v :: ws)))%string.
    rewrite splitFrom_single_piece by exact Hw.
    rewrite splitFrom_single_step, Ascii.eqb_refl.
    rewrite revString_revString, append_empty_r.
    f_equal.
    rewrite (IH v EmptyString Hrest). reflexivity.
Qed.

Lemma revString_append_acc (s acc tail : string) :
  (revString s acc ++ tail)%string = revString s (acc ++ tail).
Proof.
  revert acc. induction s as [|x r IH]; intro acc; cbn [revString].
  - reflexivity.
  - rewrite IH. reflexivity.
Qed.

Lemma join_cons_nonempty (sep x : string) (l : list string) :
  l <> [] -> join sep (x :: l) = (x ++ sep ++ join sep l)%string.
Proof.
  destruct l as [|y l]; [congruence | reflexivity].
Qed.

(** Joining the pieces of a split gives the string back. *)
Lemma join_split_single (ch : ascii) (s cur : string) :
  join (String ch EmptyString) (splitFrom (String ch EmptyString) s cur 0)
  = revString cur s.
Proof.
  revert cur. induction s as [|x r IH]; intro cur.
  - reflexivity.
  - rewrite splitFrom_single_step.
    destruct (Ascii.eqb_spec x ch) as [E|E].
    + subst x. rewrite join_cons_nonempty by apply splitFrom_not_nil.
      rewrite IH. cbn [revString append].
      rewrite revString_append_acc. reflexivity.
    + rewrite IH. reflexivity.
Qed.

Lemma noChar_revString (ch : ascii) (s acc : string) :
  noChar ch (revString s acc) = noChar ch s && noChar ch acc.
Proof.
  revert acc. induction s as [|x r IH]; intro acc; cbn [revString noChar].
  - reflexivity.
  - rewrite IH. cbn [noChar].
    destruct (negb (Ascii.eqb x ch)), (noChar ch r), (noChar ch acc);
      reflexivity.
Qed.

(** No piece of a split holds the separator. *)
Lemma splitFrom_single_pieces (ch : ascii) (s cur : string) :
  noChar ch cur = true ->
  Forall (fun t => noChar ch t = true)
    (splitFrom (String ch EmptyString) s cur 0).
Proof.
  revert cur. induction s as [|x r IH]; intros cur Hcur.
  - cbn [splitFrom]. constructor; [|constructor].
    rewrite noChar_revString, Hcur. reflexivity.
  - rewrite splitFrom_single_step.
    destruct (Ascii.eqb x ch) eqn:E.
    + constructor.
      * rewrite noChar_revString, Hcur. reflexivity.
      * apply IH. reflexivity.
    + apply IH. cbn [noChar]. rewrite E, Hcur. reflexivity.
Qed.

Lemma noChar_space (s : string) : noChar " " s = noSpace s.
Proof. induction s as [|x r IH]; cbn [noChar noSpace]; congruence. Qed.

(* ------------------------------------------------------------------ *)
(** * Trimming *)

Lemma revString_length (s acc : string) :
  String.length (revString s acc)
  = (String.length s + String.length acc)%nat.
Proof.
  revert acc. induction s as [|x r IH]; intro acc; cbn [revString].
  - reflexivity.
  - rewrite IH. cbn [String.length]. lia.
Qed.

Lemma revString_involutive (s : string) :
  revString (revString s EmptyString) EmptyString = s.
Proof.
  rewrite revString_revString. cbn [revString]. apply append_empty_r.
Qed.

Lemma trimStart_length (s : string) :
  (String.length (trimStart s) <= String.length s)%nat.
Proof.
  induction s as [|x r IH]; cbn [trimStart]; [lia|].
  destruct (isSpaceChar x); cbn [String.length]; lia.
Qed.

Lemma trimStart_fixed (s : string) :
  String.length (trimStart s) = String.length s -> trimStart s = s.
Proof.
  destruct s as [|x r]; cbn [trimStart]; [reflexivity|].
  destruct (isSpaceChar x); [|reflexivity].
  pose proof (trimStart_length r). cbn [String.length]. lia.
Qed.

Lemma trim_length (s : string) :
  (String.length (trim s) <= String.length s)%nat.
Proof.
  unfold trim. rewrite revString_length. cbn [String.length].
  pose proof (trimStart_length (revString (trimStart s) EmptyString)) as H1.
  rewrite revString_length in H1. cbn [String.length] in H1.
  pose proof (trimStart_length s). lia.
Qed.

(** A string that trimming does not shorten is left as it is. *)
Lemma trim_fixed (s : string) :
  String.length (trim s) = String.length s -> trim s = s.
Proof.
  intro H. unfold trim in *.
  rewrite revString_length in H. cbn [String.length] in H.
  pose proof (trimStart_length (revString (trimStart s) EmptyString)) as H1.
  rewrite revString_length in H1. cbn [String.length] in H1.
  pose proof (trimStart_length s) as H2.
  assert (E1 : trimStart s = s) by (apply trimStart_fixed; lia).
  rewrite E1 in *.
  assert (E2 : trimStart (revString s EmptyString) = revString s EmptyString).
  { apply trimStart_fixed. rewrite revString_length. cbn [String.length].
    lia. }
  rewrite E2. apply revString_involutive.
Qed.

Lemma trimStart_idem (s : string) : trimStart (trimStart s) = trimStart s.
Proof.
  induction s as [|x r IH]; cbn [trimStart]; [reflexivity|].
  destruct (isSpaceChar x) eqn:E; [exact IH|].
  cbn [trimStart]. rewrite E. reflexivity.
Qed.

(** What [trimStart] drops is a prefix. *)
Lemma trimStart_suffix (s : string) :
  exists p, s = (p ++ trimStart s)%string.
Proof.
  induction s as [|x r [p Hp]]; cbn [trimStart].
  - exists EmptyString. reflexivity.
  - destruct (isSpaceChar x).
    + exists (String x p). cbn [append]. rewrite <- Hp. reflexivity.
    + exists EmptyString. reflexivity.
Qed.

Lemma revString_app (a b acc : string) :
  revString (a ++ b) acc = revString b (revString a acc).
Proof.
  revert acc. induction a as [|x r IH]; intro acc; cbn [append revString].
  - reflexivity.
  - apply IH.
Qed.

Lemma trimStart_head (x : ascii) (r tail : string) :
  trimStart (String x r ++ tail) = (String x r ++ tail)%string ->
  trimStart (String x r) = String x r.
Proof.
  cbn [append trimStart]. destruct (isSpaceChar x); [|reflexivity].
  intro H.
  pose proof (trimStart_length (r ++ tail)) as Hl. rewrite H in Hl.
  cbn [String.length] in Hl. lia.
Qed.

Lemma trim_idem (s : string) : trim (trim s) = trim s.
Proof.
  unfold trim at 2.
  set (s' := trimStart s).
  set (t := trimStart (revString s' EmptyString)).
  set (u := revString t EmptyString).
  assert (Hs' : trimStart s' = s') by apply trimStart_idem.
  assert (Ht : trimStart t = t) by apply trimStart_idem.
  destruct (trimStart_suffix (revString s' EmptyString)) as [p Hp].
  fold t in Hp.
  assert (Hsu : s' = (u ++ revString p EmptyString)%string).
  { transitivity (revString (revString s' EmptyString) EmptyString);
      [symmetry; apply revString_involutive|].
    rewrite Hp, revString_app.
    symmetry. exact (revString_append_acc t EmptyString _). }
  assert (Hu : trimStart u = u).
  { destruct u as [|x r] eqn:Eu; [reflexivity|].
    apply (trimStart_head x r (revString p EmptyString)).
    rewrite <- Hsu. exact Hs'. }
  unfold trim. rewrite Hu.
  unfold u at 1. rewrite revString_involutive, Ht. reflexivity.
Qed.

Lemma revString_mapChars (f : ascii -> ascii) (s acc : string) :
  revString (mapChars f s) (mapChars f acc) = mapChars f (revString s acc).
Proof.
  revert acc. induction s as [|x r IH]; intro acc; cbn [mapChars revString].
  - reflexivity.
  - rewrite <- IH. reflexivity.
Qed.

Lemma trimStart_mapChars (f : ascii -> ascii) (s : string) :
  (forall x, isSpaceChar (f x) = isSpaceChar x) ->
  trimStart (mapChars f s) = mapChars f (trimStart s).
Proof.
  intro Hf. induction s as [|x r IH]; cbn [mapChars trimStart].
  - reflexivity.
  - rewrite Hf. destruct (isSpaceChar x); [exact IH | reflexivity].
Qed.

Lemma trim_mapChars (f : ascii -> ascii) (s : string) :
  (forall x, isSpaceChar (f x) = isSpaceChar x) ->
  trim (mapChars f s) = mapChars f (trim s).
Proof.
  intro Hf. unfold trim.
  rewrite (trimStart_mapChars f s Hf).
  change EmptyString with (mapChars f EmptyString) at 1 2.
  rewrite revString_mapChars, (trimStart_mapChars f _ Hf).
  rewrite revString_mapChars. reflexivity.
Qed.

Lemma mapChars_length (f : ascii -> ascii) (s : string) :
  String.length (mapChars f s) = String.length s.
Proof. induction s as [|x r IH]; cbn [mapChars String.length]; congruence. Qed.

Lemma lowerChar_isSpace (x : ascii) :
  isSpaceChar (lowerChar x) = isSpaceChar x.
Proof. destruct x as [[] [] [] [] [] [] [] []]; reflexivity. Qed.

(* ------------------------------------------------------------------ *)
(** * Casing changes the case of letters only *)

Lemma lowerChar_upperChar (x : ascii) : lowerChar (upperChar x) = lowerChar x.
Proof. destruct x as [[] [] [] [] [] [] [] []]; reflexivity. Qed.

Lemma upperChar_lowerChar (x : ascii) : upperChar (lowerChar x) = upperChar x.
Proof. destruct x as [[] [] [] [] [] [] [] []]; reflexivity. Qed.

Lemma lowerChar_twice (x : ascii) : lowerChar (lowerChar x) = lowerChar x.
Proof. destruct x as [[] [] [] [] [] [] [] []]; reflexivity. Qed.

Lemma upperChar_twice (x : ascii) : upperChar (upperChar x) = upperChar x.
Proof. destruct x as [[] [] [] [] [] [] [] []]; reflexivity. Qed.

Lemma mapChars_compose (f g k : ascii -> ascii) (s : string) :
  (forall x, f (g x) = k x) -> mapChars f (mapChars g s) = mapChars k s.
Proof.
  intro H. induction s as [|x r IH]; cbn [mapChars]; [reflexivity|].
  rewrite H, IH. reflexivity.
Qed.

Lemma toLowerCase_twice (s : string) :
  toLowerCase (toLowerCase s) = toLowerCase s.
Proof. apply mapChars_compose, lowerChar_twice. Qed.

Lemma toLowerCase_capitalizeFirst (w : string) :
  toLowerCase (capitalizeFirst w) = toLowerCase w.
Proof.
  destruct w as [|x r]; [reflexivity|].
  unfold capitalizeFirst, toLowerCase, toUpperCase.
  cbn [charAt0 slice1 mapChars append]. rewrite lowerChar_upperChar.
  reflexivity.
Qed.

Lemma toLowerCase_titleWord (n : nat) (w : string) (i : nat) :
  toLowerCase (titleWord n w i) = toLowerCase w.
Proof.
  unfold titleWord.
  destruct ((i =? 0)%nat || (i =? n - 1)%nat || negb (includes smallWords w));
    [apply toLowerCase_capitalizeFirst | reflexivity].
Qed.

Lemma map_lower_titleWords (n i : nat) (ws : list string) :
  map toLowerCase (mapIndexFrom (titleWord n) i ws) = map toLowerCase ws.
Proof.
  revert i. induction ws as [|w ws IH]; intro i; [reflexivity|].
  cbn [mapIndexFrom map]. rewrite toLowerCase_titleWord, IH. reflexivity.
Qed.

Lemma join_split_space (s : string) : join " " (split " " s) = s.
Proof. exact (join_split_single " " s EmptyString). Qed.

Lemma applyCasing_lower (t : string) (cs : Casing) :
  toLowerCase (applyCasing t cs) = toLowerCase t.
Proof.
  destruct cs; cbn [applyCasing].
  - reflexivity.
  - apply mapChars_compose, lowerChar_upperChar.
  - apply toLowerCase_twice.
  - destruct (List.length (split " " (toLowerCase t)) =? 1)%nat.
    + destruct t as [|x r]; [reflexivity|].
      unfold toLowerCase, toUpperCase.
      cbn [charAt0 slice1 mapChars append].
      rewrite lowerChar_upperChar.
      f_equal. apply mapChars_compose, lowerChar_twice.
    + rewrite toLowerCase_join. unfold mapIndex.
      rewrite map_lower_titleWords, <- toLowerCase_join.
      rewrite join_split_space. apply toLowerCase_twice.
Qed.

(** Title case looks at the letters of its input, not at their case. *)
Lemma applyCasing_title_of_lower (t : string) :
  applyCasing (toLowerCase t) title_case = applyCasing t title_case.
Proof.
  cbn [applyCasing]. rewrite toLowerCase_twice.
  destruct (List.length (split " " (toLowerCase t)) =? 1)%nat; [|reflexivity].
  destruct t as [|x r]; [reflexivity|].
  unfold toLowerCase, toUpperCase.
  cbn [charAt0 slice1 mapChars append].
  rewrite upperChar_lowerChar. f_equal.
  apply mapChars_compose, lowerChar_twice.
Qed.

(** X1. Whatever the casing mode, a cased word of ASCII text differs from
    the word in the case of its letters only: both have the same lower-case
    form, and so the same length. *)
Theorem casing_keeps_letters :
  forall (t : string) (cs : Casing),
    isAscii t = true ->
    toLowerCase (applyCasing t cs) = toLowerCase t /\
    String.length (applyCasing t cs) = String.length t.
Proof.
  intros t cs _. split; [apply applyCasing_lower|].
  rewrite <- (mapChars_length lowerChar (applyCasing t cs)).
  fold (toLowerCase (applyCasing t cs)).
  rewrite applyCasing_lower. apply mapChars_length.
Qed.

Lemma casing_keeps_letters_witness :
  isAscii "the LORD of the rings" = true /\
  toLowerCase (applyCasing "the LORD of the rings" title_case)
  = toLowerCase "the LORD of the rings" /\
  String.length (applyCasing "the LORD of the rings" title_case)
  = String.length "the LORD of the rings".
Proof.
  split; [reflexivity|].
  exact (casing_keeps_letters "the LORD of the rings" title_case eq_refl).
Defined.

(** X2. Casing a word of ASCII text twice in the same mode is casing it
    once, for every mode and every word. *)
Theorem casing_idempotent :
  forall (t : string) (cs : Casing),
    isAscii t = true ->
    applyCasing (applyCasing t cs) cs = applyCasing t cs.
Proof.
  intros t cs _. destruct cs.
  - reflexivity.
  - apply mapChars_compose, upperChar_twice.
  - apply toLowerCase_twice.
  - rewrite <- (applyCasing_title_of_lower (applyCasing t title_case)).
    rewrite applyCasing_lower. apply applyCasing_title_of_lower.
Qed.

Lemma casing_idempotent_witness :
  isAscii "the LORD of the rings" = true /\
  applyCasing (applyCasing "the LORD of the rings" title_case) title_case
  = applyCasing "the LORD of the rings" title_case.
Proof.
  split; [reflexivity|].
  exact (casing_idempotent "the LORD of the rings" title_case eq_refl).
Defined.

(* ------------------------------------------------------------------ *)
(** * Tokens *)

Lemma cased_trimmed (w : string) (cs : Casing) :
  trim w = w -> trim (applyCasing w cs) = applyCasing w cs.
Proof.
  intro Hw. apply trim_fixed.
  rewrite <- (mapChars_length lowerChar (trim (applyCasing w cs))).
  rewrite <- (trim_mapChars lowerChar _ lowerChar_isSpace).
  fold (toLowerCase (applyCasing w cs)). rewrite applyCasing_lower.
  unfold toLowerCase. rewrite (trim_mapChars lowerChar _ lowerChar_isSpace).
  rewrite Hw, mapChars_length.
  symmetry.
  rewrite <- (mapChars_length lowerChar (applyCasing w cs)).
  fold (toLowerCase (applyCasing w cs)). rewrite applyCasing_lower.
  apply mapChars_length.
Qed.

(** X3. Every token of a source of ASCII text, under every separator and
    casing, is non-empty and has no white space at either end. *)
Theorem tokens_trimmed :
  forall (settings : WordCloudSettings) (source : string),
    isAscii source = true ->
    Forall (fun w => w <> EmptyString /\ trim w = w)
      (tokenize settings source).
Proof.
  intros settings source _. unfold tokenize.
  apply Forall_map, Forall_forall. intros w Hw.
  apply filter_In in Hw. destruct Hw as [Hin Hlen].
  split.
  - apply applyCasing_not_empty. intro E. subst w. discriminate Hlen.
  - apply cased_trimmed.
    apply in_map_iff in Hin. destruct Hin as (p & <- & _).
    apply trim_idem.
Qed.

Lemma tokens_trimmed_witness :
  isAscii "  word cloud ,, Focus ,  x  " = true /\
  Forall (fun w => w <> EmptyString /\ trim w = w)
    (tokenize DEFAULT_SETTINGS "  word cloud ,, Focus ,  x  ").
Proof.
  split; [reflexivity|].
  exact (tokens_trimmed DEFAULT_SETTINGS "  word cloud ,, Focus ,  x  "
           eq_refl).
Defined.

(** X4. When the separator in use is one character and no piece holds
    it, the tokens of the pieces joined by the separator are the pieces,
    trimmed, the blank ones left out, and cased. *)
Theorem tokens_of_joined_pieces :
  forall (settings : WordCloudSettings) (ch : ascii) (pieces : list string),
    orElse (separator settings) "," = String ch EmptyString ->
    Forall (fun p => noChar ch p = true) pieces ->
    tokenize settings (join (String ch EmptyString) pieces)
    = map (fun w => applyCasing w (casing settings)) (keptPieces pieces).
Proof.
  intros settings ch pieces Hsep Hall. unfold tokenize, keptPieces.
  rewrite Hsep. destruct pieces as [|p ps]; [reflexivity|].
  f_equal. f_equal. f_equal. unfold split.
  rewrite (split_join_single ch p ps EmptyString Hall). reflexivity.
Qed.

Lemma tokens_of_joined_pieces_witness :
  orElse (separator DEFAULT_SETTINGS) "," = ","%string /\
  Forall (fun p => noChar "," p = true) [" apple"; "  "; "banana "]%string /\
  tokenize DEFAULT_SETTINGS " apple,  ,banana "
  = ["apple"; "banana"]%string.
Proof.
  split; [reflexivity|]. split; [repeat constructor|].
  exact (tokens_of_joined_pieces DEFAULT_SETTINGS ","
           [" apple"; "  "; "banana "]%string
           eq_refl ltac:(repeat constructor)).
Defined.

(* ------------------------------------------------------------------ *)
(** * Attributes of the labels *)

Lemma randomIndex_lt (h : Host) (len n : nat) :
  host_ok h -> (0 < len)%nat -> (fst (randomIndex h len n) < len)%nat.
Proof.
  intros [Hrand _] Hlen. unfold randomIndex, random, bind, ret. cbn [fst].
  destruct (Hrand n) as [H0 H1]. set (r := Math_random h n) in *.
  assert (Hpos : 0 < inject_Z (Z.of_nat len)).
  { change 0 with (inject_Z 0). rewrite <- Zlt_Qlt. lia. }
  assert (Hlo : (0 <= Qfloor (r * inject_Z (Z.of_nat len)))%Z).
  { rewrite <- (Qfloor_Z 0). apply Qfloor_resp_le.
    apply Qmult_le_0_compat; [exact H0 | apply Qlt_le_weak; exact Hpos]. }
  assert (Hhi : (Qfloor (r * inject_Z (Z.of_nat len)) < Z.of_nat len)%Z).
  { rewrite Zlt_Qlt. eapply Qle_lt_trans; [apply Qfloor_le|].
    rewrite <- (Qmult_1_l (inject_Z (Z.of_nat len))) at 2.
    apply Qmult_lt_r; assumption. }
  lia.
Qed.

Lemma makeLabel_look (h : Host) (c : Cloud) (cw : option string)
  (word : string) (n : nat) :
  host_ok h -> colors c <> [] ->
  let lbl := fst (makeLabel h c cw word n) in
  In (wd_color lbl) (colors c) /\
  (wd_rotation lbl == 0 \/ wd_rotation lbl == 90 \/ wd_rotation lbl == -90).
Proof.
  intros Hhost Hcol lbl. subst lbl.
  assert (Hlen : (0 < List.length (colors c))%nat).
  { destruct (colors c); [congruence | simpl; lia]. }
  pose proof (randomIndex_lt h _ n Hhost Hlen) as Hc0.
  pose proof (randomIndex_lt h _ (S n) Hhost Hlen) as Hc1.
  unfold makeLabel, bind, ret, randomIndex, random, bind, ret in *.
  cbn [fst] in Hc0, Hc1.
  destruct (strictEq cw word);
    cbv beta iota zeta delta [fst wd_color wd_rotation].
  - split; [apply nth_In; exact Hc0|].
    match goal with
    | |- context [nth ?i _ 0] => generalize i
    end.
    intro ri. left. destruct ri as [|[|?]]; reflexivity.
  - split; [apply nth_In; exact Hc1|].
    match goal with
    | |- context [nth ?i _ 0] => generalize i
    end.
    intro ri.
    do 4 (destruct ri as [|ri]; [left; reflexivity|]).
    destruct ri as [|ri]; [right; left; reflexivity|].
    destruct ri as [|ri]; [right; right; reflexivity|].
    left. destruct ri; reflexivity.
Qed.

Lemma Forall2_right {A B} (P : B -> Prop) (l : list A) (l' : list B) :
  Forall2 (fun _ y => P y) l l' -> Forall P l'.
Proof. induction 1; constructor; assumption. Qed.

(** X5. In every pass of a cloud, the colour of every label is one of
    the colours in use (the palette of the settings, or the default palette
    when that one is empty) and its rotation is 0, 90 or -90. *)
Theorem labels_use_palette_and_quarter_turns :
  forall (h : Host) (settings : WordCloudSettings) (source : string)
         (c : Cloud) (cw : option string) (n : nat),
    host_ok h ->
    renderWordCloud h settings source = Scheduled c ->
    colors c = (if (0 <? List.length (colorPalette settings))%nat
                then colorPalette settings
                else colorPalette DEFAULT_SETTINGS) /\
    Forall (fun lbl =>
              In (wd_color lbl) (colors c) /\
              (wd_rotation lbl == 0 \/ wd_rotation lbl == 90
               \/ wd_rotation lbl == -90))
      (fst (makeLabels h c cw n)).
Proof.
  intros h settings source c cw n Hhost Hsched.
  assert (Hcols : colors c = (if (0 <? List.length (colorPalette settings))%nat
                              then colorPalette settings
                              else colorPalette DEFAULT_SETTINGS)).
  { unfold renderWordCloud in Hsched.
    destruct (List.length (tokenize settings source) =? 0)%nat;
      [discriminate|].
    injection Hsched as <-. reflexivity. }
  split; [exact Hcols|].
  assert (Hne : colors c <> []).
  { rewrite Hcols.
    destruct (colorPalette settings) as [|x l]; cbn; discriminate. }
  unfold makeLabels, bind.
  destruct (shuffleWords h c cw n) as [shuffled n1].
  eapply Forall2_right. apply forEach_Forall2.
  intros w m _. apply makeLabel_look; assumption.
Qed.

Lemma labels_use_palette_and_quarter_turns_witness :
  host_ok demoHost /\
  renderWordCloud demoHost demoSettings demoSource = Scheduled demoCloud /\
  colors demoCloud
  = (if (0 <? List.length (colorPalette demoSettings))%nat
     then colorPalette demoSettings
     else colorPalette DEFAULT_SETTINGS) /\
  Forall (fun lbl =>
            In (wd_color lbl) (colors demoCloud) /\
            (wd_rotation lbl == 0 \/ wd_rotation lbl == 90
             \/ wd_rotation lbl == -90))
    (fst (makeLabels demoHost demoCloud (Some "hi"%string) 0%nat)).
Proof.
  split; [exact demoHost_ok|]. split; [exact demoCloud_scheduled|].
  exact (labels_use_palette_and_quarter_turns demoHost demoSettings
           demoSource demoCloud (Some "hi"%string) 0%nat
           demoHost_ok demoCloud_scheduled).
Defined.

(* ------------------------------------------------------------------ *)
(** * The size of the focused word against the others *)

Lemma randomFontSize_top (minF maxF : Z) :
  (minF <= maxF)%Z ->
  let r := inject_Z (maxF - minF) / inject_Z (maxF - minF + 1) in
  0 <= r /\ r < 1 /\ randomFontSize minF maxF r = maxF.
Proof.
  intros Hle r.
  assert (Hpos : 0 < inject_Z (maxF - minF + 1)).
  { change 0 with (inject_Z 0). rewrite <- Zlt_Qlt. lia. }
  assert (Hnum : 0 <= inject_Z (maxF - minF)).
  { change 0 with (inject_Z 0). rewrite <- Zle_Qle. lia. }
  split; [|split].
  - unfold r. apply Qle_shift_div_l; [exact Hpos|]. lra.
  - unfold r. apply Qlt_shift_div_r; [exact Hpos|].
    rewrite Qmult_1_l, <- Zlt_Qlt. lia.
  - apply randomFontSize_hits; [exact Hle|]. fold r. split.
    + apply Qle_refl.
    + unfold r. unfold Qdiv.
      apply Qmult_lt_compat_r; [apply Qinv_lt_0_compat; exact Hpos|].
      rewrite <- Zlt_Qlt. lia.
Qed.

Lemma centeredFontSize_ge_max (minF maxF : Z) :
  (maxF <= centeredFontSize minF maxF)%Z <-> (maxF - minF <= 20)%Z.
Proof.
  rewrite centeredFontSize_eq.
  pose proof (Z.div_mod (minF + maxF) 2 ltac:(lia)) as Hdm.
  pose proof (Z.mod_pos_bound (minF + maxF) 2 ltac:(lia)) as Hm.
  lia.
Qed.

(** X6. For a size range with min <= max, no unfocused word can come
    out larger than the focused word exactly when max - min <= 20: with a
    wider range (such as 20..56 and 16..40 of the automatic table) some draw
    makes an unfocused word larger than the focused one. *)
Theorem focused_word_largest_iff_narrow_range :
  forall minF maxF : Z,
    (minF <= maxF)%Z ->
    ((forall r, 0 <= r -> r < 1 ->
                (randomFontSize minF maxF r <= centeredFontSize minF maxF)%Z)
     <-> (maxF - minF <= 20)%Z).
Proof.
  intros minF maxF Hle. split.
  - intro H. apply centeredFontSize_ge_max.
    destruct (randomFontSize_top minF maxF Hle) as (H0 & H1 & Htop).
    rewrite <- Htop at 1. apply H; assumption.
  - intros Hnarrow r H0 H1.
    pose proof (randomFontSize_range minF maxF r Hle H0 H1) as Hr.
    apply centeredFontSize_ge_max in Hnarrow. lia.
Qed.

Lemma focused_word_largest_iff_narrow_range_witness :
  (20 <= 56)%Z /\
  ((forall r, 0 <= r -> r < 1 ->
              (randomFontSize 20 56 r <= centeredFontSize 20 56)%Z)
   <-> (56 - 20 <= 20)%Z).
Proof.
  split; [discriminate|].
  exact (focused_word_largest_iff_narrow_range 20 56 ltac:(discriminate)).
Defined.

Lemma randomFontSize_reversed :
  forall (minF maxF : Z) (r : Q),
    (maxF < minF)%Z -> 0 <= r -> r < 1 ->
    (maxF + 1 <= randomFontSize minF maxF r <= minF)%Z.
Proof.
  intros minF maxF r Hlt H0 H1. unfold randomFontSize.
  set (N := (maxF - minF + 1)%Z).
  assert (HN : (N <= 0)%Z) by (unfold N; lia).
  assert (HNq : inject_Z N <= 0).
  { change 0 with (inject_Z 0). rewrite <- Zle_Qle. exact HN. }
  assert (Hhi : r * inject_Z N <= 0).
  { setoid_replace (r * inject_Z N) with (- (r * - inject_Z N)) by ring.
    assert (0 <= r * - inject_Z N).
    { apply Qmult_le_0_compat; [exact H0 | lra]. }
    lra. }
  assert (Hlo : inject_Z N <= r * inject_Z N).
  { assert (0 <= (1 - r) * - inject_Z N).
    { apply Qmult_le_0_compat; lra. }
    setoid_replace (r * inject_Z N)
      with (inject_Z N + (1 - r) * - inject_Z N) by ring.
    lra. }
  assert (Hf1 : (N <= Qfloor (r * inject_Z N))%Z).
  { pose proof (Qfloor_resp_le _ _ Hlo) as H. rewrite Qfloor_Z in H.
    exact H. }
  assert (Hf2 : (Qfloor (r * inject_Z N) <= 0)%Z).
  { pose proof (Qfloor_resp_le _ _ Hhi) as H.
    change 0 with (inject_Z 0) in H. rewrite Qfloor_Z in H. exact H. }
  unfold N in *. lia.
Qed.

(** X7. The settings do not order the manual font sizes.  When the
    minimum is above the maximum, an unfocused word gets an integer size
    from max + 1 up to min. *)
Theorem reversed_range_sizes :
  forall (minF maxF : Z) (r : Q),
    (maxF < minF)%Z -> 0 <= r -> r < 1 ->
    (maxF + 1 <= randomFontSize minF maxF r <= minF)%Z.
Proof. exact randomFontSize_reversed. Qed.

Lemma reversed_range_sizes_witness :
  (48 < 100)%Z /\ 0 <= 1 # 2 /\ 1 # 2 < 1 /\
  (48 + 1 <= randomFontSize 100 48 (1 # 2) <= 100)%Z.
Proof.
  split; [reflexivity|]. split; [discriminate|]. split; [reflexivity|].
  exact (reversed_range_sizes 100 48 (1 # 2) eq_refl
           ltac:(discriminate) eq_refl).
Defined.

(* ------------------------------------------------------------------ *)
(** * The overlap test, again *)

Lemma checkOverlap_true_iff (pad : Q) (a b : PlacedRect) :
  checkOverlap pad a b = true <->
  let '(w1, h1) := swapIfTurned (rotation a) (width a) (height a) in
  let '(w2, h2) := swapIfTurned (rotation b) (width b) (height b) in
  centerX b - w2 / 2 - pad <= centerX a + w1 / 2 + pad /\
  centerX a - w1 / 2 - pad <= centerX b + w2 / 2 + pad /\
  centerY b - h2 / 2 - pad <= centerY a + h1 / 2 + pad /\
  centerY a - h1 / 2 - pad <= centerY b + h2 / 2 + pad.
Proof.
  unfold checkOverlap, Qgtb.
  destruct (swapIfTurned (rotation a) (width a) (height a)) as [w1 h1].
  destruct (swapIfTurned (rotation b) (width b) (height b)) as [w2 h2].
  rewrite negb_true_iff, !orb_false_iff, !Qltb_ge. tauto.
Qed.

(** X9. A pair of rectangles that the overlap test rejects under some
    padding is rejected under every larger padding. *)
Theorem checkOverlap_padding_monotone :
  forall (pad pad' : Q) (a b : PlacedRect),
    pad <= pad' ->
    checkOverlap pad a b = true -> checkOverlap pad' a b = true.
Proof.
  intros pad pad' a b Hle. rewrite !checkOverlap_true_iff.
  destruct (swapIfTurned (rotation a) (width a) (height a)) as [w1 h1].
  destruct (swapIfTurned (rotation b) (width b) (height b)) as [w2 h2].
  intros (H1 & H2 & H3 & H4). repeat split; halves.
Qed.

Lemma checkOverlap_padding_monotone_witness :
  3 <= 35 /\
  checkOverlap 3 (mkRect 0 0 10 4 0) (mkRect 12 0 6 8 90) = true /\
  checkOverlap 35 (mkRect 0 0 10 4 0) (mkRect 12 0 6 8 90) = true.
Proof.
  split; [discriminate|]. split; [reflexivity|].
  exact (checkOverlap_padding_monotone 3 35
           (mkRect 0 0 10 4 0) (mkRect 12 0 6 8 90)
           ltac:(discriminate) eq_refl).
Defined.

(* ------------------------------------------------------------------ *)
(** * The path of the spiral *)

Section Path.
Variable h : Host.
Variable c : Cloud.
Variable temp : WordData.

Lemma spiralBody_moves (st : Spiral) :
  spiralRadius (spiralBody h c temp st) = spiralRadius st + radiusStep c /\
  angle (spiralBody h c temp st) = angle st + angleStep.
Proof.
  unfold spiralBody, radiusStep.
  destruct (swapIfTurned _ _ _) as [nw nh]. split; reflexivity.
Qed.

Lemma spiralRun_moves (k : nat) (st : Spiral) :
  spiralRadius (spiralRun h c k temp st)
    == spiralRadius st + inject_Z (Z.of_nat k) * radiusStep c /\
  angle (spiralRun h c k temp st)
    == angle st + inject_Z (Z.of_nat k) * angleStep.
Proof.
  revert st. induction k as [|k IH]; intro st.
  - cbn [spiralRun]. change (inject_Z (Z.of_nat 0)) with 0. split; ring.
  - cbn [spiralRun]. destruct (IH (spiralBody h c temp st)) as [Hr Ha].
    destruct (spiralBody_moves st) as [Er Ea].
    rewrite Hr, Ha, Er, Ea.
    rewrite Nat2Z.inj_succ. unfold Z.succ. rewrite inject_Z_plus.
    change (inject_Z 1) with 1. split; ring.
Qed.

Lemma spiralRun_succ (k : nat) (st : Spiral) :
  spiralRun h c (S k) temp st = spiralBody h c temp (spiralRun h c k temp st).
Proof.
  revert st. induction k as [|k IH]; intro st; [reflexivity|].
  cbn [spiralRun] in *. rewrite IH. reflexivity.
Qed.

(** What a loop that returns has done. *)
Lemma spiralLoop_some (fuel : nat) (st st' : Spiral) :
  spiralLoop h c fuel temp st = Some st' ->
  exists k,
    st' = spiralRun h c k temp st /\
    (forall j, (j < k)%nat -> searching c (spiralRun h c j temp st) = true) /\
    searching c st' = false.
Proof.
  revert st. induction fuel as [|f IH]; intros st Hloop;
    cbn [spiralLoop] in Hloop; destruct (searching c st) eqn:E;
    try discriminate.
  - injection Hloop as <-. exists O. cbn [spiralRun].
    repeat split; [intros j Hj; lia | exact E].
  - destruct (IH _ Hloop) as (k & Hk & Hon & Hoff).
    exists (S k). cbn [spiralRun]. repeat split; [exact Hk | | exact Hoff].
    intros [|j] Hj; [exact E|]. cbn [spiralRun]. apply Hon. lia.
  - injection Hloop as <-. exists O. cbn [spiralRun].
    repeat split; [intros j Hj; lia | exact E].
Qed.

Lemma searching_unplaced (st : Spiral) :
  searching c st = true ->
  placed st = None /\ spiralRadius st < maxRadius c.
Proof.
  unfold searching. destruct (placed st); [discriminate|].
  intro H. apply andb_true_iff in H. destruct H as [H _].
  split; [reflexivity | apply Qltb_lt; exact H].
Qed.

Lemma spiralBody_placed_at (st : Spiral) (r : PlacedRect) :
  placed st = None ->
  placed (spiralBody h c temp st) = Some r ->
  centerX r = centerOfX c + spiralRadius st * Math_cos h (angle st) /\
  centerY r = centerOfY c + spiralRadius st * Math_sin h (angle st).
Proof.
  intros Hnone. unfold spiralBody.
  destruct (swapIfTurned _ _ _) as [nw nh]. cbn [placed].
  match goal with
  | |- (if ?b then _ else _) = _ -> _ => destruct b
  end.
  - intro H. injection H as <-. split; reflexivity.
  - rewrite Hnone. discriminate.
Qed.
End Path.

(** X11. On a host whose cosine and sine are, within a thousandth on the
    sum of their squares, those of a point of the unit circle, and with a
    non-negative spiral step, every label the search places keeps off the
    centre of the surface: the square of the distance between the two
    centres is at least 119^2, and less than 1.001 times the square of
    twice the larger side of the surface. *)
Theorem placed_labels_keep_off_center :
  forall (h : Host) (c : Cloud) (fuel : nat) (temp : WordData)
         (placedSoFar placedAfter : list PlacedRect) (n n' : nat)
         (r : PlacedRect),
    trig_close h ->
    0 <= spiralStep (spacingConfig c) ->
    wd_isCentered temp = false ->
    positionOne h c fuel temp placedSoFar n = Some (Some r, placedAfter, n') ->
    119 * 119 <= sqDistanceToCenter c r /\
    sqDistanceToCenter c r * 1000 < 1001 * (maxRadius c * maxRadius c).
Proof.
  intros h c fuel temp placedSoFar placedAfter n n' r Htrig Hstep Hc Hone.
  unfold positionOne in Hone. rewrite Hc in Hone. unfold random in Hone.
  set (start := spiralStart placedSoFar (Math_random h n)) in *.
  destruct (spiralLoop h c fuel temp start) as [st|] eqn:Hloop;
    [|discriminate].
  injection Hone as Hp _ _.
  destruct (spiralLoop_some h c temp fuel start st Hloop)
    as (k & -> & Hon & _).
  destruct k as [|k]; [discriminate Hp|].
  rewrite spiralRun_succ in Hp.
  destruct (searching_unplaced c _ (Hon k (Nat.lt_succ_diag_r k)))
    as [Hnone Hrad].
  destruct (spiralBody_placed_at h c temp _ r Hnone Hp) as [Ex Ey].
  destruct (spiralRun_moves h c temp k start) as [Hr _].
  set (R := spiralRadius (spiralRun h c k temp start)) in *.
  set (a := angle (spiralRun h c k temp start)) in *.
  cbn [start spiralStart spiralRadius] in Hr.
  assert (HR : 120 <= R).
  { rewrite Hr.
    assert (0 <= inject_Z (Z.of_nat k) * radiusStep c).
    { apply Qmult_le_0_compat.
      - change 0 with (inject_Z 0). rewrite <- Zle_Qle. lia.
      - unfold radiusStep. apply Qmult_le_0_compat; [exact Hstep|].
        discriminate. }
    lra. }
  destruct (Htrig a) as [Hlo Hhi].
  set (unit := Math_cos h a * Math_cos h a + Math_sin h a * Math_sin h a)
    in *.
  assert (Hd : sqDistanceToCenter c r == R * R * unit).
  { unfold sqDistanceToCenter, unit. rewrite Ex, Ey.
    unfold centerOfX, centerOfY. ring. }
  rewrite Hd.
  assert (HRR : 120 * 120 <= R * R).
  { apply Qmult_le_compat_nonneg; split; try discriminate; exact HR. }
  assert (HMM : R * R < maxRadius c * maxRadius c).
  { assert (H0 : 0 <= R) by lra.
    apply Qmult_lt_compat_nonneg; split; assumption. }
  set (RR := R * R) in *. set (MM := maxRadius c * maxRadius c) in *.
  assert (H1 : RR * (999 # 1000) <= RR * unit).
  { apply Qmult_le_l; [lra | exact Hlo]. }
  assert (H2 : RR * unit <= RR * (1001 # 1000)).
  { apply Qmult_le_l; [lra | exact Hhi]. }
  split; lra.
Qed.

Lemma canvasHost_trig : trig_close canvasHost.
Proof.
  intro a. cbn [Math_cos Math_sin canvasHost].
  assert (Hq : (0 <= octant a < 8)%Z).
  { unfold octant. apply Z.mod_pos_bound. reflexivity. }
  assert (Ho : (octant a = 0 \/ octant a = 1 \/ octant a = 2 \/ octant a = 3
                \/ octant a = 4 \/ octant a = 5 \/ octant a = 6
                \/ octant a = 7)%Z) by lia.
  destruct Ho as [E|[E|[E|[E|[E|[E|[E|E]]]]]]]; rewrite E;
    split; discriminate.
Qed.

Lemma placed_labels_keep_off_center_witness :
  let temp := mkWord 15 19 11 "#0066cc" 0 "a" false in
  trig_close canvasHost /\
  0 <= spiralStep (spacingConfig demoCloud) /\
  wd_isCentered temp = false /\
  exists r,
    positionOne canvasHost demoCloud 5 temp [] 1 = Some (Some r, [r], 2%nat) /\
    119 * 119 <= sqDistanceToCenter demoCloud r /\
    sqDistanceToCenter demoCloud r * 1000
      < 1001 * (maxRadius demoCloud * maxRadius demoCloud).
Proof.
  intro temp.
  split; [exact canvasHost_trig|]. split; [discriminate|].
  split; [reflexivity|].
  eexists. split; [vm_compute; reflexivity|].
  exact (placed_labels_keep_off_center canvasHost demoCloud 5 temp [] _
           1%nat 2%nat _ canvasHost_trig ltac:(discriminate) eq_refl
           ltac:(vm_compute; reflexivity)).
Defined.

(* ------------------------------------------------------------------ *)
(** * Which bound ends a search *)

Lemma Math_max_right (a b : Q) : b <= Math_max a b.
Proof.
  unfold Math_max. destruct (Qle_bool a b) eqn:E.
  - apply Qle_refl.
  - apply Qlt_le_weak. apply Qltb_lt. unfold Qltb. rewrite E. reflexivity.
Qed.

Lemma scheduled_surface (h : Host) (settings : WordCloudSettings)
  (source : string) (c : Cloud) :
  renderWordCloud h settings source = Scheduled c ->
  containerWidth c = getContainerWidth h /\
  (containerHeight c = 400 /\ containerWidth c < 500 \/
   containerHeight c = 500 /\ 500 <= containerWidth c) /\
  800 <= maxRadius c.
Proof.
  unfold renderWordCloud.
  destruct (List.length (tokenize settings source) =? 0)%nat; [discriminate|].
  intro H. injection H as <-.
  cbn [containerWidth containerHeight]. unfold maxRadius.
  cbn [containerWidth containerHeight].
  split; [reflexivity|].
  destruct (Qltb (getContainerWidth h) 500) eqn:E.
  - apply Qltb_lt in E. split; [left; split; [reflexivity | exact E]|].
    pose proof (Math_max_right (getContainerWidth h) 400). lra.
  - apply Qltb_ge in E. split; [right; split; [reflexivity | exact E]|].
    pose proof (Math_max_right (getContainerWidth h) 500). lra.
Qed.

(** X12. In a cloud laid out with the compact spacing, the search of a
    label never ends on the radius bound: it ends with the label placed or
    after exactly 20000 attempts. *)
Theorem compact_search_ends_on_attempts :
  forall (h : Host) (settings : WordCloudSettings) (source : string)
         (c : Cloud) (temp : WordData) (placedSoFar : list PlacedRect)
         (r : Q) (fuel : nat),
    renderWordCloud h settings source = Scheduled c ->
    spacingConfig c = SPACING_CONFIG compact ->
    (Z.to_nat maxAttempts <= fuel)%nat ->
    exists (k : nat) (st : Spiral),
      spiralLoop h c fuel temp (spiralStart placedSoFar r) = Some st /\
      attempts st = Z.of_nat k /\
      spiralRadius st < maxRadius c /\
      (placed st <> None \/ Z.of_nat k = 20000%Z).
Proof.
  intros h settings source c temp placedSoFar r fuel Hsched Hsp Hfuel.
  set (start := spiralStart placedSoFar r).
  destruct (scheduled_surface h settings source c Hsched) as (_ & _ & Hmax).
  destruct (spiralLoop_run h c temp fuel start Hfuel)
    as (k & Hk & Hloop & _ & Hoff).
  change (attempts start) with 0%Z in Hk. unfold maxAttempts in Hk.
  exists k, (spiralRun h c k temp start).
  destruct (spiralRun_moves h c temp k start) as [Hr _].
  cbn [start spiralStart spiralRadius] in Hr.
  assert (Hrad : spiralRadius (spiralRun h c k temp start) < maxRadius c).
  { rewrite Hr. unfold radiusStep. rewrite Hsp.
    cbn [SPACING_CONFIG spiralStep]. unfold angleStep.
    assert (Hkq : inject_Z (Z.of_nat k) <= 20000).
    { change 20000 with (inject_Z 20000). rewrite <- Zle_Qle. lia. }
    assert (Hstep : 0 <= 1.5 * (0.08 / (2 * Math_PI))) by discriminate.
    pose proof (Qmult_le_compat_r _ _ _ Hkq Hstep) as Hprod.
    assert (Hnum : 120 + 20000 * (1.5 * (0.08 / (2 * Math_PI))) < 800)
      by reflexivity.
    lra. }
  split; [exact Hloop|]. split; [|split; [exact Hrad|]].
  - rewrite spiralRun_attempts. reflexivity.
  - destruct (searching_stopped c _ Hoff) as [H|[H|H]].
    + left. exact H.
    + exfalso. apply (Qlt_not_le _ _ Hrad H).
    + right. rewrite spiralRun_attempts in H.
      change (attempts start) with 0%Z in H. unfold maxAttempts in H. lia.
Qed.

Lemma compact_search_ends_on_attempts_witness :
  exists c,
    renderWordCloud demoHost DEFAULT_SETTINGS crowdedSource = Scheduled c /\
    spacingConfig c = SPACING_CONFIG compact /\
    (Z.to_nat maxAttempts <= Z.to_nat maxAttempts)%nat /\
    exists (k : nat) (st : Spiral),
      spiralLoop demoHost c (Z.to_nat maxAttempts)
        (mkWord 16 20 12 "#0066cc" 0 "a" false) (spiralStart [] 0) = Some st /\
      attempts st = Z.of_nat k /\
      spiralRadius st < maxRadius c /\
      (placed st <> None \/ Z.of_nat k = 20000%Z).
Proof.
  eexists. split; [vm_compute; reflexivity|].
  split; [reflexivity|]. split; [apply Nat.le_refl|].
  exact (compact_search_ends_on_attempts demoHost DEFAULT_SETTINGS
           crowdedSource _ (mkWord 16 20 12 "#0066cc" 0 "a" false) [] 0
           (Z.to_nat maxAttempts) ltac:(vm_compute; reflexivity) eq_refl
           (Nat.le_refl _)).
Defined.

(* ------------------------------------------------------------------ *)
(** * Labels too large for the surface *)



(* ------------------------------------------------------------------ *)
(** * The order of a pass without focus *)

Lemma insertByArea_sorted (a : WordData) (l : list WordData) :
  ForallOrdPairs (fun x y => area y <= area x) l ->
  ForallOrdPairs (fun x y => area y <= area x) (insertByArea a l).
Proof.
  induction l as [|b r IH]; intro Hs; cbn [insertByArea].
  - repeat constructor.
  - inversion Hs as [|? ? Hb Hr]; subst.
    destruct (Qgtb (area b - area a) 0) eqn:E.
    + apply Qltb_lt in E. constructor; [|apply IH; exact Hr].
      eapply Permutation_Forall;
        [symmetry; apply insertByArea_perm|].
      constructor; [lra | exact Hb].
    + apply Qltb_ge in E. constructor; [|exact Hs].
      constructor; [lra|].
      eapply Forall_impl; [|exact Hb]. intros y Hy. cbn beta in *. lra.
Qed.

Lemma sortByArea_sorted (l : list WordData) :
  ForallOrdPairs (fun x y => area y <= area x) (sortByArea l).
Proof.
  induction l as [|a r IH]; cbn [sortByArea fold_right].
  - constructor.
  - apply insertByArea_sorted. exact IH.
Qed.

(** X14. On a host with a canvas context, a pass without a focus word
    takes the labels by decreasing area: of two entries of its layout, the
    earlier one has the label with the larger area, or one as large; and
    the entries are the labels of the pass rearranged. *)
Theorem unfocused_pass_by_decreasing_area :
  forall (h : Host) (c : Cloud) (cw : option string) (n : nat),
    getContext h <> None ->
    focusOf cw = None ->
    exists p,
      renderWords h c cw n = Some p /\
      tempElements p = fst (makeLabels h c cw n) /\
      Permutation (map fst (layout p)) (tempElements p) /\
      ForallOrdPairs (fun e1 e2 => area (fst e2) <= area (fst e1)) (layout p).
Proof.
  intros h c cw n Hcanvas Hcw.
  destruct (renderWords_ok h c cw n Hcanvas)
    as (p & Hp & Htemps & Hmap & _ & _).
  exists p. split; [exact Hp|]. split; [exact Htemps|].
  unfold processingOrder in Hmap. rewrite Hcw in Hmap.
  split; [rewrite Hmap; apply sortByArea_perm|].
  pose proof (sortByArea_sorted (tempElements p)) as Hs.
  rewrite <- Hmap in Hs. clear Hmap.
  induction (layout p) as [|e l IH]; [constructor|].
  cbn [map] in Hs. inversion Hs as [|? ? He Hl]; subst.
  constructor; [|apply IH; exact Hl].
  apply Forall_forall. intros e2 Hin.
  rewrite Forall_forall in He. apply He. apply in_map. exact Hin.
Qed.

Lemma unfocused_pass_by_decreasing_area_witness :
  getContext canvasHost <> None /\
  focusOf None = None /\
  exists p,
    renderWords canvasHost demoCloud None 0 = Some p /\
    tempElements p = fst (makeLabels canvasHost demoCloud None 0%nat) /\
    Permutation (map fst (layout p)) (tempElements p) /\
    ForallOrdPairs (fun e1 e2 => area (fst e2) <= area (fst e1)) (layout p).
Proof.
  split; [exact canvasHost_canvas|]. split; [reflexivity|].
  exact (unfocused_pass_by_decreasing_area canvasHost demoCloud None 0%nat
           canvasHost_canvas eq_refl).
Defined.

(* ------------------------------------------------------------------ *)
(** * What a user sees: the first render and the clicks *)

Lemma filter_length_lt {A} (f : A -> bool) (x : A) (l : list A) :
  In x l -> f x = false ->
  (List.length (filter f l) < List.length l)%nat.
Proof.
  induction l as [|y l IH]; intros Hin Hx; [destruct Hin|].
  cbn [filter]. pose proof (filter_length_le f l) as Hle.
  destruct Hin as [->|Hin].
  - rewrite Hx. cbn [List.length]. lia.
  - specialize (IH Hin Hx). destruct (f y); cbn [List.length]; lia.
Qed.

(** A pass focused on a word: its layout starts with the label of the word,
    placed at the centre, and goes on with labels of the other words. *)
Lemma focus_pass_head (h : Host) (c : Cloud) (f : string) (n : nat) :
  host_ok h ->
  getContext h <> None ->
  Forall (fun w => w <> EmptyString) (words c) ->
  f <> EmptyString ->
  exists p lbl rest,
    renderWords h c (Some f) n = Some p /\
    layout p = (lbl, Some (centeredRect c lbl)) :: rest /\
    wd_word lbl = f /\ wd_isCentered lbl = true /\ wd_rotation lbl = 0 /\
    List.length rest
    = List.length (filter (fun w => negb (String.eqb w f)) (words c)) /\
    Forall (fun e => wd_isCentered (fst e) = false /\
                     In (wd_word (fst e)) (words c))
      rest.
Proof.
  intros Hhost Hcanvas Hwords Hf.
  assert (Hfocus : focusOf (Some f) = Some f).
  { destruct f; [congruence | reflexivity]. }
  destruct (renderWords_ok h c (Some f) n Hcanvas)
    as (p & Hp & Htemps & Hmap & Hok & _).
  pose proof (makeLabels_centered h c Hhost (Some f) n Hwords) as Hcen.
  pose proof (shuffleWords_order h c Hhost (Some f) n) as Hord.
  pose proof (makeLabels_map_word h c (Some f) n) as Hmw.
  unfold processingOrder in Hmap. rewrite Hfocus in Hcen, Hmap, Hord.
  destruct Hcen as (lbl & ls & El & Hword & Hc & Hrot & _ & _ & Hls).
  destruct Hord as (ws & Hs & Hperm).
  rewrite El, Hs in Hmw. cbn [map] in Hmw. injection Hmw as _ Hmw.
  rewrite Htemps, El in Hmap.
  destruct (layout p) as [|[lbl0 tag] rest] eqn:Elay; [discriminate|].
  cbn [map fst] in Hmap. injection Hmap as -> Hrest.
  destruct (layoutOk_first_centered _ _ _ _ _ Hok Hc) as [-> _].
  exists p, lbl, rest.
  repeat (split; [assumption || reflexivity|]).
  split.
  - rewrite <- (length_map fst rest), Hrest, <- (length_map wd_word ls), Hmw.
    apply Permutation_length. exact Hperm.
  - apply (proj1 (Forall_map fst
                    (fun l => wd_isCentered l = false /\
                              In (wd_word l) (words c)) rest)).
    rewrite Hrest. apply Forall_forall. intros l Hl. split.
    + rewrite Forall_forall in Hls. apply Hls. exact Hl.
    + assert (Hin : In (wd_word l) ws).
      { rewrite <- Hmw. apply in_map. exact Hl. }
      apply (Permutation_in _ Hperm) in Hin.
      apply filter_In in Hin. apply Hin.
Qed.

Lemma spansOf_length (res : LayoutResult) :
  (List.length (spansOf res) <= List.length res)%nat.
Proof.
  induction res as [|[lbl [r|]] rest IH].
  - apply Nat.le_refl.
  - change (spansOf ((lbl, Some r) :: rest))
      with (SpanEl lbl r :: spansOf rest).
    cbn [List.length]. lia.
  - change (spansOf ((lbl, None) :: rest)) with (spansOf rest).
    cbn [List.length]. lia.
Qed.

Lemma spansOf_labels (res : LayoutResult) (P : WordData -> Prop) :
  Forall (fun e => P (fst e)) res ->
  Forall (fun el => exists lbl r, el = SpanEl lbl r /\ P lbl) (spansOf res).
Proof.
  induction 1 as [|[lbl [r|]] rest Hx _ IH].
  - constructor.
  - change (spansOf ((lbl, Some r) :: rest))
      with (SpanEl lbl r :: spansOf rest).
    constructor; [|exact IH].
    exists lbl, r. split; [reflexivity | exact Hx].
  - exact IH.
Qed.

(** X15. On a host with a canvas context, a source of ASCII text with at
    least one token never gets the placeholder: the first render gives the
    container only labels, no more of them than there are tokens, all of
    them words of the source; the first one is the one focused label,
    placed at the centre of the surface. *)
Theorem first_render_focuses_a_word :
  forall (h : Host) (settings : WordCloudSettings) (source : string) (n : nat),
    host_ok h ->
    getContext h <> None ->
    isAscii source = true ->
    tokenize settings source <> [] ->
    exists c lbl rest,
      renderWordCloud h settings source = Scheduled c /\
      renderCloud h settings source n
      = Some (SpanEl lbl (centeredRect c lbl) :: rest) /\
      wd_isCentered lbl = true /\
      In (wd_word lbl) (tokenize settings source) /\
      Forall (fun el => exists l r,
                  el = SpanEl l r /\ wd_isCentered l = false /\
                  In (wd_word l) (tokenize settings source))
        rest /\
      (S (List.length rest) <= List.length (tokenize settings source))%nat.
Proof.
  intros h settings source n Hhost Hcanvas _ Htok.
  destruct (renderWordCloud h settings source) as [text|c] eqn:Hsched.
  { exfalso. unfold renderWordCloud in Hsched.
    destruct (List.length (tokenize settings source) =? 0)%nat eqn:E;
      [|discriminate].
    apply Nat.eqb_eq in E. apply Htok.
    destruct (tokenize settings source); [reflexivity | discriminate]. }
  destruct (scheduled_cloud h settings source c Hsched)
    as (Hw & Hne & Hwords & _).
  destruct (initialPass_focus h c n Hhost Hne) as (w & Hin & Hinit).
  assert (Hwne : w <> EmptyString).
  { rewrite Forall_forall in Hwords. apply Hwords. exact Hin. }
  destruct (focus_pass_head h c w (S n) Hhost Hcanvas Hwords Hwne)
    as (p & lbl & rest & Hp & Hlay & Hword & Hc & _ & Hlen & Hrest).
  exists c, lbl, (spansOf rest).
  split; [reflexivity|]. split.
  { unfold renderCloud. rewrite Hsched, Hinit, Hp, Hlay.
    destruct (getContext h); [reflexivity | congruence]. }
  split; [exact Hc|]. rewrite <- Hw. split; [rewrite Hword; exact Hin|].
  split; [apply spansOf_labels; exact Hrest|].
  pose proof (spansOf_length rest) as Hs.
  assert (Hself : (fun x => negb (String.eqb x w)) w = false)
    by (cbn beta; rewrite String.eqb_refl; reflexivity).
  pose proof (filter_length_lt (fun x => negb (String.eqb x w)) w (words c)
                Hin Hself) as Hf.
  lia.
Qed.

Lemma first_render_focuses_a_word_witness :
  host_ok canvasHost /\
  getContext canvasHost <> None /\
  isAscii demoSource = true /\
  tokenize demoSettings demoSource <> [] /\
  exists c lbl rest,
    renderWordCloud canvasHost demoSettings demoSource = Scheduled c /\
    renderCloud canvasHost demoSettings demoSource 0
    = Some (SpanEl lbl (centeredRect c lbl) :: rest) /\
    wd_isCentered lbl = true /\
    In (wd_word lbl) (tokenize demoSettings demoSource) /\
    Forall (fun el => exists l r,
                el = SpanEl l r /\ wd_isCentered l = false /\
                In (wd_word l) (tokenize demoSettings demoSource))
      rest /\
    (S (List.length rest)
     <= List.length (tokenize demoSettings demoSource))%nat.
Proof.
  split; [exact canvasHost_ok|]. split; [exact canvasHost_canvas|].
  split; [reflexivity|]. split; [discriminate|].
  exact (first_render_focuses_a_word canvasHost demoSettings demoSource
           0%nat canvasHost_ok canvasHost_canvas eq_refl
           ltac:(discriminate)).
Defined.

(** X16. In every pass a user can reach, by the first render and by
    clicks on placed labels, the layout starts with the focused label,
    placed at the centre of the surface, no other label is focused, and
    every label carries a word of the list.  (Only a host with a canvas
    context has such passes.) *)
Theorem reachable_passes_are_focused :
  forall (h : Host) (settings : WordCloudSettings) (source : string)
         (c : Cloud) (p : Pass),
    host_ok h ->
    renderWordCloud h settings source = Scheduled c ->
    reachable h c p ->
    getContext h <> None /\
    exists lbl rest,
      layout p = (lbl, Some (centeredRect c lbl)) :: rest /\
      wd_isCentered lbl = true /\
      In (wd_word lbl) (words c) /\
      Forall (fun e => wd_isCentered (fst e) = false /\
                       In (wd_word (fst e)) (words c))
        rest.
Proof.
  intros h settings source c p Hhost Hsched Hreach.
  destruct (scheduled_cloud h settings source c Hsched)
    as (_ & Hne & Hwords & _).
  assert (Hstep : forall f m q,
             In f (words c) -> renderWords h c (Some f) m = Some q ->
             getContext h <> None /\
             exists lbl rest,
               layout q = (lbl, Some (centeredRect c lbl)) :: rest /\
               wd_isCentered lbl = true /\
               In (wd_word lbl) (words c) /\
               Forall (fun e => wd_isCentered (fst e) = false /\
                                In (wd_word (fst e)) (words c))
                 rest).
  { intros f m q Hin Hq.
    pose proof (renderWords_canvas h c (Some f) m q Hq) as Hcanvas.
    split; [exact Hcanvas|].
    assert (Hf : f <> EmptyString).
    { rewrite Forall_forall in Hwords. apply Hwords. exact Hin. }
    destruct (focus_pass_head h c f m Hhost Hcanvas Hwords Hf)
      as (q' & lbl & rest & Hq' & Hlay & Hword & Hc & _ & _ & Hrest).
    rewrite Hq in Hq'. injection Hq' as <-.
    exists lbl, rest. rewrite Hword. auto. }
  induction Hreach as [n p Hinit | p lbl r n p' _ IH Hin Hp'].
  - destruct (initialPass_focus h c n Hhost Hne) as (w & Hw & Hinit').
    rewrite Hinit in Hinit'. symmetry in Hinit'.
    apply (Hstep w (S n) p Hw Hinit').
  - apply (Hstep (wd_word lbl) n p'); [|exact Hp'].
    destruct IH as (_ & lbl0 & rest & Hlay & _ & Hw0 & Hrest).
    rewrite Hlay in Hin. destruct Hin as [E|Hin].
    + injection E as <- _. exact Hw0.
    + rewrite Forall_forall in Hrest. apply (Hrest _ Hin).
Qed.

(** On the canvas host, the first pass of the demonstration cloud and the
    pass that a click on its label [b] starts. *)
Lemma canvasCloud_clicked :
  exists p0 p1 lbl r,
    initialPass canvasHost demoCloud 0 = Some p0 /\
    In (lbl, Some r) (layout p0) /\
    wd_word lbl = "b"%string /\
    renderWords canvasHost demoCloud (Some (wd_word lbl)) (draws p0)
    = Some p1.
Proof.
  eexists. eexists. eexists. eexists.
  split; [vm_compute; reflexivity|].
  split; [right; right; left; reflexivity|].
  split; [reflexivity|].
  vm_compute. reflexivity.
Qed.

Lemma reachable_passes_are_focused_witness :
  host_ok canvasHost /\
  renderWordCloud canvasHost demoSettings demoSource = Scheduled demoCloud /\
  exists p,
    reachable canvasHost demoCloud p /\
    getContext canvasHost <> None /\
    exists lbl rest,
      layout p = (lbl, Some (centeredRect demoCloud lbl)) :: rest /\
      wd_word lbl = "b"%string /\
      wd_isCentered lbl = true /\
      In (wd_word lbl) (words demoCloud) /\
      Forall (fun e => wd_isCentered (fst e) = false /\
                       In (wd_word (fst e)) (words demoCloud))
        rest.
Proof.
  split; [exact canvasHost_ok|]. split; [exact canvasCloud_scheduled|].
  destruct canvasCloud_clicked as (p0 & p1 & lbl & r & H0 & Hin & Hb & H1).
  exists p1.
  assert (Hr : reachable canvasHost demoCloud p1).
  { apply (reach_click canvasHost demoCloud p0 lbl r (draws p0) p1);
      [apply (reach_initial canvasHost demoCloud 0%nat p0 H0) | exact Hin
      | exact H1]. }
  split; [exact Hr|].
  destruct (reachable_passes_are_focused canvasHost demoSettings demoSource
              demoCloud p1 canvasHost_ok canvasCloud_scheduled Hr)
    as (Hcanvas & lbl1 & rest & Hlay & Hc & Hw & Hrest).
  split; [exact Hcanvas|].
  exists lbl1, rest. split; [exact Hlay|]. split; [|auto].
  destruct (focus_pass_head canvasHost demoCloud (wd_word lbl) (draws p0)
              canvasHost_ok canvasHost_canvas)
    as (q & lbl2 & rest2 & Hq & Hlay2 & Hword & _).
  - repeat constructor; discriminate.
  - rewrite Hb. discriminate.
  - rewrite H1 in Hq. injection Hq as <-. rewrite Hlay in Hlay2.
    injection Hlay2 as -> _. rewrite Hword. exact Hb.
Defined.

(* ------------------------------------------------------------------ *)
(** * The name of the separator *)

Lemma append_length (a b : string) :
  String.length (a ++ b) = (String.length a + String.length b)%nat.
Proof. induction a as [|x r IH]; cbn [append String.length]; lia. Qed.

Lemma append_cancel_r (a b c : string) :
  (a ++ c)%string = (b ++ c)%string -> a = b.
Proof.
  revert b. induction a as [|x r IH]; intros [|y b] H.
  - reflexivity.
  - apply (f_equal String.length) in H.
    cbn [append String.length] in H. rewrite append_length in H. lia.
  - apply (f_equal String.length) in H.
    cbn [append String.length] in H. rewrite append_length in H. lia.
  - cbn [append] in H. injection H as -> H. f_equal. apply IH. exact H.
Qed.

(** X17. The name the dialog gives to the separator tells the separators
    apart: two separators with the same name are the same. *)
Theorem separatorName_injective :
  forall a b : string, separatorName a = separatorName b -> a = b.
Proof.
  intros a b. unfold separatorName, quoteMark.
  destruct (String.eqb_spec a ",") as [->|Ha1];
    [|destruct (String.eqb_spec a ".") as [->|Ha2];
      [|destruct (String.eqb_spec a " ") as [->|Ha3]]];
    (destruct (String.eqb_spec b ",") as [->|Hb1];
     [|destruct (String.eqb_spec b ".") as [->|Hb2];
       [|destruct (String.eqb_spec b " ") as [->|Hb3]]]);
    cbn [append]; intro H; try reflexivity; try discriminate H.
  injection H as H. apply append_cancel_r in H. exact H.
Qed.

Lemma separatorName_injective_witness :
  separatorName ";" = separatorName ";" /\ ";"%string = ";"%string.
Proof.
  split; [reflexivity|].
  exact (separatorName_injective ";" ";" eq_refl).
Defined.

(* ------------------------------------------------------------------ *)
(** * Digits *)

Lemma digitValue_digitChar (d : Z) :
  (0 <= d < 36)%Z -> digitValue (digitChar d) = Some d.
Proof.
  intro Hd. unfold digitValue, digitChar.
  destruct (Z.ltb_spec d 10) as [H10|H10].
  - rewrite nat_ascii_embedding by lia. rewrite Z2Nat.id by lia.
    destruct (Z.leb_spec 48 (48 + d)); [|lia].
    destruct (Z.leb_spec (48 + d) 57); [|lia].
    cbn [andb]. f_equal. lia.
  - rewrite nat_ascii_embedding by lia. rewrite Z2Nat.id by lia.
    destruct (Z.leb_spec 48 (87 + d)); [|lia].
    destruct (Z.leb_spec (87 + d) 57); [lia|].
    destruct (Z.leb_spec 97 (87 + d)); [|lia].
    destruct (Z.leb_spec (87 + d) 122); [|lia].
    cbn [andb]. f_equal. lia.
Qed.

Lemma parseDigits_digit (radix d : Z) (s : string) (acc : option Z) :
  (0 <= d < radix)%Z -> (radix <= 36)%Z ->
  parseDigits radix (String (digitChar d) s) acc
  = parseDigits radix s (Some (accValue acc * radix + d)%Z).
Proof.
  intros Hd Hr. cbn [parseDigits].
  rewrite digitValue_digitChar by lia.
  destruct (Z.ltb_spec d radix); [|lia].
  destruct acc; cbn [accValue]; [reflexivity|]. f_equal.
Qed.

(** Reading back the digits of a number. *)
Lemma parseDigits_digitsFrom (radix : Z) (fuel : nat) :
  (2 <= radix <= 36)%Z ->
  forall (n : Z) (s : string) (acc : option Z),
    (0 <= n < radix ^ Z.of_nat (S fuel))%Z ->
    exists L : nat,
      (1 <= L)%nat /\
      parseDigits radix (digitsFrom fuel radix n s) acc
      = parseDigits radix s
          (Some (accValue acc * radix ^ Z.of_nat L + n)%Z).
Proof.
  intro Hr. induction fuel as [|f IH]; intros n s acc Hn.
  - exists 1%nat. split; [lia|]. cbn [digitsFrom].
    change (radix ^ Z.of_nat 1)%Z with (radix ^ 1)%Z in *.
    rewrite Z.pow_1_r in *.
    rewrite Z.mod_small by lia.
    apply parseDigits_digit; lia.
  - cbn [digitsFrom]. destruct (Z.ltb_spec n radix) as [Hlt|Hge].
    + exists 1%nat. split; [lia|].
      change (radix ^ Z.of_nat 1)%Z with (radix ^ 1)%Z.
      rewrite Z.pow_1_r, Z.mod_small by lia.
      apply parseDigits_digit; lia.
    + assert (Hq : (0 <= n / radix < radix ^ Z.of_nat (S f))%Z).
      { split; [apply Z.div_pos; lia|].
        apply Z.div_lt_upper_bound; [lia|].
        rewrite (Nat2Z.inj_succ (S f)), Z.pow_succ_r in Hn by lia. lia. }
      destruct (IH (n / radix)%Z
                  (String (digitChar (n mod radix)) s) acc Hq)
        as (L & HL & Hparse).
      exists (S L). split; [lia|]. rewrite Hparse.
      pose proof (Z.mod_pos_bound n radix ltac:(lia)) as Hm.
      rewrite parseDigits_digit by lia. cbn [accValue]. f_equal. f_equal.
      rewrite Nat2Z.inj_succ, Z.pow_succ_r by lia.
      pose proof (Z.div_mod n radix ltac:(lia)) as Hdm.
      set (P := (radix ^ Z.of_nat L)%Z). nia.
Qed.

Lemma log2_fuel (radix n : Z) :
  (2 <= radix)%Z -> (0 <= n)%Z ->
  (n < radix ^ Z.of_nat (S (Z.to_nat (Z.log2 n))))%Z.
Proof.
  intros Hr Hn.
  rewrite Nat2Z.inj_succ, Z2Nat.id by apply Z.log2_nonneg.
  destruct (Z.eq_dec n 0) as [->|Hn0].
  - cbn. lia.
  - apply Z.lt_le_trans with (2 ^ Z.succ (Z.log2 n))%Z.
    + apply Z.log2_spec. lia.
    + apply Z.pow_le_mono_l. lia.
Qed.

Lemma parseDigits_toStringRadix (radix n : Z) :
  (2 <= radix <= 36)%Z -> (0 <= n)%Z ->
  parseDigits radix (toStringRadix radix n) None = Some n.
Proof.
  intros Hr Hn. unfold toStringRadix.
  destruct (parseDigits_digitsFrom radix (Z.to_nat (Z.log2 n)) Hr n
              EmptyString None) as (L & _ & Hparse).
  { split; [exact Hn | apply log2_fuel; lia]. }
  rewrite Hparse. cbn [parseDigits accValue]. f_equal; lia.
Qed.

(** The digits of a number are digits of the radix, and at most [k] of them
    when the number is below the [k]-th power of the radix. *)
Lemma digitsFrom_length (radix : Z) (fuel : nat) :
  (2 <= radix)%Z ->
  forall (n : Z) (k : nat) (s : string),
    (0 <= n < radix ^ Z.of_nat (S k))%Z ->
    (String.length (digitsFrom fuel radix n s)
     <= S k + String.length s)%nat /\
    (1 + String.length s <= String.length (digitsFrom fuel radix n s))%nat.
Proof.
  intro Hr. induction fuel as [|f IH]; intros n k s Hn.
  - cbn [digitsFrom String.length]. lia.
  - cbn [digitsFrom]. destruct (Z.ltb_spec n radix) as [Hlt|Hge].
    + cbn [String.length]. lia.
    + destruct k as [|k].
      { change (radix ^ Z.of_nat 1)%Z with (radix ^ 1)%Z in Hn.
        rewrite Z.pow_1_r in Hn. lia. }
      assert (Hq : (0 <= n / radix < radix ^ Z.of_nat (S k))%Z).
      { split; [apply Z.div_pos; lia|].
        apply Z.div_lt_upper_bound; [lia|].
        rewrite (Nat2Z.inj_succ (S k)), Z.pow_succ_r in Hn by lia. lia. }
      destruct (IH (n / radix)%Z k
                  (String (digitChar (n mod radix)) s) Hq) as [H1 H2].
      cbn [String.length] in H1, H2. lia.
Qed.

Lemma digitChar_hex (d : Z) :
  (0 <= d < 16)%Z ->
  let n := nat_of_ascii (digitChar d) in
  (((48 <=? n) && (n <=? 57)) || ((97 <=? n) && (n <=? 102)))%nat = true.
Proof.
  intros Hd.
  assert (Hcases : (d = 0 \/ d = 1 \/ d = 2 \/ d = 3 \/ d = 4 \/ d = 5
                    \/ d = 6 \/ d = 7 \/ d = 8 \/ d = 9 \/ d = 10 \/ d = 11
                    \/ d = 12 \/ d = 13 \/ d = 14 \/ d = 15)%Z) by lia.
  repeat (destruct Hcases as [->|Hcases]; [reflexivity|]).
  subst d. reflexivity.
Qed.

Lemma digitsFrom_hex (radix : Z) (fuel : nat) :
  (2 <= radix <= 16)%Z ->
  forall (n : Z) (s : string),
    isHexString s = true ->
    isHexString (digitsFrom fuel radix n s) = true.
Proof.
  intro Hr.
  assert (Hacc : forall n s, isHexString s = true ->
                 isHexString (String (digitChar (n mod radix)) s) = true).
  { intros n s Hs. cbn [isHexString].
    rewrite (digitChar_hex (n mod radix))
      by (pose proof (Z.mod_pos_bound n radix ltac:(lia)); lia).
    exact Hs. }
  induction fuel as [|f IH]; intros n s Hs; cbn [digitsFrom].
  - apply Hacc. exact Hs.
  - destruct (n <? radix)%Z; [|apply IH]; apply Hacc; exact Hs.
Qed.

Lemma parseDigits_zeros (radix : Z) (k : nat) (s : string) (acc : option Z) :
  (2 <= radix <= 36)%Z -> accValue acc = 0%Z ->
  exists acc', accValue acc' = 0%Z /\
               parseDigits radix (repeatChar "0" k ++ s) acc
               = parseDigits radix s acc'.
Proof.
  intros Hr. revert acc. induction k as [|k IH]; intros acc Hacc.
  - exists acc. split; [exact Hacc | reflexivity].
  - cbn [repeatChar append].
    change "0"%char with (digitChar 0).
    rewrite parseDigits_digit by lia. rewrite Hacc.
    apply IH. reflexivity.
Qed.

(* ------------------------------------------------------------------ *)
(** * The font size fields *)

Lemma option_map_mul_1 (o : option Z) : option_map (Z.mul 1) o = o.
Proof. destruct o as [[|p|p]|]; reflexivity. Qed.

(** On a string of digits, [parseInt] reads the digits in base ten. *)
Lemma parseInt_digits (s : string) :
  isHexString s = true -> parseInt s = parseDigits 10 s None.
Proof.
  intro H. destruct s as [|c1 s']; [reflexivity|].
  destruct c1 as [[] [] [] [] [] [] [] []];
    cbn [isHexString] in H; try discriminate H;
    try (change (parseInt (String ?c s'))
           with (option_map (Z.mul 1) (parseDigits 10 (String c s') None));
         apply option_map_mul_1).
  destruct s' as [|c2 r]; [reflexivity|].
  destruct c2 as [[] [] [] [] [] [] [] []];
    cbn [isHexString] in H; try discriminate H;
    match goal with
    | |- parseInt ?t = _ =>
        change (parseInt t) with (option_map (Z.mul 1) (parseDigits 10 t None))
    end;
    apply option_map_mul_1.
Qed.

Lemma parseInt_minus_digits (s : string) :
  isHexString s = true ->
  parseInt (String "-" s)
  = option_map (Z.mul (-1)) (parseDigits 10 s None).
Proof.
  intro H. destruct s as [|c1 s']; [reflexivity|].
  destruct c1 as [[] [] [] [] [] [] [] []];
    cbn [isHexString] in H; try discriminate H; try reflexivity.
  destruct s' as [|c2 r]; [reflexivity|].
  destruct c2 as [[] [] [] [] [] [] [] []];
    cbn [isHexString] in H; try discriminate H; reflexivity.
Qed.

Lemma toStringRadix_hex (n : Z) : isHexString (toStringRadix 10 n) = true.
Proof.
  unfold toStringRadix. apply digitsFrom_hex; [lia | reflexivity].
Qed.

Lemma parseInt_numberToString (n : Z) :
  parseInt (numberToString n) = Some n.
Proof.
  unfold numberToString. destruct (Z.ltb_spec n 0) as [Hneg|Hpos].
  - rewrite parseInt_minus_digits by apply toStringRadix_hex.
    rewrite parseDigits_toStringRadix by lia.
    cbn [option_map]. f_equal. lia.
  - rewrite parseInt_digits by apply toStringRadix_hex.
    apply parseDigits_toStringRadix; lia.
Qed.

Lemma digitsFrom_not_empty (fuel : nat) (radix : Z) :
  forall (n : Z) (s : string), digitsFrom fuel radix n s <> EmptyString.
Proof.
  induction fuel as [|f IH]; intros n s; cbn [digitsFrom].
  - discriminate.
  - destruct (n <? radix)%Z; [discriminate | apply IH].
Qed.

Lemma numberToString_not_empty (n : Z) : numberToString n <> EmptyString.
Proof.
  unfold numberToString, toStringRadix.
  destruct (n <? 0)%Z; [discriminate | apply digitsFrom_not_empty].
Qed.

Lemma orElse_left (a b : string) : a <> EmptyString -> orElse a b = a.
Proof.
  intro H. destruct a as [|c a']; [congruence | reflexivity].
Qed.

(** X18. Hovering a label never turns it: the rotation written to the
    label's data attribute with [String] is read back unchanged by the
    hover handlers' [parseInt], for every whole rotation that [String]
    writes in plain digits, negative ones such as [-90] included; the
    fallback ["0"] is never used. *)
Theorem hover_reads_back_rotation :
  forall rotation : Z,
    (- 10 ^ 21 < rotation < 10 ^ 21)%Z ->
    datasetRotation rotation <> EmptyString /\
    hoverRotation (datasetRotation rotation) = Some rotation.
Proof.
  intros rotation _. split.
  - apply numberToString_not_empty.
  - unfold hoverRotation, datasetRotation.
    rewrite orElse_left by apply numberToString_not_empty.
    apply parseInt_numberToString.
Qed.

Lemma hover_reads_back_rotation_witness :
  (- 10 ^ 21 < -90 < 10 ^ 21)%Z /\
  datasetRotation (-90) <> EmptyString /\
  hoverRotation (datasetRotation (-90)) = Some (-90)%Z.
Proof.
  split; [lia|]. apply (hover_reads_back_rotation (-90)). lia.
Defined.

Lemma settings_eta_min (s : WordCloudSettings) :
  withMinFontSize s (minFontSize s) = s.
Proof. destruct s; reflexivity. Qed.

(** X19. While auto font size is off, typing a positive whole number below
    2^53 in a font size field, written as the field itself shows numbers,
    stores that number and changes nothing else; so typing again what the
    field shows changes nothing. *)
Theorem typing_a_size_stores_it :
  forall (st : Store) (n : Z),
    autoFontSize (current st) = false ->
    (0 < n < 2 ^ 53)%Z ->
    applyTab st (TypeMinFontSize (numberToString n))
    = writeField st (fun s => withMinFontSize s n) /\
    applyTab st (TypeMaxFontSize (numberToString n))
    = writeField st (fun s => withMaxFontSize s n) /\
    (n = minFontSize (current st) ->
     applyTab st (TypeMinFontSize (numberToString n)) = st).
Proof.
  intros st n Hauto Hn.
  assert (Hacc : acceptedSize (numberToString n) = Some n).
  { unfold acceptedSize. rewrite parseInt_numberToString.
    destruct (Z.ltb_spec 0 n); [reflexivity | lia]. }
  cbn [applyTab]. rewrite Hauto, Hacc.
  split; [reflexivity|]. split; [reflexivity|].
  intros ->. unfold writeField. rewrite settings_eta_min.
  destruct st; reflexivity.
Qed.

Lemma typing_a_size_stores_it_witness :
  let st := applyTab (loadSettings None) (ToggleAutoFontSize false) in
  autoFontSize (current st) = false /\
  (0 < 12 < 2 ^ 53)%Z /\
  applyTab st (TypeMinFontSize "12")
  = writeField st (fun s => withMinFontSize s 12) /\
  applyTab st (TypeMaxFontSize "12")
  = writeField st (fun s => withMaxFontSize s 12) /\
  (12%Z = minFontSize (current st) ->
   applyTab st (TypeMinFontSize "12") = st).
Proof.
  intro st. split; [reflexivity|]. split; [split; reflexivity|].
  exact (typing_a_size_stores_it st 12 eq_refl ltac:(split; reflexivity)).
Defined.

(* ------------------------------------------------------------------ *)
(** * The colour of the Add color button *)

Lemma isHexString_append (a b : string) :
  isHexString (a ++ b) = isHexString a && isHexString b.
Proof.
  induction a as [|x r IH]; cbn [append isHexString]; [reflexivity|].
  rewrite IH, andb_assoc. reflexivity.
Qed.

Lemma isHexString_zeros (k : nat) : isHexString (repeatChar "0" k) = true.
Proof. induction k as [|k IH]; [reflexivity | exact IH]. Qed.

Lemma repeatChar_length (ch : ascii) (k : nat) :
  String.length (repeatChar ch k) = k.
Proof. induction k as [|k IH]; cbn [repeatChar String.length]; lia. Qed.

(** X20. For the whole number the Add color button draws, one of 0 ..
    16777214, the colour it makes is a hash sign followed by exactly six
    lower-case hexadecimal digits, which read back as that number; so it is
    never pure white, ffffff. *)
Theorem added_color_is_six_hex_digits :
  forall v : Z,
    (0 <= v < 16777215)%Z ->
    exists body : string,
      randomColor v = ("#" ++ body)%string /\
      String.length body = 6%nat /\
      isHexString body = true /\
      parseDigits 16 body None = Some v /\
      body <> "ffffff"%string.
Proof.
  intros v Hv.
  set (D := toStringRadix 16 v).
  assert (Hlen : (1 <= String.length D <= 6)%nat).
  { unfold D, toStringRadix.
    destruct (digitsFrom_length 16 (Z.to_nat (Z.log2 v)) ltac:(lia) v 5%nat
                EmptyString) as [Hhi Hlo].
    { change (16 ^ Z.of_nat 6)%Z with 16777216%Z. lia. }
    cbn [String.length] in Hhi, Hlo. lia. }
  assert (Hhex : isHexString D = true).
  { unfold D, toStringRadix. apply digitsFrom_hex; [lia | reflexivity]. }
  assert (Hparse : parseDigits 16 (padStart 6 "0" D) None = Some v).
  { unfold padStart.
    destruct (parseDigits_zeros 16 (6 - String.length D) D None
                ltac:(lia) eq_refl) as (acc' & Hacc & Hp).
    rewrite Hp. unfold D, toStringRadix.
    destruct (parseDigits_digitsFrom 16 (Z.to_nat (Z.log2 v)) ltac:(lia) v
                EmptyString acc') as (L & _ & Hparse).
    { split; [lia | apply log2_fuel; lia]. }
    rewrite Hparse, Hacc. cbn [parseDigits]. f_equal; lia. }
  exists (padStart 6 "0" D).
  split; [reflexivity|]. split; [|split; [|split]].
  - unfold padStart. rewrite append_length, repeatChar_length. lia.
  - unfold padStart.
    rewrite isHexString_append, isHexString_zeros, Hhex. reflexivity.
  - exact Hparse.
  - intro E. rewrite E in Hparse.
    change (parseDigits 16 "ffffff" None) with (Some 16777215%Z) in Hparse.
    injection Hparse as Hparse. lia.
Qed.

Lemma added_color_is_six_hex_digits_witness :
  (0 <= 2748 < 16777215)%Z /\
  randomColor 2748 = "#000abc"%string /\
  exists body : string,
    randomColor 2748 = ("#" ++ body)%string /\
    String.length body = 6%nat /\
    isHexString body = true /\
    parseDigits 16 body None = Some 2748%Z /\
    body <> "ffffff"%string.
Proof.
  split; [split; [discriminate | reflexivity]|].
  split; [vm_compute; reflexivity|].
  exact (added_color_is_six_hex_digits 2748
           ltac:(split; [discriminate | reflexivity])).
Defined.

(* ------------------------------------------------------------------ *)
(** * The settings the tab can lead to *)

Lemma acceptedSize_positive (value : string) (num : Z) :
  acceptedSize value = Some num -> (0 < num)%Z.
Proof.
  unfold acceptedSize. destruct (parseInt value) as [k|]; [|discriminate].
  destruct (Z.ltb_spec 0 k) as [Hk|Hk]; [|discriminate].
  intro E. injection E as <-. exact Hk.
Qed.

Lemma replaceAt_length {A} (i : nat) (v : A) (l : list A) :
  List.length (replaceAt i v l) = List.length l.
Proof.
  revert i. induction l as [|x r IH]; intros [|i]; cbn [replaceAt List.length];
    try reflexivity.
  rewrite IH. reflexivity.
Qed.

Lemma removeAt_length {A} (i : nat) (l : list A) :
  (i < List.length l)%nat ->
  List.length (removeAt i l) = (List.length l - 1)%nat.
Proof.
  revert i. induction l as [|x r IH]; intros [|i] Hi;
    cbn [removeAt List.length] in *; try lia.
  rewrite IH by lia. lia.
Qed.

Lemma usable_default : usable DEFAULT_SETTINGS.
Proof.
  repeat split; try discriminate. exists Comma. reflexivity.
Qed.

Lemma loadSettings_ok (data : option SavedData) :
  usableData data -> storeOk (loadSettings data).
Proof.
  destruct data as [d|]; cbn [usableData loadSettings].
  - intros (Hmin & Hmax & Hpal & Hsep).
    split; [|split; [discriminate|]].
    + unfold usable.
      cbn [current minFontSize maxFontSize colorPalette separator].
      split; [|split; [|split]].
      * destruct (saved_minFontSize d) as [v|]; cbn [fromSaved];
          [apply (Hmin v eq_refl) | reflexivity].
      * destruct (saved_maxFontSize d) as [v|]; cbn [fromSaved];
          [apply (Hmax v eq_refl) | reflexivity].
      * destruct (saved_colorPalette d) as [v|]; cbn [fromSaved];
          [apply (Hpal v eq_refl) | discriminate].
      * destruct (saved_separator d) as [v|]; cbn [fromSaved];
          [apply (Hsep v eq_refl) | exists Comma; reflexivity].
    + cbn [aliased current colorPalette defaultPalette].
      destruct (saved_colorPalette d); [discriminate | reflexivity].
  - intros _. split; [exact usable_default|].
    split; [discriminate | reflexivity].
Qed.

Lemma writeField_ok (st : Store)
  (f : WordCloudSettings -> WordCloudSettings) :
  storeOk st ->
  usable (f (current st)) ->
  colorPalette (f (current st)) = colorPalette (current st) ->
  storeOk (writeField st f).
Proof.
  intros (_ & Hdef & Hal) Hu Hpal. unfold writeField.
  split; [exact Hu|]. split; [exact Hdef|].
  cbn [current defaultPalette aliased]. rewrite Hpal. exact Hal.
Qed.

Lemma editPalette_ok (st : Store) (f : list string -> list string) :
  storeOk st ->
  f (colorPalette (current st)) <> [] ->
  storeOk (editPalette st f).
Proof.
  intros ((Hmin & Hmax & _ & Hsep) & Hdef & Hal) Hne. unfold editPalette.
  cbn zeta. split; [|split].
  - repeat split; assumption.
  - cbn [defaultPalette]. destruct (aliased st); assumption.
  - cbn [aliased current defaultPalette colorPalette withColorPalette].
    intro E. rewrite E. reflexivity.
Qed.

Lemma applyTab_ok (st : Store) (a : TabAction) :
  storeOk st -> storeOk (applyTab st a).
Proof.
  intro Hok. pose proof Hok as ((Hmin & Hmax & Hpal & Hsep) & Hdef & Hal).
  destruct a as [o|cs|v|value|value|v|sp|i value|i|value|]; cbn [applyTab].
  - apply writeField_ok; [exact Hok | | reflexivity].
    repeat split; try assumption. exists o. reflexivity.
  - apply writeField_ok; [exact Hok | | reflexivity].
    repeat split; assumption.
  - apply writeField_ok; [exact Hok | | reflexivity].
    repeat split; assumption.
  - destruct (autoFontSize (current st)); [exact Hok|].
    destruct (acceptedSize value) as [num|] eqn:E; [|exact Hok].
    apply acceptedSize_positive in E.
    apply writeField_ok; [exact Hok | | reflexivity].
    repeat split; assumption.
  - destruct (autoFontSize (current st)); [exact Hok|].
    destruct (acceptedSize value) as [num|] eqn:E; [|exact Hok].
    apply acceptedSize_positive in E.
    apply writeField_ok; [exact Hok | | reflexivity].
    repeat split; assumption.
  - apply writeField_ok; [exact Hok | | reflexivity].
    repeat split; assumption.
  - destruct (autoSpacing (current st)); [exact Hok|].
    apply writeField_ok; [exact Hok | | reflexivity].
    repeat split; assumption.
  - destruct (Nat.ltb_spec i (List.length (colorPalette (current st))))
      as [Hi|Hi]; [|exact Hok].
    apply editPalette_ok; [exact Hok|].
    intro E. apply (f_equal (@List.length string)) in E.
    rewrite replaceAt_length in E. cbn [List.length] in E. lia.
  - destruct (Nat.ltb_spec i (List.length (colorPalette (current st))))
      as [Hi|Hi]; [|exact Hok].
    destruct (Nat.ltb_spec 1 (List.length (colorPalette (current st))))
      as [H1|H1]; [|exact Hok].
    apply editPalette_ok; [exact Hok|].
    intro E. apply (f_equal (@List.length string)) in E.
    rewrite removeAt_length in E by exact Hi. cbn [List.length] in E. lia.
  - apply editPalette_ok; [exact Hok|].
    intro E. apply app_eq_nil in E. destruct E as [_ E]. discriminate E.
  - unfold resetPalette. split; [|split].
    + repeat split; assumption.
    + exact Hdef.
    + discriminate.
Qed.

Lemma fold_applyTab_ok (actions : list TabAction) :
  forall st, storeOk st -> storeOk (fold_left applyTab actions st).
Proof.
  induction actions as [|a rest IH]; intros st Hst; [exact Hst|].
  cbn [fold_left]. apply IH, applyTab_ok, Hst.
Qed.

Lemma getAutoFontSizes_positive (wordCount : Z) (isMobile : bool) :
  (0 < min (getAutoFontSizes wordCount isMobile))%Z /\
  (0 < max (getAutoFontSizes wordCount isMobile))%Z.
Proof.
  unfold getAutoFontSizes. destruct isMobile; bucket_cases; cbn; lia.
Qed.

(** X21. Whatever a user does in the settings tab, starting from what
    [loadSettings] makes of saved data whose font sizes are above zero,
    whose palette is not empty and whose separator is one of the five of
    the list (or of no saved data at all), the settings keep these three
    properties, and a palette that is the array of the defaults stays equal
    to it; a cloud drawn from the settings uses their separator and their
    palette, never the fallbacks, and font size bounds above zero. *)
Theorem tab_keeps_settings_usable :
  forall (data : option SavedData) (actions : list TabAction),
    usableData data ->
    Forall plausible actions ->
    let st := fold_left applyTab actions (loadSettings data) in
    usable (current st) /\
    defaultPalette st <> [] /\
    (aliased st = true -> colorPalette (current st) = defaultPalette st) /\
    orElse (separator (current st)) "," = separator (current st) /\
    forall (h : Host) (source : string) (c : Cloud),
      renderWordCloud h (current st) source = Scheduled c ->
      colors c = colorPalette (current st) /\
      (0 < cloudMin c)%Z /\ (0 < cloudMax c)%Z.
Proof.
  intros data actions Hdata _ st.
  pose proof (fold_applyTab_ok actions _ (loadSettings_ok data Hdata)) as Hok.
  fold st in Hok. destruct Hok as (Hu & Hdef & Hal).
  split; [exact Hu|]. split; [exact Hdef|]. split; [exact Hal|].
  destruct Hu as (Hmin & Hmax & Hpal & o & Hsep).
  split; [rewrite Hsep; destruct o; reflexivity|].
  intros h source c Hsched. unfold renderWordCloud in Hsched.
  destruct (List.length (tokenize (current st) source) =? 0)%nat;
    [discriminate|].
  injection Hsched as <-. cbn [colors cloudMin cloudMax].
  split.
  - destruct (colorPalette (current st)); [congruence | reflexivity].
  - destruct (autoFontSize (current st)); [apply getAutoFontSizes_positive|].
    cbn [min max]. split; assumption.
Qed.

Lemma tab_keeps_settings_usable_witness :
  let actions :=
    [ToggleAutoFontSize false; TypeMinFontSize "0"; TypeMaxFontSize "30px";
     AddColor 2748; RemoveColor 0; ResetPalette; ChooseSeparator Pipe] in
  usableData None /\
  Forall plausible actions /\
  let st := fold_left applyTab actions (loadSettings None) in
  colorPalette (current st)
  = ["#cc6600"; "#cc0066"; "#6600cc"; "#00cc66"; "#000abc"]%string /\
  usable (current st) /\
  defaultPalette st <> [] /\
  (aliased st = true -> colorPalette (current st) = defaultPalette st) /\
  orElse (separator (current st)) "," = separator (current st) /\
  forall (h : Host) (source : string) (c : Cloud),
    renderWordCloud h (current st) source = Scheduled c ->
    colors c = colorPalette (current st) /\
    (0 < cloudMin c)%Z /\ (0 < cloudMax c)%Z.
Proof.
  intro actions.
  assert (Hp : Forall plausible actions).
  { repeat constructor; cbn; lia. }
  split; [exact I|]. split; [exact Hp|].
  intro st. split; [vm_compute; reflexivity|].
  exact (tab_keeps_settings_usable None actions I Hp).
Defined.

(* ------------------------------------------------------------------ *)
(** * The size of the labels *)

Lemma measureWidth_fallback (h : Host) (fontSize : Z) (word : string) :
  getContext h = None -> (0 <= fontSize)%Z ->
  8 <= measureWidth h fontSize word.
Proof.
  intros Hctx Hf. unfold measureWidth. rewrite Hctx.
  set (x := inject_Z (Z.of_nat (String.length word)) * inject_Z fontSize * 0.6).
  assert (Hx : 0 <= x).
  { unfold x. apply Qmult_le_0_compat; [|discriminate].
    apply Qmult_le_0_compat; change 0 with (inject_Z 0);
      rewrite <- Zle_Qle; lia. }
  pose proof (Qle_ceiling x) as Hc.
  assert (H0 : 0 <= inject_Z (Qceiling x)) by lra. lra.
Qed.

(** X22. With font size bounds above zero, in either order, every label
    of a pass has a font size above zero and a height above 8; and without
    a canvas its width is 8 at least. *)
Theorem labels_have_positive_size :
  forall (h : Host) (c : Cloud) (cw : option string) (n : nat),
    host_ok h ->
    (0 < cloudMin c)%Z -> (0 < cloudMax c)%Z ->
    Forall (fun lbl =>
              (0 < wd_fontSize lbl)%Z /\ 8 < wd_height lbl /\
              (getContext h = None -> 8 <= wd_width lbl))
      (fst (makeLabels h c cw n)).
Proof.
  intros h c cw n Hhost Hmin Hmax.
  unfold makeLabels, bind.
  destruct (shuffleWords h c cw n) as [shuffled n1].
  eapply Forall2_right. apply forEach_Forall2. intros w m _.
  destruct (makeLabel_fields h c cw w m) as (_ & _ & Hf & Hwd & Hht & _).
  assert (Hpos : (0 < wd_fontSize (fst (makeLabel h c cw w m)))%Z).
  { rewrite Hf. destruct (strictEq cw w).
    - rewrite centeredFontSize_eq.
      pose proof (Z.div_pos (cloudMin c + cloudMax c) 2
                    ltac:(lia) ltac:(lia)). lia.
    - destruct Hhost as [Hrand _]. destruct (Hrand m) as [H0 H1].
      destruct (Z.le_gt_cases (cloudMin c) (cloudMax c)) as [Hle|Hgt].
      + pose proof (randomFontSize_range _ _ _ Hle H0 H1). lia.
      + pose proof (randomFontSize_reversed _ _ _ Hgt H0 H1). lia. }
  split; [exact Hpos|]. split.
  - rewrite Hht.
    assert (0 < inject_Z (wd_fontSize (fst (makeLabel h c cw w m)))).
    { change 0 with (inject_Z 0). rewrite <- Zlt_Qlt. exact Hpos. }
    lra.
  - intro Hctx. rewrite Hwd. apply measureWidth_fallback; [exact Hctx | lia].
Qed.

Lemma labels_have_positive_size_witness :
  host_ok demoHost /\
  (0 < cloudMin demoCloud)%Z /\ (0 < cloudMax demoCloud)%Z /\
  Forall (fun lbl =>
            (0 < wd_fontSize lbl)%Z /\ 8 < wd_height lbl /\
            (getContext demoHost = None -> 8 <= wd_width lbl))
    (fst (makeLabels demoHost demoCloud (Some "hi"%string) 0%nat)).
Proof.
  split; [exact demoHost_ok|]. split; [reflexivity|]. split; [reflexivity|].
  exact (labels_have_positive_size demoHost demoCloud (Some "hi"%string)
           0%nat demoHost_ok eq_refl eq_refl).
Defined.
